(** * Contributor identity pipeline of the organisation metrics collector

    A shallow embedding of the collector scripts of the repository:
    - [scripts/collect-metrics.js]: [extractUsername], [findCoAuthors],
      [updateHistory];
    - the collector packed in [.github/workflows/main.yml]:
      [getUsernameFromEmail];
    - the enhanced collector: [extractCoAuthors] and the contributor scan,
      e-mail resolution, deduplication and history update of [collectMetrics].

    Conventions of the embedding.
    - A JavaScript string is a [string]: the sequence of its code units.  The
      embedding covers code units below 256, on which [toLowerCase], [trim]
      and the character classes of the regular expressions are written out.
    - [null]/[undefined] is [None]; a string is "truthy" when it is not empty.
    - A [Map] is an association list in insertion order with unique keys; a
      [Set] of strings is a duplicate-free list in insertion order.
    - Contribution counts are integers ([Z]); the deduplication score is a
      JavaScript number computed in binary64 ([spec_float], precision 53). *)

From Stdlib Require Import List ZArith NArith Bool Ascii String Lia Permutation FinFun Sorted.
From Stdlib Require Import DecimalString DecimalNat.
From Stdlib Require DecimalFacts.
From Stdlib Require Import Floats.SpecFloat.
Import ListNotations.

Local Open Scope string_scope.
Local Open Scope list_scope.

(* ------------------------------------------------------------------ *)
(** ** JavaScript strings *)

Module Js.

Definition code (c : ascii) : N := N_of_ascii c.

Definition between (lo hi : N) (c : ascii) : bool :=
  (lo <=? code c)%N && (code c <=? hi)%N.

Definition isCode (n : N) (c : ascii) : bool := (code c =? n)%N.

(** [String.prototype.toLowerCase] on one code unit: A-Z and the Latin-1
    capitals U+00C0..U+00DE (the multiplication sign U+00D7 apart). *)
Definition toLowerChar (c : ascii) : ascii :=
  if between 65 90 c || (between 192 222 c && negb (isCode 215 c))
  then ascii_of_N (code c + 32) else c.

Fixpoint toLowerCase (s : string) : string :=
  match s with
  | EmptyString => EmptyString
  | String c s' => String (toLowerChar c) (toLowerCase s')
  end.

(** White space and line terminators, as [trim] and [\s] see them:
    TAB, LF, VT, FF, CR, SPACE and NBSP. *)
Definition isWhiteSpace (c : ascii) : bool :=
  between 9 13 c || isCode 32 c || isCode 160 c.

Fixpoint trimStart (s : string) : string :=
  match s with
  | EmptyString => EmptyString
  | String c s' => if isWhiteSpace c then trimStart s' else s
  end.

Fixpoint trimEnd (s : string) : string :=
  match s with
  | EmptyString => EmptyString
  | String c s' =>
      match trimEnd s' with
      | EmptyString => if isWhiteSpace c then EmptyString else String c EmptyString
      | t => String c t
      end
  end.

Definition trim (s : string) : string := trimEnd (trimStart s).

(** Truthiness of a string value. *)
Definition truthy (s : string) : bool := negb (s =? "").

Definition truthyOpt (o : option string) : bool :=
  match o with Some s => truthy s | None => false end.

Fixpoint take (n : nat) (s : string) : string :=
  match n, s with
  | S k, String c s' => String c (take k s')
  | _, _ => EmptyString
  end.

Fixpoint drop (n : nat) (s : string) : string :=
  match n, s with
  | S k, String _ s' => drop k s'
  | _, _ => s
  end.

(** [s.substring(a, b)] for [a <= b]. *)
Definition substring (a b : nat) (s : string) : string := take (b - a) (drop a s).

(** [s.startsWith(p)]. *)
Fixpoint startsWith (s p : string) {struct p} : bool :=
  match p, s with
  | EmptyString, _ => true
  | String a p', String b s' => Ascii.eqb a b && startsWith s' p'
  | String _ _, EmptyString => false
  end.

(** [s.includes(sub)]. *)
Fixpoint includes (s sub : string) : bool :=
  startsWith s sub ||
  match s with
  | EmptyString => false
  | String _ s' => includes s' sub
  end.

(** [s.endsWith(suffix)]. *)
Definition endsWith (s suffix : string) : bool :=
  (String.length suffix <=? String.length s)%nat &&
  (drop (String.length s - String.length suffix) s =? suffix).

(** All the positions at which [sub] occurs in [s], ascending: the values the
    loop [pos = s.indexOf(sub); while (pos !== -1) { ...; pos = s.indexOf(sub, pos + 1) }]
    visits. *)
Fixpoint positionsFrom (s sub : string) (i : nat) : list nat :=
  (if startsWith s sub then [i] else []) ++
  match s with
  | EmptyString => []
  | String _ s' => positionsFrom s' sub (S i)
  end.

Definition positions (s sub : string) : list nat := positionsFrom s sub 0.

(** [s.split(sep)] for a separator of one character. *)
Fixpoint split (sep : ascii) (s : string) : list string :=
  match s with
  | EmptyString => [EmptyString]
  | String c s' =>
      if Ascii.eqb c sep then EmptyString :: split sep s'
      else match split sep s' with
           | h :: t => String c h :: t
           | [] => [String c EmptyString]
           end
  end.

(** [s.split(sep)[0]]. *)
Definition firstPiece (sep : ascii) (s : string) : string := hd EmptyString (split sep s).

(** [s.replace(/pat/g, by)] for a literal, non-empty [pat]: [skip] counts the
    characters of the occurrence being replaced that are still to be passed. *)
Fixpoint replaceAllFrom (pat by_ : string) (s : string) (skip : nat) : string :=
  match s with
  | EmptyString => EmptyString
  | String c s' =>
      match skip with
      | S k => replaceAllFrom pat by_ s' k
      | O =>
          if startsWith s pat
          then by_ ++ replaceAllFrom pat by_ s' (String.length pat - 1)
          else String c (replaceAllFrom pat by_ s' 0)
      end
  end.

Definition replaceAll (pat by_ s : string) : string := replaceAllFrom pat by_ s 0.

Fixpoint filterChars (p : ascii -> bool) (s : string) : string :=
  match s with
  | EmptyString => EmptyString
  | String c s' => if p c then String c (filterChars p s') else filterChars p s'
  end.

Fixpoint allChars (p : ascii -> bool) (s : string) : bool :=
  match s with
  | EmptyString => true
  | String c s' => p c && allChars p s'
  end.

Definition isDigit (c : ascii) : bool := between 48 57 c.
Definition isLowerAZ (c : ascii) : bool := between 97 122 c.
Definition isUpperAZ (c : ascii) : bool := between 65 90 c.
Definition isLowerAlnum (c : ascii) : bool := isLowerAZ c || isDigit c.

(** [s.replace(/[^a-z0-9]/g, '')]. *)
Definition stripNonAlnum (s : string) : string := filterChars isLowerAlnum s.

(** The decimal text of a count, as a template literal prints it. *)
Definition numberToString (n : nat) : string :=
  NilEmpty.string_of_uint (Nat.to_uint n).

End Js.

(* ------------------------------------------------------------------ *)
(** ** Regular expressions

    A backtracking matcher for the fragment of the JavaScript regular
    expressions the scripts use: character classes, [^], [$], [\b],
    quantified classes (greedy and lazy), sequences and capturing groups. *)

Module Regex.
Import Js.

Definition charset := ascii -> bool.

Inductive re : Type :=
| Eps
| Chr (p : charset)
| Bol
| Eol
| WordBoundary
| Rep (greedy : bool) (lo : nat) (p : charset)
| Seq (r1 r2 : re)
| Group (r : re).

(** Character classes. *)
Definition oneOf (s : string) : charset :=
  fun c => existsb (Ascii.eqb c) (list_ascii_of_string s).
Definition noneOf (s : string) : charset := fun c => negb (oneOf s c).
Definition union (p q : charset) : charset := fun c => p c || q c.

(** The other case of an ASCII letter; the [i] flag compares pattern and
    input characters up to it. *)
Definition swapCase (c : ascii) : ascii :=
  if isUpperAZ c then ascii_of_N (code c + 32)
  else if isLowerAZ c then ascii_of_N (code c - 32)
  else c.
Definition ci (p : charset) : charset := fun c => p c || p (swapCase c).

(** [.]: anything but a line terminator. *)
Definition dot : charset := noneOf (String "010" (String "013" EmptyString)).
(** [\s], [\d], and the word characters of [\b]. *)
Definition space : charset := isWhiteSpace.
Definition digit : charset := isDigit.
Definition alnum : charset := fun c => isLowerAZ c || isUpperAZ c || isDigit c.
Definition wordChar : charset := fun c => alnum c || isCode 95 c.

Fixpoint seq (l : list re) : re :=
  match l with
  | [] => Eps
  | r :: l' => Seq r (seq l')
  end.

Fixpoint lit (s : string) : re :=
  match s with
  | EmptyString => Eps
  | String c s' => Seq (Chr (Ascii.eqb c)) (lit s')
  end.

Fixpoint lit_i (s : string) : re :=
  match s with
  | EmptyString => Eps
  | String c s' => Seq (Chr (ci (Ascii.eqb c))) (lit_i s')
  end.

Definition isWordBefore (prev : option ascii) : bool :=
  match prev with Some c => wordChar c | None => false end.
Definition isWordAt (s : string) : bool :=
  match s with String c _ => wordChar c | EmptyString => false end.

(** A continuation receives the character before the cursor, the input still
    to read and the captures closed so far. *)
Definition cont : Type :=
  option ascii -> string -> list string -> option (string * list string).

(** A quantified class [p{lo,}] ([p{lo,}?] when not greedy) of which [n]
    characters are read already: greedy, it reads on as long as it can and
    falls back to the continuation; lazy, it tries the continuation first. *)
Fixpoint rep (greedy : bool) (lo : nat) (p : charset) (k : cont) (caps : list string)
    (prev : option ascii) (s : string) (n : nat) {struct s}
  : option (string * list string) :=
  if greedy then
    match (match s with
           | String c s' => if p c then rep greedy lo p k caps (Some c) s' (S n) else None
           | EmptyString => None
           end) with
    | Some res => Some res
    | None => if (lo <=? n)%nat then k prev s caps else None
    end
  else
    match (if (lo <=? n)%nat then k prev s caps else None) with
    | Some res => Some res
    | None =>
        match s with
        | String c s' => if p c then rep greedy lo p k caps (Some c) s' (S n) else None
        | EmptyString => None
        end
    end.

Fixpoint run (r : re) (prev : option ascii) (s : string) (caps : list string)
    (k : cont) {struct r} : option (string * list string) :=
  match r with
  | Eps => k prev s caps
  | Chr p =>
      match s with
      | String c s' => if p c then k (Some c) s' caps else None
      | EmptyString => None
      end
  | Bol => match prev with None => k prev s caps | Some _ => None end
  | Eol => match s with EmptyString => k prev s caps | String _ _ => None end
  | WordBoundary =>
      if xorb (isWordBefore prev) (isWordAt s) then k prev s caps else None
  | Rep greedy lo p => rep greedy lo p k caps prev s 0
  | Seq r1 r2 =>
      run r1 prev s caps (fun prev' s' caps' => run r2 prev' s' caps' k)
  | Group r1 =>
      run r1 prev s caps
        (fun prev' s' caps' =>
           k prev' s' (caps' ++ [take (String.length s - String.length s') s]))
  end.

(** A match: where it starts, its text, its groups, and the input after it. *)
Record matchResult := {
  index : nat;
  matched : string;
  groups : list string;
  after : string
}.

Definition matchHere (r : re) (prev : option ascii) (s : string)
  : option (string * list string) :=
  run r prev s [] (fun _ s' caps => Some (s', caps)).

Definition mkMatch (i : nat) (s : string) (res : string * list string) : matchResult :=
  {| index := i;
     matched := take (String.length s - String.length (fst res)) s;
     groups := snd res;
     after := fst res |}.

Fixpoint searchFrom (r : re) (prev : option ascii) (s : string) (i : nat)
  : option matchResult :=
  match matchHere r prev s with
  | Some res => Some (mkMatch i s res)
  | None =>
      match s with
      | EmptyString => None
      | String c s' => searchFrom r (Some c) s' (S i)
      end
  end.

(** [s.match(r)] and [r.exec(s)] without the [g] flag: the leftmost match. *)
Definition exec (r : re) (s : string) : option matchResult := searchFrom r None s 0.

(** [r.test(s)]. *)
Definition test (r : re) (s : string) : bool :=
  match exec r s with Some _ => true | None => false end.

(** The [n]-th group of a match, [m[n]] for [n >= 1]. *)
Definition group (n : nat) (m : matchResult) : string := nth (n - 1) (groups m) EmptyString.

(** [s.matchAll(r)] with the [g] flag: the successive matches, each search
    starting where the previous match ended (one further after an empty
    match).  [skip] counts the characters of the last match still to pass. *)
Fixpoint matchAllFrom (r : re) (prev : option ascii) (s : string) (skip i : nat)
  : list matchResult :=
  match skip with
  | S k =>
      match s with
      | EmptyString => []
      | String c s' => matchAllFrom r (Some c) s' k (S i)
      end
  | O =>
      match matchHere r prev s with
      | Some res =>
          mkMatch i s res ::
          match s with
          | EmptyString => []
          | String c s' =>
              matchAllFrom r (Some c) s'
                (String.length s - String.length (fst res) - 1) (S i)
          end
      | None =>
          match s with
          | EmptyString => []
          | String c s' => matchAllFrom r (Some c) s' 0 (S i)
          end
      end
  end.

Definition matchAll (r : re) (s : string) : list matchResult := matchAllFrom r None s 0 0.

Definition consHead (c : ascii) (l : list string) : list string :=
  match l with
  | h :: t => String c h :: t
  | [] => [String c EmptyString]
  end.

(** [s.split(r)] for an expression without groups whose matches are not
    empty: the pieces between the successive matches. *)
Fixpoint splitFrom (r : re) (prev : option ascii) (s : string) (skip : nat) : list string :=
  match s with
  | EmptyString => [EmptyString]
  | String c s' =>
      match skip with
      | S k => splitFrom r (Some c) s' k
      | O =>
          match matchHere r prev s with
          | Some res =>
              match (String.length s - String.length (fst res))%nat with
              | O => consHead c (splitFrom r (Some c) s' 0)
              | S n => EmptyString :: splitFrom r (Some c) s' n
              end
          | None => consHead c (splitFrom r (Some c) s' 0)
          end
      end
  end.

Definition splitRe (r : re) (s : string) : list string := splitFrom r None s 0.

(** The character before the cursor once [a] is read. *)
Fixpoint lastOpt (prev : option ascii) (a : string) : option ascii :=
  match a with
  | EmptyString => prev
  | String c a' => lastOpt (Some c) a'
  end.

(** The input does not go on with a character of the class. *)
Definition blocked (p : charset) (b : string) : bool :=
  match b with
  | EmptyString => true
  | String c _ => negb (p c)
  end.

End Regex.

(* ------------------------------------------------------------------ *)
(** ** Co-author extraction ([extractCoAuthors], enhanced collector) *)

Module Extractor.
Import Js Regex.

Definition LF : ascii := "010"%char.
Definition CR : ascii := "013"%char.
Definition lf : string := String LF EmptyString.
Definition crlf : string := String CR (String LF EmptyString).

Record candidate := {
  name : string;
  email : string;
  source : string
}.

(** [/Co-[aA]uthored-[bB]y:/i] *)
Definition markerLineRegex : re :=
  seq [lit_i "Co-"; Chr (ci (oneOf "aA")); lit_i "uthored-";
       Chr (ci (oneOf "bB")); lit_i "y:"].

(** [/<([^>]+)>/] *)
Definition angleEmailRegex : re :=
  seq [lit "<"; Group (Rep true 1 (noneOf ">")); lit ">"].

(** [/Co-[aA]uthored-[bB]y:([^<]+)</i] *)
Definition lineNameRegex : re :=
  seq [markerLineRegex; Group (Rep true 1 (noneOf "<")); lit "<"].

(** [/Co-Authored-By:\s*([^<]+)</i] *)
Definition sectionNameRegex : re :=
  seq [lit_i "Co-Authored-By:"; Rep true 0 space;
       Group (Rep true 1 (noneOf "<")); lit "<"].

(** The tail shared by the two sweep patterns:
    [[\s\n]+([^<\n]+?)[\s\n]*<([^>\n]+)>]. *)
Definition nameEmailTail : list re :=
  [Rep true 1 (union space (oneOf lf));
   Group (Rep false 1 (noneOf (String "<" lf)));
   Rep true 0 (union space (oneOf lf));
   lit "<";
   Group (Rep true 1 (noneOf (String ">" lf)));
   lit ">"].

(** [/co[\-\s]authored[\-\s]by:[\s\n]+([^<\n]+?)[\s\n]*<([^>\n]+)>/gi] *)
Definition standardPattern : re :=
  seq ([lit_i "co"; Chr (union (oneOf "-") space); lit_i "authored";
        Chr (union (oneOf "-") space); lit_i "by:"] ++ nameEmailTail).

(** [/co-author:[\s\n]+([^<\n]+?)[\s\n]*<([^>\n]+)>/gi] *)
Definition alternatePattern : re :=
  seq (lit_i "co-author:" :: nameEmailTail).

Definition patterns : list re := [standardPattern; alternatePattern].

(** [/\b([a-zA-Z0-9._%+-]+@[a-zA-Z0-9.-]+\.[a-zA-Z]{2,})\b/g] *)
Definition emailPattern : re :=
  seq [WordBoundary;
       Group (seq [Rep true 1 (union alnum (oneOf "._%+-"));
                   lit "@";
                   Rep true 1 (union alnum (oneOf ".-"));
                   lit ".";
                   Rep true 2 (union isLowerAZ isUpperAZ)]);
       WordBoundary].

(** [/Co-Authored-By:/i], the separator of the last scan. *)
Definition markerSplitRegex : re := lit_i "Co-Authored-By:".

(** [/^(.*?)</] *)
Definition leadingNameRegex : re :=
  seq [Bol; Group (Rep false 0 dot); lit "<"].

Definition hasMarker (message : string) : bool :=
  includes message "Co-Authored-By:" || includes message "Co-authored-by:" ||
  includes message "co-authored-by:" || includes message "CO-AUTHORED-BY:".

(** The e-mail between angle brackets of a line, section or part, with the
    name the given expression finds in front of it. *)
Definition bracketed (nameRegex : re) (src text : string) : list candidate :=
  match exec angleEmailRegex text with
  | Some emailMatch =>
      if truthy (group 1 emailMatch) then
        [{| name := match exec nameRegex text with
                    | Some nameMatch => trim (group 1 nameMatch)
                    | None => EmptyString
                    end;
            email := trim (group 1 emailMatch);
            source := src |}]
      else []
  | None => []
  end.

(** The lines of a message, as STEP 1 scans them. *)
Definition linesOf (message : string) : list string :=
  split LF (replaceAll crlf lf message).

(** STEP 1: line by line. *)
Definition step1 (message : string) : list candidate :=
  if hasMarker message then
    let lines := linesOf message in
    flat_map (fun l =>
                let line := trim l in
                if test markerLineRegex line
                then bracketed lineNameRegex "step1" line
                else []) lines
  else [].

(** The sections of [rawMessage] that start at the given marker positions,
    each running to the next position or to the end. *)
Fixpoint sections (rawMessage : string) (positions : list nat) : list string :=
  match positions with
  | [] => []
  | startPos :: rest =>
      let endPos := match rest with
                    | next :: _ => next
                    | [] => String.length rawMessage
                    end in
      substring startPos endPos rawMessage :: sections rawMessage rest
  end.

(** The "special case": several markers on one line. *)
Definition step2 (message : string) : list candidate :=
  if includes message "Co-Authored-By:" then
    let rawMessage := replaceAll lf " " (replaceAll crlf " " message) in
    flat_map (bracketed sectionNameRegex "step2")
             (sections rawMessage (positions rawMessage "Co-Authored-By:"))
  else [].

(** STEP 3: the sweep patterns over the whole message. *)
Definition step3 (message : string) : list candidate :=
  flat_map (fun pattern =>
              map (fun m => {| name := trim (group 1 m);
                               email := trim (group 2 m);
                               source := "step3" |})
                  (matchAll pattern message)) patterns.

(** STEP 4: every e-mail address of the message. *)
Definition step4 (message : string) : list candidate :=
  flat_map (fun m =>
              if truthy (group 1 m)
              then [{| name := EmptyString; email := group 1 m; source := "step4" |}]
              else [])
           (matchAll emailPattern message).

(** The "desperate approach": split at the markers. *)
Definition desperate (message : string) : list candidate :=
  let rawContent := replaceAll lf " " (replaceAll crlf " " message) in
  if includes rawContent "Co-Authored-By:" then
    let parts := tl (splitRe markerSplitRegex rawContent) in
    flat_map (bracketed leadingNameRegex "desperate") parts
  else [].

(** The closing filter: [uniqueEmails] is the set of lower-cased e-mails
    already kept; a candidate without e-mail is dropped. *)
Fixpoint uniqueBy (uniqueEmails : list string) (coauthors : list candidate)
  : list candidate :=
  match coauthors with
  | [] => []
  | author :: rest =>
      if negb (truthy (email author))
         || existsb (String.eqb (toLowerCase (email author))) uniqueEmails
      then uniqueBy uniqueEmails rest
      else author :: uniqueBy (toLowerCase (email author) :: uniqueEmails) rest
  end.

Definition coauthors (message : string) : list candidate :=
  step1 message ++ step2 message ++ step3 message ++ step4 message
  ++ desperate message.

(** A well-formed trailer line: the marker, the name, and the address in
    angle brackets. *)
Definition trailer (name address : string) : string :=
  "Co-Authored-By: " ++ name ++ " <" ++ address ++ ">".





(** The lower-cased e-mail of a candidate, the key of the closing filter. *)
Definition emailKey (c : candidate) : string := toLowerCase (email c).

(** [extractCoAuthors(message, repoName)]; [repoName] only labels the log. *)
Definition extractCoAuthors (message : string) : list candidate :=
  if negb (truthy message) then [] else uniqueBy [] (coauthors message).

End Extractor.

(* ------------------------------------------------------------------ *)
(** ** Username extraction ([extractUsername], scripts/collect-metrics.js) *)

Module Normalizer.
Import Js Regex.

(** [/^(\d+)\+(.+)@users\.noreply\.github\.com$/i] *)
Definition githubNoReplyRegex : re :=
  seq [Bol; Group (Rep true 1 digit); lit "+"; Group (Rep true 1 dot);
       lit_i "@users.noreply.github.com"; Eol].

(** The character class of a handle in a name, [[a-zA-Z0-9\-]]. *)
Definition handleChar : charset := union alnum (oneOf "-").

(** [/@([a-zA-Z0-9\-]+)/] *)
Definition mentionRegex : re :=
  seq [lit "@"; Group (Rep true 1 handleChar)].

(** [/^\d+$/] *)
Definition allDigitsRegex : re := seq [Bol; Rep true 1 digit; Eol].

(** The handle of the numeric-id no-reply form, [githubMatch[2]]. *)
Definition noReplyHandle (email : string) : option string :=
  match exec githubNoReplyRegex email with
  | Some githubMatch =>
      if truthy (group 2 githubMatch) then Some (group 2 githubMatch) else None
  | None => None
  end.

(** The e-mail belongs to one of the other first-party forms. *)
Definition githubDomain (email : string) : bool :=
  endsWith email "@github.com" || endsWith email "@users.github.com" ||
  (endsWith email "@users.noreply.github.com" && negb (includes email "+")).

(** The [@handle] of a display name, [usernameInName[1]]. *)
Definition mentionInName (name : string) : option string :=
  if truthy name then
    match exec mentionRegex name with
    | Some usernameInName =>
        if truthy (group 1 usernameInName) then Some (group 1 usernameInName) else None
    | None => None
    end
  else None.

(** The local part of the e-mail, when it is longer than two characters and
    not a number. *)
Definition emailLocalPart (email : string) : option string :=
  let emailUsername := firstPiece "@" email in
  if truthy emailUsername && (2 <? String.length emailUsername)%nat
     && negb (test allDigitsRegex emailUsername)
  then Some emailUsername else None.

Definition extractUsername (email name : string) : option string :=
  match noReplyHandle email with
  | Some handle => Some handle
  | None =>
      if githubDomain email then Some (firstPiece "@" email)
      else
        match mentionInName name with
        | Some handle => Some handle
        | None =>
            match emailLocalPart email with
            | Some emailUsername => Some emailUsername
            | None =>
                if truthy name
                then Some (stripNonAlnum (toLowerCase name))
                else None
            end
        end
  end.

End Normalizer.

(* ------------------------------------------------------------------ *)
(** ** Username from e-mail or name ([getUsernameFromEmail], the collector
    [collect-metrics.mjs] packed in [.github/workflows/main.yml]) *)

Module Workflow.
Import Js Regex Normalizer.

(** [/^[a-zA-Z0-9\-]+$/] *)
Definition handleShapeRegex : re := seq [Bol; Rep true 1 handleChar; Eol].

(** [/\(([a-zA-Z0-9\-]+)\)/] *)
Definition parenthesesRegex : re :=
  seq [lit "("; Group (Rep true 1 handleChar); lit ")"].

(** [/\s+/] *)
Definition whiteSpaceRegex : re := Rep true 1 space.

(** [x | 0]: the integer of 32 bits, two's complement, that [x] wraps to. *)
Definition toInt32 (x : Z) : Z := ((x + 2 ^ 31) mod 2 ^ 32 - 2 ^ 31)%Z.

(** [(((a << 5) - a) + b.charCodeAt(0)) | 0] *)
Definition hashStep (a : Z) (b : ascii) : Z :=
  toInt32 (toInt32 (Z.shiftl a 5) - a + Z.of_N (code b)).

(** [email.split('').reduce((a, b) => ..., 0)] *)
Definition emailHash (email : string) : Z :=
  fold_left hashStep (list_ascii_of_string email) 0%Z.

(** The decimal text of an integer that is not negative, as a template
    literal prints it. *)
Definition integerToString (z : Z) : string :=
  NilEmpty.string_of_uint (N.to_uint (Z.to_N z)).

(** "Last resort: use a placeholder with email hash". *)
Definition placeholder (email : string) : string :=
  "contributor-" ++ integerToString (Z.abs (emailHash email)).

(** "Try to extract from clear GitHub username mentions": [usernameMatch[1]]. *)
Definition mentionedHandle (name : string) : option string :=
  if includes name "@" then
    match exec mentionRegex name with
    | Some usernameMatch =>
        if truthy (group 1 usernameMatch) then Some (group 1 usernameMatch) else None
    | None => None
    end
  else None.

(** "Check for typical GitHub team member format": what stands between the
    first [+] of the e-mail and the [@] after it. *)
Definition plusPart (email : string) : option string :=
  if includes email "+" then
    let parts := split "+" email in
    if (1 <? List.length parts)%nat && includes (nth 1 parts EmptyString) "@" then
      let username := firstPiece "@" (nth 1 parts EmptyString) in
      if truthy username && (2 <? String.length username)%nat
      then Some username else None
    else None
  else None.

(** "Look for GitHub username in name (without @ symbol)". *)
Definition handleInName (name : string) : option string :=
  if truthy name then
    if test handleShapeRegex name && (2 <? String.length name)%nat
       && (String.length name <? 40)%nat
    then Some name
    else
      match exec parenthesesRegex name with
      | Some parenthesesMatch =>
          if truthy (group 1 parenthesesMatch)
          then Some (group 1 parenthesesMatch) else None
      | None => None
      end
  else None.

(** "Use cleaned name as fallback". *)
Definition cleanedName (name : string) : option string :=
  if truthy name then
    let firstWord := hd EmptyString (splitRe whiteSpaceRegex name) in
    if truthy firstWord && (2 <? String.length firstWord)%nat
    then Some (stripNonAlnum (toLowerCase firstWord))
    else Some (stripNonAlnum (toLowerCase name))
  else None.

(** [getUsernameFromEmail(email, name)]; an argument that is [null] or
    [undefined] is the empty string, as [email || ''] makes it. *)
Definition getUsernameFromEmail (email name : string) : option string :=
  if negb (truthy email) && negb (truthy name) then None
  else
    match mentionedHandle name with
    | Some handle => Some handle
    | None =>
    match noReplyHandle email with
    | Some handle => Some handle
    | None =>
    match plusPart email with
    | Some username => Some username
    | None =>
    if endsWith email "@github.com" then Some (firstPiece "@" email)
    else if endsWith email "@users.github.com"
            || (endsWith email "@users.noreply.github.com" && negb (includes email "+"))
    then Some (firstPiece "@" email)
    else
    match handleInName name with
    | Some handle => Some handle
    | None =>
    match emailLocalPart email with
    | Some emailUsername => Some emailUsername
    | None =>
    match cleanedName name with
    | Some cleaned => Some cleaned
    | None => if truthy email then Some (placeholder email) else None
    end
    end
    end
    end
    end
    end.


End Workflow.

(* ------------------------------------------------------------------ *)
(** ** The contributor registry ([contributorsMap], enhanced collector) *)

Module Registry.
Import Js.

(** How a set of duplicates was found. *)
Inductive dupType := email_type | github_login_type | similar_name_type.

Record alias := {
  alias_login : string;
  alias_type : dupType;
  alias_contributions : Z;
  alias_repositories : list string
}.

(** The object stored for a contributor. *)
Record contributor := {
  login : string;
  email : option string;
  avatar_url : option string;
  html_url : option string;
  contributions : Z;
  lines_contributed : Z;
  repositories : list string;
  github_login : option string;
  pending_github_lookup : bool;
  matched_by_email : option bool;
  matched_by_name : option bool;
  aliases : option (list alias)
}.

(** [contributorsMap]: keys in insertion order. *)
Definition registry := list (string * contributor).

Fixpoint get (k : string) (m : registry) : option contributor :=
  match m with
  | [] => None
  | (k', d) :: m' => if k' =? k then Some d else get k m'
  end.

Definition has (k : string) (m : registry) : bool :=
  match get k m with Some _ => true | None => false end.

(** A mutation of the object stored at [k]. *)
Fixpoint update (k : string) (f : contributor -> contributor) (m : registry) : registry :=
  match m with
  | [] => []
  | (k', d) :: m' => if k' =? k then (k', f d) :: m' else (k', d) :: update k f m'
  end.

(** [contributorsMap.set(k, d)]. *)
Definition set (k : string) (d : contributor) (m : registry) : registry :=
  if has k m then update k (fun _ => d) m else m ++ [(k, d)].

(** [contributorsMap.delete(k)]. *)
Fixpoint delete (k : string) (m : registry) : registry :=
  match m with
  | [] => []
  | (k', d) :: m' => if k' =? k then m' else (k', d) :: delete k m'
  end.

Definition size (m : registry) : nat := List.length m.

Definition keys (m : registry) : list string := map fst m.

(** [set.has(x)] and [set.add(x)] on a set of strings. *)
Definition setHas (x : string) (s : list string) : bool := existsb (String.eqb x) s.
Definition setAdd (x : string) (s : list string) : list string :=
  if setHas x s then s else s ++ [x].

(** [d.contributions += delta; d.repositories.add(repo)]. *)
Definition credit (delta : Z) (repo : string) (d : contributor) : contributor :=
  {| login := login d;
     email := email d;
     avatar_url := avatar_url d;
     html_url := html_url d;
     contributions := (contributions d + delta)%Z;
     lines_contributed := lines_contributed d;
     repositories := setAdd repo (repositories d);
     github_login := github_login d;
     pending_github_lookup := pending_github_lookup d;
     matched_by_email := matched_by_email d;
     matched_by_name := matched_by_name d;
     aliases := aliases d |}.

(** What the upstream API reports. *)
Record apiUser := {
  user_login : string;
  user_avatar_url : option string;
  user_html_url : option string
}.

Record apiContributor := {
  contributor_user : apiUser;
  contributor_contributions : Z
}.

Record apiCommit := {
  sha : string;
  message : string;
  author : option apiUser
}.

Record apiRepo := {
  repo_name : string;
  repo_contributors : list apiContributor;
  repo_commits : list apiCommit
}.

(** The record of a login seen for the first time, before it is credited. *)
Definition freshDirect (u : apiUser) : contributor :=
  {| login := user_login u;
     email := None;
     avatar_url := user_avatar_url u;
     html_url := user_html_url u;
     contributions := 0;
     lines_contributed := 0;
     repositories := [];
     github_login := None;
     pending_github_lookup := false;
     matched_by_email := None;
     matched_by_name := None;
     aliases := None |}.

(** The keyed upsert of the contributor listing and of the commit authors:
    create the record when the lower-cased login is new, then credit it. *)
Definition upsertLogin (repoName : string) (u : apiUser) (delta : Z) (m : registry)
  : registry :=
  if negb (truthy (user_login u)) then m
  else
    let normalizedLogin := toLowerCase (user_login u) in
    let m1 := if negb (has normalizedLogin m)
              then set normalizedLogin (freshDirect u) m else m in
    update normalizedLogin (credit delta repoName) m1.

(** "Process each contributor". *)
Definition processContributor (repoName : string) (m : registry) (c : apiContributor)
  : registry :=
  upsertLogin repoName (contributor_user c) (contributor_contributions c) m.

(** "Process commit authors (direct contributors)". *)
Definition processCommitAuthor (repoName : string) (m : registry) (c : apiCommit)
  : registry :=
  match author c with
  | Some u => upsertLogin repoName u 1 m
  | None => m
  end.

(** "First check if we already have this person by email": the first key, in
    insertion order, whose stored e-mail is the normalised one. *)
Fixpoint findByEmail (normalizedEmail : string) (m : registry) : option string :=
  match m with
  | [] => None
  | (k, d) :: m' =>
      match email d with
      | Some e =>
          if truthy e && (toLowerCase e =? normalizedEmail) then Some k
          else findByEmail normalizedEmail m'
      | None => findByEmail normalizedEmail m'
      end
  end.

(** The name of the co-author, or the local part of the e-mail when the name
    is blank, with "spaces and special characters" removed. *)
Definition cleanUsername (name email : string) : string :=
  let username := if negb (truthy name) || (trim name =? "")
                  then firstPiece "@" email else name in
  stripNonAlnum (toLowerCase (trim username)).

(** "Generate a unique username for this co-author": the cleaned name, or the
    placeholder when it has fewer than two characters. *)
Definition coAuthorUsername (name email : string) (m : registry) : string :=
  let username := cleanUsername name email in
  if (String.length username <? 2)%nat
  then ("contributor-" ++ numberToString (size m + 1))%string
  else username.

(** "Check if we already have this username": the loop
    [while (contributorsMap.has(finalUsername)) finalUsername = `${username}-${counter++}`],
    which leaves after at most [size m] rounds. *)
Fixpoint uniqueUsername (rounds : nat) (m : registry) (username finalUsername : string)
    (counter : nat) : string :=
  match rounds with
  | O => finalUsername
  | S n =>
      if has finalUsername m
      then uniqueUsername n m username
             (username ++ "-" ++ numberToString counter)%string (S counter)
      else finalUsername
  end.

(** The [j]-th name the loop tries. *)
Definition candidateAt (username : string) (j : nat) : string :=
  match j with
  | O => username
  | S _ => (username ++ "-" ++ numberToString j)%string
  end.

Definition finalUsername (name email : string) (m : registry) : string :=
  let username := coAuthorUsername name email m in
  uniqueUsername (size m) m username username 1.

Definition freshCoAuthor (finalUsername repoName name email : string) : contributor :=
  {| login := if truthy name then name else firstPiece "@" email;
     email := Some email;
     avatar_url := Some ("https://github.com/identicons/" ++ finalUsername ++ ".png")%string;
     html_url := Some ("mailto:" ++ email)%string;
     contributions := 1;
     lines_contributed := 0;
     repositories := [repoName];
     github_login := None;
     pending_github_lookup := true;
     matched_by_email := None;
     matched_by_name := None;
     aliases := None |}.

(** The upsert of one extracted co-author. *)
Definition processCoAuthor (repoName : string) (m : registry) (c : Extractor.candidate)
  : registry :=
  let name := Extractor.name c in
  let email := Extractor.email c in
  let normalizedEmail := toLowerCase email in
  match findByEmail normalizedEmail m with
  | Some login => update login (credit 1 repoName) m
  | None =>
      let key := finalUsername name email m in
      set key (freshCoAuthor key repoName name email) m
  end.

(** One commit: skipped without a message, else its author and then the
    co-authors of its message. *)
Definition processCommit (repoName : string) (m : registry) (c : apiCommit) : registry :=
  if negb (truthy (message c)) then m
  else
    fold_left (processCoAuthor repoName)
              (Extractor.extractCoAuthors (message c))
              (processCommitAuthor repoName m c).

(** One repository: its contributor listing, then its commits. *)
Definition processRepo (m : registry) (repo : apiRepo) : registry :=
  fold_left (processCommit (repo_name repo)) (repo_commits repo)
            (fold_left (processContributor (repo_name repo)) (repo_contributors repo) m).

(** The scan, in processing order. *)
Definition scan (repos : list apiRepo) : registry := fold_left processRepo repos [].

(** A user found by the e-mail lookup. *)
Record githubUser := {
  gh_login : string;
  gh_avatar_url : option string;
  gh_html_url : option string
}.

Fixpoint lookup (k : string) (found : list (string * githubUser)) : option githubUser :=
  match found with
  | [] => None
  | (k', u) :: rest => if k' =? k then Some u else lookup k rest
  end.

(** "Update contributors with GitHub info if we found matching users". *)
Definition resolveOne (emailToGitHubUser : list (string * githubUser)) (d : contributor)
  : contributor :=
  match email d with
  | Some e =>
      if truthy e && pending_github_lookup d then
        match lookup (toLowerCase e) emailToGitHubUser with
        | Some githubUser =>
            {| login := login d;
               email := email d;
               avatar_url := gh_avatar_url githubUser;
               html_url := gh_html_url githubUser;
               contributions := contributions d;
               lines_contributed := lines_contributed d;
               repositories := repositories d;
               github_login := Some (gh_login githubUser);
               pending_github_lookup := false;
               matched_by_email := Some true;
               matched_by_name := matched_by_name d;
               aliases := aliases d |}
        | None => d
        end
      else d
  | None => d
  end.

Definition resolve (emailToGitHubUser : list (string * githubUser)) (m : registry)
  : registry :=
  map (fun kd => (fst kd, resolveOne emailToGitHubUser (snd kd))) m.

(** The sum of the contribution counts of the live records. *)
Definition total (m : registry) : Z :=
  fold_right (fun kd acc => (contributions (snd kd) + acc)%Z) 0%Z m.

End Registry.

(* ------------------------------------------------------------------ *)
(** ** JavaScript numbers (binary64) *)

Module Num.

Definition prec : Z := 53.
Definition emax : Z := 1024.

Definition num := spec_float.

(** The number an integer literal or an integer count denotes. *)
Definition ofZ (n : Z) : num := binary_normalize prec emax n 0 false.

Definition add : num -> num -> num := SFadd prec emax.
Definition mul : num -> num -> num := SFmul prec emax.

(** The literal [0.1]: the binary64 number nearest to one tenth. *)
Definition tenth : num := SFdiv prec emax (ofZ 1) (ofZ 10).

Definition isNaN (x : num) : bool :=
  match x with S754_nan => true | _ => false end.

(** [x < y] and [x <= y] on numbers. *)
Definition ltb (x y : num) : bool := SFltb x y.
Definition leb (x y : num) : bool := SFleb x y.

End Num.

(* ------------------------------------------------------------------ *)
(** ** Deduplication ("Enhanced deduplication to handle various cases") *)

Module Dedup.
Import Js Registry.

Record duplicateSet := {
  type : dupType;
  key : string;
  logins : list string
}.

(** A [Map] from a string to the array of logins pushed under it. *)
Definition groups := list (string * list string).

(** [if (!g.has(k)) g.set(k, []); g.get(k).push(login)]. *)
Fixpoint pushTo (k login : string) (g : groups) : groups :=
  match g with
  | [] => [(k, [login])]
  | (k', ls) :: g' =>
      if k' =? k then (k', ls ++ [login]) :: g' else (k', ls) :: pushTo k login g'
  end.

(** Step 1: "build a map of emails to logins". *)
Definition loginMap (m : registry) : groups :=
  fold_left (fun acc kd =>
               match email (snd kd) with
               | Some e => if truthy e then pushTo (toLowerCase e) (fst kd) acc else acc
               | None => acc
               end) m [].

(** Step 2: "build a map of GitHub usernames to logins". *)
Definition githubUserMap (m : registry) : groups :=
  fold_left (fun acc kd =>
               match github_login (snd kd) with
               | Some g => if truthy g then pushTo (toLowerCase g) (fst kd) acc else acc
               | None => acc
               end) m [].

(** The entries with more than one login, as duplicate sets. *)
Definition duplicatesOf (t : dupType) (g : groups) : list duplicateSet :=
  flat_map (fun kl =>
              if (1 <? List.length (snd kl))%nat
              then [{| type := t; key := fst kl; logins := snd kl |}]
              else []) g.

(** "Normalize a name for comparison". *)
Definition normalizeName (name : string) : string :=
  trim (stripNonAlnum (toLowerCase name)).

Definition possibleNames (login : string) (data : contributor) : list string :=
  [normalizeName login]
  ++ (if truthy (Registry.login data) then [normalizeName (Registry.login data)] else [])
  ++ (match github_login data with
      | Some g => if truthy g then [normalizeName g] else []
      | None => []
      end)
  ++ (match email data with
      | Some e =>
          if truthy e && includes e "@"
          then [normalizeName (firstPiece "@" e)] else []
      | None => []
      end).

(** [[...new Set(names)]]. *)
Fixpoint uniqueStrings (seen names : list string) : list string :=
  match names with
  | [] => []
  | n :: rest =>
      if setHas n seen then uniqueStrings seen rest
      else n :: uniqueStrings (n :: seen) rest
  end.

(** Step 3: "map normalized names to logins", names of at most two
    characters skipped. *)
Definition nameMap (m : registry) : groups :=
  fold_left (fun acc kd =>
               fold_left (fun acc name =>
                            if (2 <? String.length name)%nat
                            then pushTo name (fst kd) acc else acc)
                         (uniqueStrings [] (possibleNames (fst kd) (snd kd))) acc)
            m [].

(** [dup.logins.length === logins.length && dup.logins.every(l => logins.includes(l))] *)
Definition sameLogins (ls : list string) (dup : duplicateSet) : bool :=
  (List.length (logins dup) =? List.length ls)%nat
  && forallb (fun l => setHas l ls) (logins dup).

(** "Find similar names": "only add if not already found". *)
Definition addSimilar (duplicates : list duplicateSet) (kl : string * list string)
  : list duplicateSet :=
  if (1 <? List.length (snd kl))%nat then
    if existsb (sameLogins (snd kl)) duplicates then duplicates
    else duplicates ++ [{| type := similar_name_type; key := fst kl; logins := snd kl |}]
  else duplicates.

Definition findDuplicates (m : registry) : list duplicateSet :=
  fold_left addSimilar (nameMap m)
            (duplicatesOf email_type (loginMap m)
             ++ duplicatesOf github_login_type (githubUserMap m)).

(** "Score each login to find the best one to keep". *)
Definition score (login : string) (data : contributor) : Num.num :=
  let score := Num.ofZ 0 in
  let score := Num.add score (Num.mul (Num.ofZ (contributions data)) Num.tenth) in
  let score := if truthyOpt (github_login data)
               then Num.add score (Num.ofZ 100) else score in
  let score := match github_login data with
               | Some g => if truthy g && (toLowerCase login =? toLowerCase g)
                           then Num.add score (Num.ofZ 50) else score
               | None => score
               end in
  let score := match avatar_url data with
               | Some a => if truthy a && includes a "github"
                           then Num.add score (Num.ofZ 30) else score
               | None => score
               end in
  let score := if negb (includes login "contributor-")
               then Num.add score (Num.ofZ 20) else score in
  let score := if negb (includes login " ")
               then Num.add score (Num.ofZ 5) else score in
  score.

(** The conditions of the score and the terms they add. *)
Definition hasGithubLogin (data : contributor) : bool := truthyOpt (github_login data).
Definition loginIsGithubLogin (login : string) (data : contributor) : bool :=
  match github_login data with
  | Some g => truthy g && (toLowerCase login =? toLowerCase g)
  | None => false
  end.
Definition hasGithubAvatar (data : contributor) : bool :=
  match avatar_url data with
  | Some a => truthy a && includes a "github"
  | None => false
  end.
Definition notPlaceholder (login : string) : bool := negb (includes login "contributor-").
Definition noSpace (login : string) : bool := negb (includes login " ").

(** [if (b) score += k]. *)
Definition bonus (b : bool) (k : Z) (score : Num.num) : Num.num :=
  if b then Num.add score (Num.ofZ k) else score.

(** The sign of [b.score - a.score], the value of the comparison function
    [(a, b) => b.score - a.score]: the difference of two numbers is negative,
    zero or positive as the numbers compare (and [NaN], which sorts as zero,
    where they do not compare). *)
Definition compareFn (a b : string * Num.num) : comparison :=
  match SFcompare (snd b) (snd a) with
  | Some c => c
  | None => Eq
  end.

(** [Array.prototype.sort]: stable; [a] goes after [b] only when the
    comparison function is positive on [(a, b)]. *)
Fixpoint insertSorted {A : Type} (cmp : A -> A -> comparison) (a : A) (l : list A) : list A :=
  match l with
  | [] => [a]
  | b :: l' =>
      match cmp a b with
      | Gt => b :: insertSorted cmp a l'
      | _ => a :: l
      end
  end.

Fixpoint sort {A : Type} (cmp : A -> A -> comparison) (l : list A) : list A :=
  match l with
  | [] => []
  | a :: l' => insertSorted cmp a (sort cmp l')
  end.

(** The live, not yet merged logins of a set, each with its record. *)
Definition validEntries (m : registry) (mergedLogins ls : list string)
  : list (string * contributor) :=
  flat_map (fun l =>
              match get l m with
              | Some data => if setHas l mergedLogins then [] else [(l, data)]
              | None => []
              end) ls.

Definition loginScores (entries : list (string * contributor)) : list (string * Num.num) :=
  sort compareFn (map (fun ld => (fst ld, score (fst ld) (snd ld))) entries).

(** [loginScores[0].login]. *)
Definition primaryOf (entries : list (string * contributor)) : option string :=
  match loginScores entries with
  | [] => None
  | (l, _) :: _ => Some l
  end.

(** [if (!primaryData.aliases) primaryData.aliases = []]. *)
Definition initAliases (d : contributor) : contributor :=
  {| login := login d;
     email := email d;
     avatar_url := avatar_url d;
     html_url := html_url d;
     contributions := contributions d;
     lines_contributed := lines_contributed d;
     repositories := repositories d;
     github_login := github_login d;
     pending_github_lookup := pending_github_lookup d;
     matched_by_email := matched_by_email d;
     matched_by_name := matched_by_name d;
     aliases := Some (match aliases d with Some a => a | None => [] end) |}.

Definition isGithubContent (a : option string) : bool :=
  match a with
  | Some u => truthy u && includes u "githubusercontent.com"
  | None => false
  end.

(** The body of "Merge data from other logins" on the primary record. *)
Definition absorb (t : dupType) (login : string) (data primaryData : contributor)
  : contributor :=
  let adopt := truthyOpt (github_login data) && negb (truthyOpt (github_login primaryData)) in
  let avatar := if adopt then avatar_url data else avatar_url primaryData in
  {| login := Registry.login primaryData;
     email := email primaryData;
     avatar_url := if isGithubContent (avatar_url data) && negb (isGithubContent avatar)
                   then avatar_url data else avatar;
     html_url := if adopt then html_url data else html_url primaryData;
     contributions := (contributions primaryData + contributions data)%Z;
     lines_contributed := lines_contributed primaryData;
     repositories := fold_left (fun s r => setAdd r s) (repositories data)
                               (repositories primaryData);
     github_login := if adopt then github_login data else github_login primaryData;
     pending_github_lookup := pending_github_lookup primaryData;
     matched_by_email := if adopt
                         then Some (match t with email_type => true | _ => false end)
                         else matched_by_email primaryData;
     matched_by_name := if adopt
                        then Some (match t with similar_name_type => true | _ => false end)
                        else matched_by_name primaryData;
     aliases := Some ((match aliases primaryData with Some a => a | None => [] end)
                      ++ [{| alias_login := login;
                             alias_type := t;
                             alias_contributions := contributions data;
                             alias_repositories := Registry.repositories data |}]) |}.

(** The entry an absorbed record leaves in the [aliases] of the primary. *)
Definition asAlias (t : dupType) (ld : string * contributor) : alias :=
  {| alias_login := fst ld;
     alias_type := t;
     alias_contributions := contributions (snd ld);
     alias_repositories := repositories (snd ld) |}.

Definition aliasesOf (d : contributor) : list alias :=
  match aliases d with Some a => a | None => [] end.

(** The contributions of a list of records. *)
Definition sumContributions (l : list (string * contributor)) : Z := total l.

(** The logins of [ls] other than the primary, with the records the registry
    holds for them. *)
Definition others (m : registry) (primaryLogin : string) (ls : list string)
  : list (string * contributor) :=
  flat_map (fun l =>
              if l =? primaryLogin then []
              else match get l m with Some d => [(l, d)] | None => [] end) ls.

(** The state of the merge loop: the registry and [mergedLogins]; [None] once
    a statement has thrown. *)
Definition mergeState := option (registry * list string).

(** One round of "Merge data from other logins": [contributorsMap.get(login)]
    of a login that is gone is [undefined], and reading its contributions
    throws. *)
Definition absorbLogin (t : dupType) (primaryLogin : string) (st : mergeState)
    (login : string) : mergeState :=
  match st with
  | None => None
  | Some (m, mergedLogins) =>
      if login =? primaryLogin then st
      else
        match get login m with
        | None => None
        | Some data =>
            Some (delete login (update primaryLogin (absorb t login data) m),
                  setAdd login mergedLogins)
        end
  end.

(** One duplicate set of "Merge duplicates with improved logic". *)
Definition mergeSet (st : mergeState) (dup : duplicateSet) : mergeState :=
  match st with
  | None => None
  | Some (m, mergedLogins) =>
      if forallb (fun l => setHas l mergedLogins || negb (has l m)) (logins dup)
      then st
      else
        let entries := validEntries m mergedLogins (logins dup) in
        if (List.length entries <=? 1)%nat then st
        else
          match primaryOf entries with
          | None => st
          | Some primaryLogin =>
              fold_left (absorbLogin (type dup) primaryLogin) (map fst entries)
                        (Some (update primaryLogin initAliases m, mergedLogins))
          end
  end.

Definition mergeDuplicates (duplicates : list duplicateSet) (m : registry) : mergeState :=
  fold_left mergeSet duplicates (Some (m, [])).

(** The whole pass over the registry. *)
Definition deduplicate (m : registry) : mergeState :=
  mergeDuplicates (findDuplicates m) m.

(** Invariants of the maps of the discovery, for a registry whose keys in
    [seen] have been visited. *)

(** Every array of [g] is duplicate-free and within [seen]. *)
Definition groupsOk (seen : list string) (g : groups) : Prop :=
  forall k ls, In (k, ls) g -> NoDup ls /\ incl ls seen.

(** The same while [login] is being pushed under the names [done]. *)
Definition groupsPushing (seen : list string) (login : string) (done : list string)
    (g : groups) : Prop :=
  forall k ls,
    In (k, ls) g ->
    NoDup ls /\ forall l, In l ls -> In l seen \/ (l = login /\ In k done).

(** No login occurs twice in an array of [g]. *)
Definition groupsNoDup (g : groups) : Prop := forall k ls, In (k, ls) g -> NoDup ls.

End Dedup.

(* ------------------------------------------------------------------ *)
(** ** The run over the repositories *)

Module Pipeline.
Import Js Registry.

(** A repository of the listing: its data, and whether [pushed_at] falls in
    the last thirty days when the run starts. *)
Record listedRepo := {
  data : apiRepo;
  recentlyPushed : bool
}.

Definition isPrimary (r : listedRepo) : bool :=
  (repo_name (data r) =? "OmniCloud-Full") || recentlyPushed r.

(** "Process repos in order: primary first, then others". *)
Definition allReposInProcessOrder (allRepos : list listedRepo) : list listedRepo :=
  let primaryRepos := filter isPrimary allRepos in
  let remainingRepos :=
    filter (fun repo =>
              negb (existsb (fun p => repo_name (data p) =? repo_name (data repo))
                            primaryRepos)) allRepos in
  primaryRepos ++ remainingRepos.

(** The registry at the end of the run: scan, e-mail resolution with the
    users the lookup found, deduplication. *)
Definition contributorsOf (repos : list apiRepo)
    (emailToGitHubUser : list (string * githubUser)) : Dedup.mergeState :=
  Dedup.deduplicate (resolve emailToGitHubUser (scan repos)).

Definition collectContributors (allRepos : list listedRepo)
    (emailToGitHubUser : list (string * githubUser)) : Dedup.mergeState :=
  contributorsOf (map data (allReposInProcessOrder allRepos)) emailToGitHubUser.

(** The aggregates of the registry: per key, the contributions and the
    repositories. *)
Definition aggregates (m : registry) : list (string * Z * list string) :=
  map (fun kd => (fst kd, contributions (snd kd), repositories (snd kd))) m.

Definition contributionsOf (k : string) (m : registry) : Z :=
  match get k m with Some d => contributions d | None => 0%Z end.

Definition repositoriesOf (k : string) (m : registry) : list string :=
  match get k m with Some d => repositories d | None => [] end.

(** No commit of the repository names a co-author. *)
Definition noCoAuthors (repo : apiRepo) : Prop :=
  forall c, In c (repo_commits repo) -> Extractor.extractCoAuthors (message c) = [].

(** A keyed upsert of the scan: the repository, the user and the count. *)
Definition event : Type := string * apiUser * Z.

Definition applyEvent (m : registry) (ev : event) : registry :=
  let '(repoName, u, delta) := ev in upsertLogin repoName u delta m.

(** The upserts a repository without co-authors makes, in order. *)
Definition repoEvents (repo : apiRepo) : list event :=
  map (fun c => (repo_name repo, contributor_user c, contributor_contributions c))
      (repo_contributors repo)
  ++ flat_map (fun c =>
                 if truthy (message c) then
                   match author c with
                   | Some u => [(repo_name repo, u, 1%Z)]
                   | None => []
                   end
                 else [])
              (repo_commits repo).

(** The event credits the key [k]. *)
Definition credits (k : string) (ev : event) : bool :=
  let '(_, u, _) := ev in truthy (user_login u) && (toLowerCase (user_login u) =? k).

Definition creditTo (k : string) (ev : event) : Z :=
  if credits k ev then snd ev else 0%Z.

End Pipeline.

(* ------------------------------------------------------------------ *)
(** ** The metrics history ([updateHistory] and the history update of the
    enhanced collector) *)

Module History.

(** A value [JSON.parse] returns. *)
#[local] Unset Elimination Schemes.
Inductive json :=
| JNull
| JBool (b : bool)
| JNum (n : Z)
| JStr (s : string)
| JArr (items : list json)
| JObj (fields : list (string * json)).
#[local] Set Elimination Schemes.

(** The history file before the update. *)
Inductive historyFile :=
| Missing                    (* [fs.existsSync] is false *)
| Unparseable                (* reading or [JSON.parse] throws *)
| Parsed (v : json).

Record metrics := {
  timestamp : string;
  stats_repositories : Z;
  stats_stars : Z;
  stats_forks : Z;
  stats_contributors_total : Z;
  stats_totalCommits : Z;
  stats_linesOfCode : Z
}.

Definition historicalEntry (currentMetrics : metrics) : json :=
  JObj [("timestamp", JStr (timestamp currentMetrics));
        ("repositories", JNum (stats_repositories currentMetrics));
        ("stars", JNum (stats_stars currentMetrics));
        ("forks", JNum (stats_forks currentMetrics));
        ("contributors", JNum (stats_contributors_total currentMetrics));
        ("commits", JNum (stats_totalCommits currentMetrics));
        ("linesOfCode", JNum (stats_linesOfCode currentMetrics))].

(** [array.slice(start)]: a negative [start] counts from the end. *)
Definition slice {A : Type} (start : Z) (l : list A) : list A :=
  let len := Z.of_nat (List.length l) in
  let k := if (start <? 0)%Z then Z.max (len + start) 0 else Z.min start len in
  skipn (Z.to_nat k) l.

(** The outcome of the update: the array written to the history file, or the
    [TypeError] of [history.push] on a value that is not an array. *)
Inductive outcome :=
| Written (history : list json)
| Thrown.

(** "Load existing history if available". *)
Definition loadHistory (file : historyFile) : json :=
  match file with
  | Parsed v => v
  | Missing | Unparseable => JArr []
  end.

(** [updateHistory(currentMetrics)] of scripts/collect-metrics.js. *)
Definition updateHistory (file : historyFile) (currentMetrics : metrics) : outcome :=
  match loadHistory file with
  | JArr history =>
      let history := history ++ [historicalEntry currentMetrics] in
      let history :=
        if (100 <? List.length history)%nat
        then slice (Z.of_nat (List.length history) - 100) history
        else history in
      Written history
  | _ => Thrown
  end.

(** "Update history" of the enhanced collector. *)
Definition updateHistoryEnhanced (file : historyFile) (currentMetrics : metrics) : outcome :=
  match loadHistory file with
  | JArr history =>
      let history := history ++ [historicalEntry currentMetrics] in
      let history :=
        if (100 <? List.length history)%nat
        then slice (-100) history
        else history in
      Written history
  | _ => Thrown
  end.

(** The array the history file holds, an absent or unreadable file counting
    as the empty history. *)
Definition storedHistory (file : historyFile) : option (list json) :=
  match loadHistory file with
  | JArr history => Some history
  | _ => None
  end.

End History.

(* ------------------------------------------------------------------ *)
(** ** Properties of texts and of the inputs of an expression *)

Module Matching.
Import Js Regex.

(** The text has no character [c]. *)
Definition lacks (c : ascii) (s : string) : bool :=
  allChars (fun x => negb (Ascii.eqb c x)) s.

(** A property of the input that stays true when a character is put in
    front of it. *)
Definition upward (P : string -> Prop) : Prop := forall c s, P s -> P (String c s).

(** [a] is [w] up to the case of its letters. *)
Fixpoint sameCi (w a : string) : bool :=
  match w, a with
  | EmptyString, EmptyString => true
  | String c w', String x a' => ci (Ascii.eqb c) x && sameCi w' a'
  | _, _ => false
  end.

(** The input ends with [w], up to case. *)
Definition endsWithCi (w s : string) : Prop :=
  exists a b, s = (a ++ b)%string /\ sameCi w b = true.

End Matching.

(* ------------------------------------------------------------------ *)
(** ** What a scan credits *)

Module Accounting.
Import Js Registry.

(** What the contributor listing of a repository adds: an entry without login
    is skipped. *)
Definition listingCredit (c : apiContributor) : Z :=
  if truthy (user_login (contributor_user c)) then contributor_contributions c else 0%Z.

(** What a commit adds: one for its author, when the API names one, and one
    for every co-author extracted from its message. *)
Definition commitCredit (c : apiCommit) : Z :=
  if truthy (message c) then
    ((match author c with
      | Some u => if truthy (user_login u) then 1 else 0
      | None => 0
      end) + Z.of_nat (List.length (Extractor.extractCoAuthors (message c))))%Z
  else 0%Z.

Definition sumOf {A : Type} (f : A -> Z) (l : list A) : Z :=
  fold_right (fun x acc => (f x + acc)%Z) 0%Z l.

Definition repoCredit (repo : apiRepo) : Z :=
  (sumOf listingCredit (repo_contributors repo) + sumOf commitCredit (repo_commits repo))%Z.

End Accounting.

(* ------------------------------------------------------------------ *)
(** ** Successive runs and the history file *)

Module Runs.
Import History.

(** The history file a run leaves behind: the array written, or the file as
    it was when the update threw. *)
Definition fileAfter (file : historyFile) (o : outcome) : historyFile :=
  match o with
  | Written history => Parsed (JArr history)
  | Thrown => file
  end.

(** Successive history updates, each on the file the update before it left
    and with the metrics of its run: the history file after runs of a
    collector that reach their history update. *)
Definition runs (update : historyFile -> metrics -> outcome) (file : historyFile)
    (collected : list metrics) : historyFile :=
  fold_left (fun f m => fileAfter f (update f m)) collected file.

(** The last [n] elements of a list. *)
Definition lastN {A : Type} (n : nat) (l : list A) : list A :=
  skipn (List.length l - n) l.

End Runs.

(* ------------------------------------------------------------------ *)
(** ** A [Map] with string keys, for any type of values *)

Module JsMap.
Section Operations.
Context {V : Type}.

Fixpoint get (k : string) (m : list (string * V)) : option V :=
  match m with
  | [] => None
  | (k', v) :: m' => if k' =? k then Some v else get k m'
  end.

Definition has (k : string) (m : list (string * V)) : bool :=
  match get k m with Some _ => true | None => false end.

(** A mutation of the object stored at [k]. *)
Fixpoint update (k : string) (f : V -> V) (m : list (string * V)) : list (string * V) :=
  match m with
  | [] => []
  | (k', v) :: m' => if k' =? k then (k', f v) :: m' else (k', v) :: update k f m'
  end.

Definition set (k : string) (v : V) (m : list (string * V)) : list (string * V) :=
  if has k m then update k (fun _ => v) m else m ++ [(k, v)].

End Operations.
End JsMap.

(* ------------------------------------------------------------------ *)
(** ** Contributor metrics of scripts/collect-metrics.js
    ([getContributorMetrics], [findCoAuthors]) *)

Module Legacy.
Import Js Regex JsMap.

(** The object stored for a contributor. *)
Record contributor := {
  login : string;
  avatar_url : option string;
  html_url : option string;
  contributions : Z;
  repositories : list string
}.

Definition contributorsMap := list (string * contributor).

(** A repository of the listing. *)
Record repo := {
  name : string;
  fork : bool
}.

(** The requests of the script; [None] when the request throws. *)
Record api := {
  listContributors : string -> option (list Registry.apiContributor);
  listCommits : string -> option (list Registry.apiCommit);
  getByUsername : string -> option Registry.apiUser
}.

(** [if (!repositories.includes(repo)) repositories.push(repo)]. *)
Definition pushNew (repo : string) (repositories : list string) : list string :=
  if existsb (String.eqb repo) repositories then repositories else repositories ++ [repo].

(** "Update existing contributor". *)
Definition credit (delta : Z) (repo : string) (existing : contributor) : contributor :=
  {| login := login existing;
     avatar_url := avatar_url existing;
     html_url := html_url existing;
     contributions := (contributions existing + delta)%Z;
     repositories := pushNew repo (repositories existing) |}.

(** "Process each contributor". *)
Definition processContributor (repoName : string) (m : contributorsMap)
    (c : Registry.apiContributor) : contributorsMap :=
  let u := Registry.contributor_user c in
  if negb (truthy (Registry.user_login u)) then m
  else
    let normalizedLogin := toLowerCase (Registry.user_login u) in
    if has normalizedLogin m
    then update normalizedLogin (credit (Registry.contributor_contributions c) repoName) m
    else set normalizedLogin
           {| login := Registry.user_login u;
              avatar_url := Registry.user_avatar_url u;
              html_url := Registry.user_html_url u;
              contributions := Registry.contributor_contributions c;
              repositories := [repoName] |} m.

(** The two expressions of [findCoAuthors]; they are the sweep patterns of
    the enhanced collector. *)
Definition coAuthorRegex : re := Extractor.standardPattern.
Definition alternateRegex : re := Extractor.alternatePattern.

Definition allMatches (message : string) : list matchResult :=
  matchAll coAuthorRegex message ++ matchAll alternateRegex message.

(** The login shown for a co-author: the one the user request returns, when
    it succeeds and returns one. *)
Definition displayLogin (a : api) (username : string) : string :=
  match getByUsername a username with
  | Some user =>
      if truthy (Registry.user_login user) then Registry.user_login user else username
  | None => username
  end.

(** One match of a commit message. *)
Definition processMatch (a : api) (repo : string) (m : contributorsMap)
    (mt : matchResult) : contributorsMap :=
  let name := trim (group 1 mt) in
  let email := trim (group 2 mt) in
  match Normalizer.extractUsername email name with
  | Some extracted =>
      if truthy extracted then
        let normalizedLogin := toLowerCase extracted in
        let username := displayLogin a extracted in
        if has normalizedLogin m
        then update normalizedLogin (credit 1 repo) m
        else set normalizedLogin
               {| login := username;
                  avatar_url := Some ("https://github.com/" ++ username ++ ".png")%string;
                  html_url := Some ("https://github.com/" ++ username)%string;
                  contributions := 1;
                  repositories := [repo] |} m
      else m
  | None => m
  end.

Definition processCommit (a : api) (repo : string) (m : contributorsMap)
    (commit : Registry.apiCommit) : contributorsMap :=
  if negb (truthy (Registry.message commit)) then m
  else fold_left (processMatch a repo) (allMatches (Registry.message commit)) m.

(** [findCoAuthors(repo, contributorsMap)]: a failing request leaves the map
    as it is. *)
Definition findCoAuthors (a : api) (repo : string) (m : contributorsMap) : contributorsMap :=
  match listCommits a repo with
  | Some commits => fold_left (processCommit a repo) commits m
  | None => m
  end.

(** One repository: forks are skipped, and so is a repository whose
    contributor request throws. *)
Definition processRepo (a : api) (m : contributorsMap) (r : repo) : contributorsMap :=
  if fork r then m
  else
    match listContributors a (name r) with
    | Some repoContributors =>
        findCoAuthors a (name r)
          (fold_left (processContributor (name r)) repoContributors m)
    | None => m
    end.

(** The map once every repository is processed, in the order of the listing.
    The script processes the repositories of a batch concurrently: a run
    interleaves their upserts, each of which is one synchronous block. *)
Definition contributorsMapOf (a : api) (repositories : list repo) : contributorsMap :=
  fold_left (processRepo a) repositories [].

(** The sign of [b.contributions - a.contributions]. *)
Definition byContributions (a b : contributor) : comparison :=
  (contributions b ?= contributions a)%Z.

Record contributorMetrics := {
  totalContributors : nat;
  topContributors : list contributor
}.

(** "Convert to array and sort by contributions", "top 10 contributors". *)
Definition metricsOf (m : contributorsMap) : contributorMetrics :=
  let sortedContributors := Dedup.sort byContributions (map snd m) in
  {| totalContributors := List.length sortedContributors;
     topContributors := firstn 10 sortedContributors |}.

Definition getContributorMetrics (a : api) (repositories : list repo) : contributorMetrics :=
  metricsOf (contributorsMapOf a repositories).

(** An upsert: the key, the record a new key gets, and what an existing
    record is credited with. *)
Record upsert := {
  up_key : string;
  up_fresh : contributor;
  up_delta : Z;
  up_repo : string
}.

Definition applyUpsert (m : contributorsMap) (u : upsert) : contributorsMap :=
  if has (up_key u) m
  then update (up_key u) (credit (up_delta u) (up_repo u)) m
  else set (up_key u) (up_fresh u) m.

Definition contributorUpserts (repoName : string) (c : Registry.apiContributor)
  : list upsert :=
  let u := Registry.contributor_user c in
  if truthy (Registry.user_login u) then
    [{| up_key := toLowerCase (Registry.user_login u);
        up_fresh := {| login := Registry.user_login u;
                       avatar_url := Registry.user_avatar_url u;
                       html_url := Registry.user_html_url u;
                       contributions := Registry.contributor_contributions c;
                       repositories := [repoName] |};
        up_delta := Registry.contributor_contributions c;
        up_repo := repoName |}]
  else [].

Definition matchUpserts (a : api) (repo : string) (mt : matchResult) : list upsert :=
  match Normalizer.extractUsername (trim (group 2 mt)) (trim (group 1 mt)) with
  | Some extracted =>
      if truthy extracted then
        let username := displayLogin a extracted in
        [{| up_key := toLowerCase extracted;
            up_fresh := {| login := username;
                           avatar_url := Some ("https://github.com/" ++ username ++ ".png")%string;
                           html_url := Some ("https://github.com/" ++ username)%string;
                           contributions := 1;
                           repositories := [repo] |};
            up_delta := 1;
            up_repo := repo |}]
      else []
  | None => []
  end.

Definition commitUpserts (a : api) (repo : string) (commit : Registry.apiCommit)
  : list upsert :=
  if truthy (Registry.message commit)
  then flat_map (matchUpserts a repo) (allMatches (Registry.message commit))
  else [].

(** The upserts of a repository, in the order of the program. *)
Definition repoUpserts (a : api) (r : repo) : list upsert :=
  if fork r then []
  else
    match listContributors a (name r) with
    | Some repoContributors =>
        flat_map (contributorUpserts (name r)) repoContributors
        ++ match listCommits a (name r) with
           | Some commits => flat_map (commitUpserts a (name r)) commits
           | None => []
           end
    | None => []
    end.

Definition upserts (a : api) (repositories : list repo) : list upsert :=
  flat_map (repoUpserts a) repositories.

Definition contributionsOf (k : string) (m : contributorsMap) : Z :=
  match get k m with Some d => contributions d | None => 0%Z end.

Definition repositoriesOf (k : string) (m : contributorsMap) : list string :=
  match get k m with Some d => repositories d | None => [] end.

(** What the upsert adds to the key [k]. *)
Definition deltaFor (k : string) (u : upsert) : Z :=
  if up_key u =? k then up_delta u else 0%Z.

(** A well-formed upsert: the record of a new key holds the delta and the
    repository. *)
Definition wellFormed (u : upsert) : Prop :=
  contributions (up_fresh u) = up_delta u /\ repositories (up_fresh u) = [up_repo u].

End Legacy.

(* ------------------------------------------------------------------ *)
(** ** Requests: [apiRequest], [getAllItems] (enhanced collector),
    [getAllRepositories], [getCommitCount], [getContributorCount]
    (scripts/collect-metrics.js) *)

Module Api.
Import Js Regex.

(** A number that holds an integer, or [NaN] ([None]).  [Some v] stands for
    the binary64 number nearest to [v], which is [v] itself up to [2^53]; the
    comparisons with small integers made below do not depend on the
    rounding. *)
Definition number := option Z.

(** The value of the decimal digits [s] starts with, after [acc]. *)
Fixpoint digitsValue (acc : Z) (s : string) : Z :=
  match s with
  | String c s' =>
      if isDigit c then digitsValue (10 * acc + Z.of_N (code c - 48)) s' else acc
  | EmptyString => acc
  end.

Definition startsWithDigit (s : string) : bool :=
  match s with
  | String c _ => isDigit c
  | EmptyString => false
  end.

(** [parseInt(s, 10)]: leading white space, a sign, digits; [NaN] without a
    digit. *)
Definition parseInt (s : string) : number :=
  let s := trimStart s in
  let '(sign, s) := match s with
                    | String "-" r => ((-1)%Z, r)
                    | String "+" r => (1%Z, r)
                    | _ => (1%Z, s)
                    end in
  if startsWithDigit s then Some (sign * digitsValue 0 s)%Z else None.

(** A thrown error, with its [status] when it is the error of a response. *)
Record error := {
  status : option nat
}.

(** The headers the scripts read. *)
Record headers := {
  ratelimit_remaining : option string;   (* ['x-ratelimit-remaining'] *)
  ratelimit_reset : option string;       (* ['x-ratelimit-reset'] *)
  link : option string
}.

Record response (A : Type) := {
  data : A;
  response_headers : option headers
}.
Arguments data {A}.
Arguments response_headers {A}.

(** What a request gives: a response, or a thrown error. *)
Definition result (A : Type) : Type := response A + error.

(** "Rate limit tracking". *)
Record apiState := {
  remainingRequests : number;
  totalRequests : nat
}.

(** [apiRequest(method, params)]: the error of the request is thrown again. *)
Definition apiRequest {P A : Type} (method : P -> result A) (params : P) (st : apiState)
  : apiState * result A :=
  let st := {| remainingRequests := remainingRequests st;
               totalRequests := S (totalRequests st) |} in
  match method params with
  | inl response =>
      let st :=
        match response_headers response with
        | Some h =>
            match ratelimit_remaining h with
            | Some v =>
                if truthy v
                then {| remainingRequests := parseInt v;
                        totalRequests := totalRequests st |}
                else st
            | None => st
            end
        | None => st
        end in
      (st, inl response)
  | inr err => (st, inr err)
  end.

(** [x || d] on a count. *)
Definition orDefault (x : option nat) (d : nat) : nat :=
  match x with
  | Some (S n) => S n
  | _ => d
  end.

(** [remainingRequests > n]. *)
Definition above (n : Z) (x : number) : bool :=
  match x with
  | Some v => (n <? v)%Z
  | None => false
  end.

Record pageParams := {
  page : nat;
  per_page : nat
}.

(** The loop of [getAllItems] at [page], with [left] pages to go before the
    pagination limit: [page + left] is [maxPages]. *)
Fixpoint pagesLoop {A : Type} (method : pageParams -> result (list A)) (perPage : nat)
    (left page : nat) (st : apiState) (items : list A) : apiState * list A :=
  if above 5 (remainingRequests st) then
    match apiRequest method {| page := page; per_page := perPage |} st with
    | (st', inl response) =>
        let items := items ++ data response in
        let hasNextPage := (List.length (data response) =? perPage)%nat in
        match left with
        | O => (st', items)
        | S left' =>
            if hasNextPage
            then pagesLoop method perPage left' (S page) st' items
            else (st', items)
        end
    | (st', inr _) => (st', items)
    end
  else (st, items).

(** [getAllItems(method, params)], [params] carrying [per_page] and
    [maxPages] when the caller sets them. *)
Definition getAllItems {A : Type} (method : pageParams -> result (list A))
    (perPage maxPages : option nat) (st : apiState) : apiState * list A :=
  let maxPages := orDefault maxPages 10 in
  pagesLoop method (orDefault perPage 100) (maxPages - 1) 1 st [].

(** The loop of [getAllRepositories] at [page], with [left] pages to go
    before the page limit of ten; [None] is a request that throws. *)
Fixpoint repositoryPages {A : Type} (listForOrg : nat -> option (list A))
    (left page : nat) (repos : list A) : list A :=
  match listForOrg page with
  | Some data =>
      let repos := repos ++ data in
      let hasMore := (List.length data =? 100)%nat in
      match left with
      | O => repos
      | S left' =>
          if hasMore then repositoryPages listForOrg left' (S page) repos else repos
      end
  | None => repos
  end.

Definition getAllRepositories {A : Type} (listForOrg : nat -> option (list A)) : list A :=
  repositoryPages listForOrg 9 1 [].

(** The double quote. *)
Definition dq : string := String (ascii_of_nat 34) EmptyString.

(** [rel="last"] *)
Definition relLast : string := "rel=" ++ dq ++ "last" ++ dq.

(** The end of the expression below, [>; rel="last"]. *)
Definition lastTail : string := ">; " ++ relLast.

(** [/page=(\d+)>; rel="last"/] *)
Definition lastPageRegex : re :=
  seq [lit "page="; Group (Rep true 1 digit); lit lastTail].

(** The count the Link header gives, when it gives one. *)
Definition lastPage (linkHeader : option string) : option number :=
  match linkHeader with
  | Some l =>
      if truthy l && includes l relLast then
        match exec lastPageRegex l with
        | Some m => Some (parseInt (group 1 m))
        | None => None
        end
      else None
  | None => None
  end.

(** The error of reading a property of [undefined]. *)
Definition typeError : error := {| status := None |}.

Definition hasStatus (codes : list nat) (e : error) : bool :=
  match status e with
  | Some s => existsb (Nat.eqb s) codes
  | None => false
  end.

(** The body shared by [getCommitCount] and [getContributorCount]: the
    request of one item per page, then the request of a hundred; an error
    whose status is in [empty] counts as zero. *)
Definition countOf {A : Type} (list_ : nat -> result (list A)) (empty : list nat)
  : number + error :=
  let counted :=
    match list_ 1 with
    | inl response =>
        match response_headers response with
        | Some h =>
            match lastPage (link h) with
            | Some n => inl n
            | None =>
                match list_ 100 with
                | inl all => inl (Some (Z.of_nat (List.length (data all))))
                | inr e => inr e
                end
            end
        | None => inr typeError
        end
    | inr e => inr e
    end in
  match counted with
  | inl n => inl n
  | inr e => if hasStatus empty e then inl (Some 0%Z) else inr e
  end.

(** [getCommitCount(repo)]: [409] is an empty repository. *)
Definition getCommitCount (listCommits : nat -> result (list Registry.apiCommit))
  : number + error :=
  countOf listCommits [409].

(** [getContributorCount(repo)]. *)
Definition getContributorCount
    (listContributors : nat -> result (list Registry.apiContributor)) : number + error :=
  countOf listContributors [409; 404].

(** The page [page] of [all], [perPage] items a page, as a server pages a
    list. *)
Definition served {A : Type} (all : list A) (page perPage : nat) : list A :=
  firstn perPage (skipn ((page - 1) * perPage) all).

(** The headers leave more than five requests. *)
Definition enough (h : option headers) : bool :=
  match h with
  | Some hs =>
      match ratelimit_remaining hs with
      | Some v => if truthy v then above 5 (parseInt v) else true
      | None => true
      end
  | None => true
  end.

End Api.

(* ------------------------------------------------------------------ *)
(** ** Lookup of users by e-mail ([lookupUserByEmail],
    [batchLookupUsersByEmail], enhanced collector) *)

Module Lookup.
Import Js JsMap Api.

Record userDetails := {
  details_avatar_url : option string;
  details_html_url : option string;
  details_name : option string
}.

Record searchItem := {
  item_login : string;
  item_avatar_url : option string;
  item_html_url : option string
}.

(** The user a lookup returns. *)
Record foundUser := {
  found_login : string;
  found_avatar_url : option string;
  found_html_url : option string;
  found_name : string;
  found_by_email : bool;
  found_by_noreply : option bool
}.

(** The two requests of the lookup: [users.getByUsername] and
    [search.users], whose [items] may be missing. *)
Record lookupApi := {
  getByUsername : string -> result userDetails;
  searchUsers : string -> result (option (list searchItem))
}.

(** [name || login]. *)
Definition nameOr (name : option string) (login : string) : string :=
  match name with
  | Some n => if truthy n then n else login
  | None => login
  end.

(** The handle of a no-reply address. *)
Definition noReplyUsername (email : string) : string :=
  if includes email "+"
  then firstPiece "@" (nth 1 (split "+" email) EmptyString)
  else firstPiece "@" email.

(** The no-reply branch: the user, or nothing when the address is of another
    form or the request throws ("Fall back to email search"). *)
Definition lookupNoReply (a : lookupApi) (email : string) (st : apiState)
  : apiState * option foundUser :=
  if endsWith email "@users.noreply.github.com" then
    let username := noReplyUsername email in
    match apiRequest (getByUsername a) username st with
    | (st', inl userDetails) =>
        (st', Some {| found_login := username;
                      found_avatar_url := details_avatar_url (data userDetails);
                      found_html_url := details_html_url (data userDetails);
                      found_name := nameOr (details_name (data userDetails)) username;
                      found_by_email := false;
                      found_by_noreply := Some true |})
    | (st', inr _) => (st', None)
    end
  else (st, None).

(** "Use the search API to find users by email"; an error of either request
    ends the lookup with [null]. *)
Definition lookupBySearch (a : lookupApi) (email : string) (st : apiState)
  : apiState * option foundUser :=
  match apiRequest (searchUsers a) (email ++ " in:email")%string st with
  | (st', inl searchResponse) =>
      match data searchResponse with
      | Some (user :: _) =>
          match apiRequest (getByUsername a) (item_login user) st' with
          | (st'', inl userDetails) =>
              (st'', Some {| found_login := item_login user;
                             found_avatar_url := item_avatar_url user;
                             found_html_url := item_html_url user;
                             found_name := nameOr (details_name (data userDetails))
                                                  (item_login user);
                             found_by_email := true;
                             found_by_noreply := None |})
          | (st'', inr _) => (st'', None)
          end
      | _ => (st', None)
      end
  | (st', inr _) => (st', None)
  end.

(** [lookupUserByEmail(email)]. *)
Definition lookupUserByEmail (a : lookupApi) (email : string) (st : apiState)
  : apiState * option foundUser :=
  if negb (truthy email) then (st, None)
  else
    match lookupNoReply a email st with
    | (st', Some user) => (st', Some user)
    | (st', None) => lookupBySearch a email st'
    end.

(** The batches of a list, [n] items each; [fuel] bounds their number. *)
Fixpoint batches {A : Type} (fuel n : nat) (l : list A) : list (list A) :=
  match fuel with
  | O => []
  | S fuel' =>
      match l with
      | [] => []
      | _ => firstn n l :: batches fuel' n (skipn n l)
      end
  end.

(** One e-mail of a batch. *)
Definition lookupOne (a : lookupApi) (acc : apiState * list (string * foundUser))
    (email : string) : apiState * list (string * foundUser) :=
  let '(st, results) := acc in
  if has email results then acc
  else
    match lookupUserByEmail a email st with
    | (st', Some user) => (st', set email user results)
    | (st', None) => (st', results)
    end.

(** [batchLookupUsersByEmail(emails)], batches of five. *)
Definition batchLookupUsersByEmail (a : lookupApi) (emails : list string) (st : apiState)
  : apiState * list (string * foundUser) :=
  let uniqueEmails := Dedup.uniqueStrings [] emails in
  fold_left (fun acc batch => fold_left (lookupOne a) batch acc)
            (batches (List.length uniqueEmails) 5 uniqueEmails)
            (st, []).

End Lookup.

(* ------------------------------------------------------------------ *)
(** ** The contributors of the metrics file (enhanced collector) *)

Module Output.
Import Js Registry.

(** [{...c, email: c.email || null, repositories: Array.from(c.repositories)}] *)
Definition exported (c : contributor) : contributor :=
  {| login := login c;
     email := match email c with
              | Some e => if truthy e then Some e else None
              | None => None
              end;
     avatar_url := avatar_url c;
     html_url := html_url c;
     contributions := contributions c;
     lines_contributed := lines_contributed c;
     repositories := repositories c;
     github_login := github_login c;
     pending_github_lookup := pending_github_lookup c;
     matched_by_email := matched_by_email c;
     matched_by_name := matched_by_name c;
     aliases := aliases c |}.

(** The sign of [b.contributions - a.contributions]. *)
Definition byContributions (a b : contributor) : comparison :=
  (contributions b ?= contributions a)%Z.

(** "Convert contributors map to array and sort by contributions". *)
Definition allContributors (m : registry) : list contributor :=
  Dedup.sort byContributions (map (fun kd => exported (snd kd)) m).

(** A contributor of [stats.contributors.top]: the record without [email],
    [pending_github_lookup] and [matched_by_email]. *)
Record topContributor := {
  top_login : string;
  top_avatar_url : option string;
  top_html_url : option string;
  top_contributions : Z;
  top_lines_contributed : Z;
  top_repositories : list string;
  top_github_login : option string;
  top_matched_by_name : option bool;
  top_aliases : option (list alias)
}.

(** [const { email, pending_github_lookup, matched_by_email, ...rest } = c] *)
Definition rest (c : contributor) : topContributor :=
  {| top_login := login c;
     top_avatar_url := avatar_url c;
     top_html_url := html_url c;
     top_contributions := contributions c;
     top_lines_contributed := lines_contributed c;
     top_repositories := repositories c;
     top_github_login := github_login c;
     top_matched_by_name := matched_by_name c;
     top_aliases := aliases c |}.

(** [metrics.stats.contributors]. *)
Record contributorStats := {
  contributors_total : nat;
  contributors_top : list topContributor
}.

Definition contributorStatsOf (m : registry) : contributorStats :=
  {| contributors_total := List.length (allContributors m);
     contributors_top := map rest (firstn 20 (allContributors m)) |}.

End Output.

(* ------------------------------------------------------------------ *)
(** ** The maps and the invariant of the deduplication *)

Module Grouping.
Import Js Registry Dedup.

(** The array stored under [k], the empty one when there is none. *)
Fixpoint groupOf (k : string) (g : groups) : list string :=
  match g with
  | [] => []
  | (k', ls) :: g' => if k' =? k then ls else groupOf k g'
  end.

(** The record holds the e-mail [e], up to case. *)
Definition emailIs (e : string) (d : contributor) : bool :=
  match email d with
  | Some x => truthy x && (toLowerCase x =? e)
  | None => false
  end.

(** The record holds the GitHub login [g], up to case. *)
Definition githubLoginIs (g : string) (d : contributor) : bool :=
  match github_login d with
  | Some x => truthy x && (toLowerCase x =? g)
  | None => false
  end.

(** The keys of the records that satisfy [p], in the order of the registry. *)
Definition keysWhere (p : contributor -> bool) (m : registry) : list string :=
  map fst (filter (fun kd => p (snd kd)) m).

(** Every record of [m'] is a record of [m]: same key, login and e-mail, and
    no repository lost. *)
Definition comesFrom (m m' : registry) : Prop :=
  forall k d',
    get k m' = Some d' ->
    exists d, get k m = Some d /\ login d' = login d /\ email d' = email d
              /\ incl (repositories d) (repositories d').

(** The state of the merge loop, for a pass that started from [m0]: the keys
    left are those of [m0] that are not in [mergedLogins]. *)
Definition mergeInvariant (m0 : registry) (st : registry * list string) : Prop :=
  NoDup (keys (fst st))
  /\ comesFrom m0 (fst st)
  /\ keys (fst st) = filter (fun k => negb (setHas k (snd st))) (keys m0)
  /\ NoDup (snd st)
  /\ incl (snd st) (keys m0).

(** The maps of the discovery: distinct keys, no empty array. *)
Definition groupsWf (g : groups) : Prop :=
  NoDup (map fst g) /\ forall k ls, In (k, ls) g -> ls <> [].

End Grouping.

(* ------------------------------------------------------------------ *)
(** ** The score of the merge ordering, in exact arithmetic *)

Module ExactScore.
Import Js Registry Dedup.

(** Modelled from the spec: the score of a member in exact arithmetic,
    counted in tenths: one for every contribution and ten times each bonus,
    the bonuses given on the tests of the code. *)
Definition scoreTenths (login : string) (data : contributor) : Z :=
  (contributions data
   + (if hasGithubLogin data then 1000 else 0)
   + (if loginIsGithubLogin login data then 500 else 0)
   + (if hasGithubAvatar data then 300 else 0)
   + (if notPlaceholder login then 200 else 0)
   + (if noSpace login then 50 else 0))%Z.

(** Modelled from the spec: a synthetic fallback handle, [contributor-<n>]. *)
Definition isFallbackHandle (login : string) : bool :=
  startsWith login "contributor-"
  && truthy (drop 12 login) && allChars isDigit (drop 12 login).

End ExactScore.

(* ------------------------------------------------------------------ *)
(** ** Messages made of trailers, and what a match looks like *)

Module Trailers.
Import Js Regex Extractor.


(** The expression has no group. *)
Fixpoint capless (r : re) : bool :=
  match r with
  | Seq r1 r2 => capless r1 && capless r2
  | Group _ => false
  | _ => true
  end.







(** The address [local@domain.tld]. *)
Definition address (local domain tld : string) : string :=
  local ++ "@" ++ domain ++ "." ++ tld.



(** Modelled from the spec: a line of a message, free text or a trailer
    [Co-Authored-By: Name <email>] with its name and the parts of its
    address. *)
Inductive line : Type :=
| Plain (s : string)
| Trailer (name local domain tld : string).

(** Modelled from the spec: the text of a line. *)
Definition lineText (l : line) : string :=
  match l with
  | Plain s => s
  | Trailer name local domain tld => trailer name (address local domain tld)
  end.


(** Modelled from the spec: the message whose lines are [ls]. *)
Definition messageOf (ls : list line) : string := String.concat lf (map lineText ls).








End Trailers.

(* ------------------------------------------------------------------ *)
(** ** Sample data *)

Module Samples.
Import Js Registry.

(** The metrics of a run. *)
Definition sampleMetrics : History.metrics :=
  {| History.timestamp := "2025-03-08T12:34:56Z";
     History.stats_repositories := 42;
     History.stats_stars := 1500;
     History.stats_forks := 250;
     History.stats_contributors_total := 65;
     History.stats_totalCommits := 3750;
     History.stats_linesOfCode := 125000 |}.

(** A user as the API lists it. *)
Definition sampleUser (l : string) : apiUser :=
  {| user_login := l;
     user_avatar_url := Some ("https://avatars.githubusercontent.com/" ++ l)%string;
     user_html_url := Some ("https://github.com/" ++ l)%string |}.

(** A registry holding the direct contributor [bob], five contributions. *)
Definition sampleRegistry : registry :=
  processContributor "api" []
    {| contributor_user := sampleUser "bob"; contributor_contributions := 5 |}.

(** The co-author [Bob <bob@x.com>]. *)
Definition sampleCoAuthor : Extractor.candidate :=
  {| Extractor.name := "Bob"; Extractor.email := "bob@x.com";
     Extractor.source := "step1" |}.

(** Two co-author records of one name, and the direct contributor. *)
Definition sampleEntries : list (string * contributor) :=
  [("alice-1", freshCoAuthor "alice-1" "web" "Alice" "alice@corp.example");
   ("alice", freshCoAuthor "alice" "api" "Alice" "alice@home.example");
   ("contributor-7", freshCoAuthor "contributor-7" "api" "A" "a@home.example")].

(** A co-author record under [key] with [count] contributions. *)
Definition creditedCoAuthor (key : string) (count : Z) : contributor :=
  credit (count - 1) "api" (freshCoAuthor key "api" "X" "xavier@y.example").

(** A registry of two co-author records with one e-mail, three and two
    contributions. *)
Definition sampleDuplicates : registry :=
  [("alice", credit 2 "api" (freshCoAuthor "alice" "api" "alice" "a@x.com"));
   ("alice-1", credit 1 "web" (freshCoAuthor "alice-1" "web" "alice" "a@x.com"))].

(** Repository A lists the contributor [ab]; a commit of repository B names
    the co-author [A B <x@y.com>]. *)
Definition repoA : apiRepo :=
  {| repo_name := "A";
     repo_contributors :=
       [{| contributor_user := sampleUser "ab"; contributor_contributions := 5 |}];
     repo_commits := [] |}.

(** Repository B. *)
Definition repoB : apiRepo :=
  {| repo_name := "B";
     repo_contributors := [];
     repo_commits :=
       [{| sha := "1f0c";
           message := "Fix build. Co-Authored-By: A B <x@y.com>";
           author := None |}] |}.

(** Repository C lists [AB] and has a commit by [cd]; no co-author. *)
Definition repoC : apiRepo :=
  {| repo_name := "C";
     repo_contributors :=
       [{| contributor_user := sampleUser "AB"; contributor_contributions := 2 |}];
     repo_commits :=
       [{| sha := "77aa"; message := "Bump version"; author := Some (sampleUser "cd") |}] |}.

(** Repository D lists the contributor [foo-bar], repository E the
    contributor [foobar]; neither has a commit. *)
Definition repoD : apiRepo :=
  {| repo_name := "D";
     repo_contributors :=
       [{| contributor_user := sampleUser "foo-bar"; contributor_contributions := 3 |}];
     repo_commits := [] |}.

(** Repository E. *)
Definition repoE : apiRepo :=
  {| repo_name := "E";
     repo_contributors :=
       [{| contributor_user := sampleUser "foobar"; contributor_contributions := 3 |}];
     repo_commits := [] |}.

(** The lines of a commit message with two trailers. *)
Definition sampleLines : list Trailers.line :=
  [Trailers.Plain "Fix the parser"; Trailers.Plain "";
   Trailers.Trailer "Bob Jones" "Bob" "Example" "com";
   Trailers.Trailer "Carol Lee" "carol" "example" "org"].


End Samples.

(* ------------------------------------------------------------------ *)
(** ** Sample requests and answers *)

Module Scenarios.
Import Js Registry.

(** The listing of two repositories, the second pushed to lately. *)
Definition sampleListing : list Pipeline.listedRepo :=
  [{| Pipeline.data := Samples.repoA; Pipeline.recentlyPushed := false |};
   {| Pipeline.data := Samples.repoB; Pipeline.recentlyPushed := true |}].

(** The requests of the older script: repository A lists [Bob], five
    contributions, and a commit of it names a co-author by the no-reply
    address of [bob]; no user request succeeds. *)
Definition legacyApi : Legacy.api :=
  {| Legacy.listContributors :=
       fun repo =>
         if repo =? "A"
         then Some [{| contributor_user := Samples.sampleUser "Bob";
                       contributor_contributions := 5 |}]
         else None;
     Legacy.listCommits :=
       fun _ =>
         Some [{| sha := "1f0c";
                  message :=
                    ("Fix build" ++ Extractor.lf ++ Extractor.lf
                     ++ "Co-authored-by: Bob <41898282+bob@users.noreply.github.com>")%string;
                  author := None |}];
     Legacy.getByUsername := fun _ => None |}.

(** Repository A and a fork. *)
Definition legacyRepositories : list Legacy.repo :=
  [{| Legacy.name := "A"; Legacy.fork := false |};
   {| Legacy.name := "F"; Legacy.fork := true |}].

(** The upserts of the run, last first. *)
Definition legacyOrder : list Legacy.upsert :=
  rev (Legacy.upserts legacyApi legacyRepositories).

(** A server that pages a list, without rate-limit headers. *)
Definition pagedServer (all : list nat) (params : Api.pageParams)
  : Api.result (list nat) :=
  inl {| Api.data := Api.served all (Api.page params) (Api.per_page params);
         Api.response_headers := None |}.

(** The counters when a run starts. *)
Definition freshState : Api.apiState :=
  {| Api.remainingRequests := Some 5000%Z; Api.totalRequests := 0 |}.

(** The start of the Link header of a first page, up to the last link. *)
Definition linkPrefix : string :=
  ("<https://api.github.com/repositories/1/commits?per_page=1&page=2>; rel="
   ++ Api.dq ++ "next" ++ Api.dq
   ++ ", <https://api.github.com/repositories/1/commits?per_page=1&")%string.

(** The headers of a first page when there are [n] pages. *)
Definition linkHeaders (n : nat) : Api.headers :=
  {| Api.ratelimit_remaining := Some "4999";
     Api.ratelimit_reset := Some "1741437296";
     Api.link := Some (linkPrefix ++ "page=" ++ numberToString n
                             ++ Api.lastTail ++ "")%string |}.

(** The commits of a repository of thirty-seven commits, one a page. *)
Definition firstCommitPage (perPage : nat) : Api.result (list apiCommit) :=
  inl {| Api.data := [{| sha := "1f0c"; message := "Fix build"; author := None |}];
         Api.response_headers := Some (linkHeaders 37) |}.

(** The contributors of a repository of thirty-seven contributors. *)
Definition firstContributorPage (perPage : nat) : Api.result (list apiContributor) :=
  inl {| Api.data := [{| contributor_user := Samples.sampleUser "bob";
                         contributor_contributions := 5 |}];
         Api.response_headers := Some (linkHeaders 37) |}.

(** An empty repository: the request of its commits fails with [409]. *)
Definition emptyRepository (perPage : nat) : Api.result (list apiCommit) :=
  inr {| Api.status := Some 409%nat |}.

(** The answer of the user request for [octocat]. *)
Definition octocatDetails : Api.response Lookup.userDetails :=
  {| Api.data :=
       {| Lookup.details_avatar_url :=
            Some "https://avatars.githubusercontent.com/u/583231";
          Lookup.details_html_url := Some "https://github.com/octocat";
          Lookup.details_name := Some "The Octocat" |};
     Api.response_headers := None |}.

(** Requests that know every user and find none by e-mail. *)
Definition octocatApi : Lookup.lookupApi :=
  {| Lookup.getByUsername := fun _ => inl octocatDetails;
     Lookup.searchUsers := fun _ =>
       inl {| Api.data := Some []; Api.response_headers := None |} |}.

End Scenarios.

(* ================================================================== *)
(** * Properties *)

(* ------------------------------------------------------------------ *)
(** ** Facts on strings and on the matcher *)

Section StringFacts.
Import Js.

Lemma truthy_true (s : string) : truthy s = true <-> s <> "".
Proof.
  unfold truthy. destruct (String.eqb_spec s ""); simpl; split; congruence.
Qed.

Lemma truthy_false (s : string) : truthy s = false <-> s = "".
Proof.
  unfold truthy. destruct (String.eqb_spec s ""); simpl; split; congruence.
Qed.

Lemma allChars_append (p : ascii -> bool) (a b : string) :
  allChars p (a ++ b) = allChars p a && allChars p b.
Proof.
  induction a as [| c a IH]; simpl; [reflexivity |].
  now rewrite IH, andb_assoc.
Qed.

Lemma allChars_impl (p q : ascii -> bool) (s : string) :
  (forall c, p c = true -> q c = true) -> allChars p s = true -> allChars q s = true.
Proof.
  intros Hpq. induction s as [| c s IH]; simpl; [auto |].
  intros H. apply andb_true_iff in H. destruct H as [Hc Hs].
  now rewrite (Hpq c Hc), IH.
Qed.

Lemma startsWith_append (w b : string) : startsWith (w ++ b) w = true.
Proof.
  induction w as [| c w IH]; simpl; [reflexivity |].
  now rewrite Ascii.eqb_refl, IH.
Qed.

Lemma startsWith_inv (s w : string) :
  startsWith s w = true -> exists b, s = (w ++ b)%string.
Proof.
  revert s. induction w as [| c w IH]; intros s; simpl.
  - intros _. now exists s.
  - destruct s as [| d s]; [discriminate |].
    intros H. apply andb_true_iff in H. destruct H as [Hc Hs].
    apply Ascii.eqb_eq in Hc. subst d.
    destruct (IH s Hs) as (b & ->). now exists b.
Qed.

(** [s.includes(w)]: [w] occurs in [s]. *)
Lemma includes_occurs (s w : string) :
  includes s w = true <-> exists a b, s = (a ++ w ++ b)%string.
Proof.
  split.
  - induction s as [| c s IH]; simpl.
    + rewrite orb_false_r. intros H. destruct (startsWith_inv _ _ H) as (b & ->).
      now exists "", b.
    + intros H. apply orb_true_iff in H. destruct H as [H | H].
      * destruct (startsWith_inv _ _ H) as (b & ->). now exists "", b.
      * destruct (IH H) as (a & b & ->). now exists (String c a), b.
  - intros (a & b & ->). induction a as [| c a IH].
    + change ("" ++ w ++ b)%string with (w ++ b)%string.
      destruct (w ++ b)%string eqn:E; simpl; rewrite <- E;
        now rewrite startsWith_append.
    + change (String c a ++ w ++ b)%string with (String c (a ++ w ++ b)).
      cbn [includes]. now rewrite IH, orb_true_r.
Qed.

Lemma trimStart_suffix (s : string) : exists a, s = (a ++ trimStart s)%string.
Proof.
  induction s as [| c s IH]; simpl.
  - now exists "".
  - destruct (isWhiteSpace c); [| now exists ""].
    destruct IH as (a & Ha). exists (String c a). simpl. now rewrite <- Ha.
Qed.

Lemma trimEnd_prefix (s : string) : exists b, s = (trimEnd s ++ b)%string.
Proof.
  induction s as [| c s IH]; simpl.
  - now exists "".
  - destruct IH as (b & Hb). destruct (trimEnd s) as [| d t] eqn:E.
    + destruct (isWhiteSpace c).
      * now exists (String c s).
      * exists s. reflexivity.
    + exists b. simpl in *. now rewrite <- Hb.
Qed.

(** What [trim] returns occurs in its argument. *)
Lemma trim_occurs (s : string) : exists a b, s = (a ++ trim s ++ b)%string.
Proof.
  unfold trim. destruct (trimStart_suffix s) as (a & Ha).
  destruct (trimEnd_prefix (trimStart s)) as (b & Hb).
  exists a, b. now rewrite <- Hb.
Qed.


Lemma split_head (sep : ascii) (s h : string) (t : list string) :
  split sep s = h :: t -> exists b, s = (h ++ b)%string.
Proof.
  revert h t. induction s as [| c s IH]; intros h t; simpl.
  - intros [= <- <-]. now exists "".
  - destruct (Ascii.eqb c sep).
    + intros [= <- <-]. now exists (String c s).
    + destruct (split sep s) as [| h' t'] eqn:E.
      * intros [= <- <-]. exists s. reflexivity.
      * intros [= <- <-]. destruct (IH h' t' eq_refl) as (b & ->). now exists b.
Qed.

(** A piece of [split] occurs in the string. *)
Lemma split_occurs (sep : ascii) (s x : string) :
  In x (split sep s) -> exists a b, s = (a ++ x ++ b)%string.
Proof.
  revert x. induction s as [| c s IH]; intros x; simpl.
  - intros [<- | []]. now exists "", "".
  - destruct (Ascii.eqb c sep).
    + intros [<- | Hin].
      * now exists "", (String c s).
      * destruct (IH x Hin) as (a & b & ->). now exists (String c a), b.
    + destruct (split sep s) as [| h t] eqn:E.
      * intros [<- | []]. exists "", s. reflexivity.
      * intros [<- | Hin].
        -- destruct (split_head sep s h t E) as (b & ->). now exists "", b.
        -- destruct (IH x (or_intror Hin)) as (a & b & ->).
           now exists (String c a), b.
Qed.

End StringFacts.

Section RegexFacts.
Import Js Regex.

(** An expression anchored by [^] matches at the start of the input only. *)
Lemma searchFrom_Bol_after (r : re) (s : string) (c : ascii) (i : nat) :
  searchFrom (Seq Bol r) (Some c) s i = None.
Proof.
  revert c i. induction s as [| d s IH]; intros c i; simpl.
  - reflexivity.
  - apply IH.
Qed.

Lemma exec_Bol (r : re) (s : string) :
  exec (Seq Bol r) s
  = match matchHere (Seq Bol r) None s with
    | Some res => Some (mkMatch 0 s res)
    | None => None
    end.
Proof.
  unfold exec. destruct s as [| c s]; simpl.
  - reflexivity.
  - destruct (matchHere (Seq Bol r) None (String c s)); [reflexivity |].
    apply searchFrom_Bol_after.
Qed.

(** [\d+$] from inside the run of digits: it succeeds exactly when digits,
    at least one in all, fill the rest of the input. *)
Lemma rep_digits_to_end (caps : list string) (s : string) (prev : option ascii) (n : nat) :
  rep true 1 digit
      (fun prev' s' caps' => run (Seq Eol Eps) prev' s' caps'
                                 (fun _ s'' caps'' => Some (s'', caps'')))
      caps prev s n
  = if allChars isDigit s && (1 <=? n + String.length s)%nat
    then Some ("", caps) else None.
Proof.
  revert prev n. induction s as [| c s IH]; intros prev n.
  - simpl. rewrite Nat.add_0_r. destruct n; reflexivity.
  - simpl. unfold digit at 1.
    destruct (isDigit c) eqn:Hc; simpl.
    + rewrite IH.
      replace (1 <=? S n + String.length s)%nat with true
        by (symmetry; apply Nat.leb_le; lia).
      replace (match (n + S (String.length s))%nat with 0%nat => false | S _ => true end)
        with true by (destruct (n + S (String.length s))%nat eqn:E; [lia | reflexivity]).
      rewrite andb_true_r.
      destruct (allChars isDigit s); [reflexivity |].
      destruct n; reflexivity.
    + destruct n; reflexivity.
Qed.

Lemma length_append (a b : string) :
  String.length (a ++ b) = (String.length a + String.length b)%nat.
Proof. induction a as [| c a IH]; simpl; [reflexivity | now rewrite IH]. Qed.

Lemma take_append (a b : string) :
  take (String.length (a ++ b) - String.length b) (a ++ b) = a.
Proof.
  rewrite length_append.
  replace (String.length a + String.length b - String.length b)%nat
    with (String.length a) by lia.
  induction a as [| c a IH]; simpl.
  - destruct b; reflexivity.
  - now rewrite IH.
Qed.

Lemma append_assoc (a b c : string) : ((a ++ b) ++ c)%string = (a ++ (b ++ c))%string.
Proof. induction a as [| x a IH]; simpl; [reflexivity | now rewrite IH]. Qed.

(** A greedy class reads the whole run [a] in front of a character outside
    the class; when the continuation succeeds there, that is the match. *)
Lemma rep_greedy_stop (p : charset) (lo : nat) (k : cont) (caps : list string)
    (a b : string) (res : string * list string) :
  allChars p a = true -> blocked p b = true ->
  forall (prev : option ascii) (n : nat),
    (lo <= n + String.length a)%nat ->
    k (lastOpt prev a) b caps = Some res ->
    rep true lo p k caps prev (a ++ b) n = Some res.
Proof.
  intros Ha Hb. induction a as [| c a IH]; intros prev n Hlo Hk.
  - simpl in *. rewrite Nat.add_0_r in Hlo.
    apply Nat.leb_le in Hlo.
    destruct b as [| d b]; simpl in *.
    + rewrite Hlo. exact Hk.
    + apply negb_true_iff in Hb. rewrite Hb, Hlo. exact Hk.
  - simpl in Ha. apply andb_true_iff in Ha. destruct Ha as [Hc Ha].
    simpl. rewrite Hc.
    rewrite (IH Ha (Some c) (S n)); [reflexivity | simpl in Hlo; lia | exact Hk].
Qed.

(** A greedy class that could read [b] to the end of the input, followed by
    a continuation that fails everywhere inside [b], matches nothing of [b]. *)
Lemma rep_greedy_backoff (p : charset) (lo : nat) (k : cont) (caps : list string)
    (b : string) :
  allChars p b = true ->
  (forall (j : nat) (prev' : option ascii),
      (0 < j <= String.length b)%nat -> k prev' (drop j b) caps = None) ->
  forall (prev : option ascii) (n : nat),
    rep true lo p k caps prev b n = if (lo <=? n)%nat then k prev b caps else None.
Proof.
  induction b as [| c b IH]; intros Hb Hfail prev n.
  - reflexivity.
  - simpl in Hb. apply andb_true_iff in Hb. destruct Hb as [Hc Hb].
    simpl. rewrite Hc. rewrite IH.
    + assert (Hone : k (Some c) b caps = None)
        by (apply (Hfail 1%nat (Some c)); simpl; lia).
      rewrite Hone. destruct (lo <=? S n)%nat; reflexivity.
    + exact Hb.
    + intros j prev' Hj. apply (Hfail (S j) prev'). simpl. lia.
Qed.

(** So the greedy class in front of such a [b] reads exactly [a]. *)
Lemma rep_greedy_until (p : charset) (lo : nat) (k : cont) (caps : list string)
    (a b : string) (res : string * list string) :
  allChars p a = true -> allChars p b = true ->
  (forall (j : nat) (prev' : option ascii),
      (0 < j <= String.length b)%nat -> k prev' (drop j b) caps = None) ->
  forall (prev : option ascii) (n : nat),
    (lo <= n + String.length a)%nat ->
    k (lastOpt prev a) b caps = Some res ->
    rep true lo p k caps prev (a ++ b) n = Some res.
Proof.
  intros Ha Hb Hfail. induction a as [| c a IH]; intros prev n Hlo Hk.
  - simpl in *. rewrite rep_greedy_backoff by assumption.
    rewrite Nat.add_0_r in Hlo. apply Nat.leb_le in Hlo. rewrite Hlo. exact Hk.
  - simpl in Ha. apply andb_true_iff in Ha. destruct Ha as [Hc Ha].
    simpl. rewrite Hc.
    rewrite (IH Ha (Some c) (S n)); [reflexivity | simpl in Hlo; lia | exact Hk].
Qed.

(** A literal does not match an input shorter than itself. *)
Lemma run_lit_i_short (pat s : string) (prev : option ascii) (caps : list string)
    (k : cont) :
  (String.length s < String.length pat)%nat ->
  run (lit_i pat) prev s caps k = None.
Proof.
  revert s prev k. induction pat as [| c pat IH]; intros s prev k Hlen; simpl in *.
  - lia.
  - destruct s as [| d s]; [reflexivity |].
    destruct (ci (Ascii.eqb c) d); [| reflexivity].
    apply IH. simpl in Hlen. lia.
Qed.

Lemma length_drop (j : nat) (s : string) :
  String.length (drop j s) = (String.length s - j)%nat.
Proof.
  revert s. induction j as [| j IH]; intros s.
  - simpl. destruct s; simpl; lia.
  - destruct s as [| c s]; simpl; [reflexivity | apply IH].
Qed.

(** The search passes over the characters at which the expression cannot
    start. *)
Lemma searchFrom_skip (q : charset) (r : re) (a b : string) :
  (forall (c : ascii) (s : string) (prev : option ascii),
      q c = true -> matchHere r prev (String c s) = None) ->
  allChars q a = true ->
  forall (prev : option ascii) (i : nat),
    searchFrom r prev (a ++ b) i
    = searchFrom r (lastOpt prev a) b (i + String.length a).
Proof.
  intros Hstart. induction a as [| c a IH]; intros Ha prev i.
  - simpl. now rewrite Nat.add_0_r.
  - simpl in Ha. apply andb_true_iff in Ha. destruct Ha as [Hc Ha].
    cbn [append searchFrom]. rewrite (Hstart c _ prev Hc).
    rewrite (IH Ha). simpl. f_equal. lia.
Qed.

End RegexFacts.

(* ------------------------------------------------------------------ *)
(** ** Co-author extraction *)

Section ExtractorProperties.
Import Js Regex Extractor Samples.







(** What the closing filter keeps: no e-mail twice up to case, none empty,
    none of those seen before. *)
Lemma uniqueBy_distinct (l : list candidate) (seen : list string) :
  NoDup (map emailKey (uniqueBy seen l))
  /\ forall c, In c (uniqueBy seen l) -> ~ In (emailKey c) seen /\ email c <> "".
Proof.
  revert seen. induction l as [| a l IH]; intros seen; simpl.
  - split; [constructor | intros c []].
  - destruct (truthy (email a)) eqn:Ht; cbn [negb orb]; [| apply IH].
    destruct (existsb (String.eqb (toLowerCase (email a))) seen) eqn:Hseen; [apply IH |].
    destruct (IH (toLowerCase (email a) :: seen)) as [Hnd Hnew]. split.
    + simpl. constructor; [| exact Hnd].
      intros Hin. apply in_map_iff in Hin. destruct Hin as (c & Hc & Hin).
      destruct (Hnew c Hin) as [Hnot _]. apply Hnot. left. symmetry. exact Hc.
    + intros c [<- | Hin].
      * split; [| now apply truthy_true].
        intros Hin. assert (Hex : existsb (String.eqb (toLowerCase (email a))) seen = true)
          by (apply existsb_exists; exists (emailKey a); split;
              [exact Hin | apply String.eqb_refl]).
        congruence.
      * destruct (Hnew c Hin) as [Hnot Hne]. split; [| exact Hne].
        intros Hc. apply Hnot. now right.
Qed.












(** Two markers on one line give two candidates. *)
Example extractCoAuthors_one_line :
  map (fun c => (name c, email c))
      (extractCoAuthors
         "Fixes bug. Co-Authored-By: Bob Jones <bob@users.noreply.github.com> Co-Authored-By: Carol Lee <carol@example.com>")
  = [("Bob Jones", "bob@users.noreply.github.com"); ("Carol Lee", "carol@example.com")].
Proof. reflexivity. Qed.

(** A message without marker and without address gives no candidate. *)
Example extractCoAuthors_none :
  extractCoAuthors "Bump version to 1.2.3" = [].
Proof. reflexivity. Qed.

End ExtractorProperties.

(* ------------------------------------------------------------------ *)
(** ** Username extraction *)

Section NormalizerProperties.
Import Js Regex Normalizer.

(** [/^\d+$/.test(s)]: [s] is a non-empty run of digits. *)
Lemma test_allDigits (s : string) :
  test allDigitsRegex s = truthy s && allChars isDigit s.
Proof.
  unfold test, allDigitsRegex. cbn [seq]. rewrite exec_Bol.
  unfold matchHere. cbn [run]. rewrite rep_digits_to_end.
  destruct s as [| c s]; [reflexivity |].
  cbn [String.length Nat.add Nat.leb truthy String.eqb negb andb].
  rewrite andb_true_r. destruct (allChars isDigit (String c s)); reflexivity.
Qed.

(** The local part of the e-mail gives no handle when it has at most two
    characters or is a number. *)
Lemma emailLocalPart_None (email : string) :
  emailLocalPart email = None <->
  (String.length (firstPiece "@" email) <= 2)%nat
  \/ allChars isDigit (firstPiece "@" email) = true.
Proof.
  unfold emailLocalPart. rewrite test_allDigits.
  set (u := firstPiece "@" email).
  destruct (Nat.ltb_spec 2 (String.length u)) as [Hlong | Hshort].
  - assert (Ht : truthy u = true)
      by (apply truthy_true; intros ->; simpl in Hlong; lia).
    rewrite Ht. simpl.
    destruct (allChars isDigit u); simpl; split; intros H;
      try discriminate; try reflexivity; auto.
    destruct H as [H | H]; [lia | discriminate].
  - rewrite andb_false_r. simpl. split; auto.
Qed.

(** [extractUsername] of the older script has no placeholder: it returns
    [null] exactly when the name is empty and the e-mail yields no handle
    either, that is when the e-mail has none of the first-party forms and its
    local part has at most two characters or is a number. *)
Lemma extractUsername_null (email name : string) :
  (extractUsername email name = None <->
   name = ""
   /\ noReplyHandle email = None
   /\ githubDomain email = false
   /\ ((String.length (firstPiece "@" email) <= 2)%nat
       \/ allChars isDigit (firstPiece "@" email) = true))
  /\ (name <> "" -> extractUsername email name <> None)
  /\ extractUsername "" "" = None.
Proof.
  assert (Hiff : extractUsername email name = None <->
                 name = "" /\ noReplyHandle email = None /\ githubDomain email = false
                 /\ emailLocalPart email = None).
  { unfold extractUsername.
    destruct (noReplyHandle email) as [h |]; [split; [discriminate | intros (_ & H & _); discriminate] |].
    destruct (githubDomain email); [split; [discriminate | intros (_ & _ & H & _); discriminate] |].
    unfold mentionInName.
    destruct (truthy name) eqn:Hname.
    - apply truthy_true in Hname.
      split.
      + intros H. exfalso.
        destruct (exec mentionRegex name) as [m |];
          [destruct (truthy (group 1 m)); [discriminate |] |];
          destruct (emailLocalPart email); discriminate.
      + intros (H & _). contradiction.
    - apply truthy_false in Hname.
      destruct (emailLocalPart email); split; try discriminate; auto.
      intros (_ & _ & _ & H). discriminate. }
  split; [| split].
  - rewrite Hiff, emailLocalPart_None. reflexivity.
  - intros Hname H. apply Hiff in H. destruct H as [H _]. contradiction.
  - reflexivity.
Qed.

(** An e-mail that is not empty, with an empty name, for which
    [extractUsername] returns [null]. *)
Example extractUsername_null_example :
  "12@x.com" <> "" /\ extractUsername "12@x.com" "" = None.
Proof. split; [discriminate | reflexivity]. Qed.

(** The numeric-id no-reply form: digits, a plus sign, the handle, and the
    no-reply host.  The handle is what the expression captures. *)
Lemma noReplyHandle_form (digits handle : string) :
  digits <> "" -> allChars isDigit digits = true ->
  handle <> "" -> allChars dot handle = true ->
  noReplyHandle (digits ++ "+" ++ handle ++ "@users.noreply.github.com") = Some handle.
Proof.
  intros Hd Hdigits Hh Hhandle.
  assert (Hlen : forall x : string, x <> "" -> (1 <= 0 + String.length x)%nat)
    by (intros [| c x] H; [congruence | simpl; lia]).
  unfold noReplyHandle, githubNoReplyRegex. cbn [seq]. rewrite exec_Bol.
  unfold matchHere. cbn [run].
  erewrite (rep_greedy_stop digit 1 _ [] digits); try reflexivity; auto.
  2:{ cbn [append run lit]. change (Ascii.eqb "+" "+") with true. cbv iota.
      erewrite (rep_greedy_until dot 1 _ _ handle "@users.noreply.github.com");
        try reflexivity; auto.
      intros j prev' Hj. apply run_lit_i_short. rewrite length_drop. lia. }
  unfold mkMatch, group. cbn [groups snd Nat.sub].
  rewrite !take_append. cbn [app nth].
  apply truthy_true in Hh. rewrite Hh. reflexivity.
Qed.

(** A name whose first [@] is followed by a handle: the handle is what
    the expression captures. *)
Lemma mentionInName_form (before handle rest : string) :
  allChars (fun c => negb (Ascii.eqb "@" c)) before = true ->
  handle <> "" -> allChars handleChar handle = true ->
  blocked handleChar rest = true ->
  mentionInName (before ++ "@" ++ handle ++ rest) = Some handle.
Proof.
  intros Hbefore Hh Hhandle Hrest.
  unfold mentionInName.
  assert (Hname : truthy (before ++ "@" ++ handle ++ rest) = true)
    by (apply truthy_true; destruct before; discriminate).
  rewrite Hname. unfold exec, mentionRegex. cbn [seq lit].
  rewrite (searchFrom_skip (fun c => negb (Ascii.eqb "@" c))).
  2:{ intros c s prev Hc. unfold matchHere. cbn [run].
      apply negb_true_iff in Hc. now rewrite Hc. }
  2: exact Hbefore.
  cbn [append searchFrom]. unfold matchHere. cbn [run].
  change (Ascii.eqb "@" "@") with true. cbv iota.
  erewrite (rep_greedy_stop handleChar 1 _ [] handle rest); try reflexivity; auto.
  2:{ destruct handle; [congruence | simpl; lia]. }
  unfold mkMatch, group. cbn [groups snd Nat.sub app nth].
  rewrite take_append.
  apply truthy_true in Hh. rewrite Hh. reflexivity.
Qed.

(** In [extractUsername] of the older script the e-mail rules come before
    the name.  An e-mail of the numeric-id no-reply form gives its own handle
    whatever the name mentions; the handle mentioned in the name is returned
    when the e-mail has none of the first-party forms. *)
Lemma extractUsername_email_first (email name : string) :
  (forall digits handle : string,
      digits <> "" -> allChars isDigit digits = true ->
      handle <> "" -> allChars dot handle = true ->
      email = (digits ++ "+" ++ handle ++ "@users.noreply.github.com")%string ->
      extractUsername email name = Some handle)
  /\ (forall before handle rest : string,
         allChars (fun c => negb (Ascii.eqb "@" c)) before = true ->
         handle <> "" -> allChars handleChar handle = true ->
         blocked handleChar rest = true ->
         name = (before ++ "@" ++ handle ++ rest)%string ->
         noReplyHandle email = None -> githubDomain email = false ->
         extractUsername email name = Some handle).
Proof.
  split.
  - intros digits handle Hd Hdigits Hh Hhandle ->.
    unfold extractUsername. now rewrite noReplyHandle_form.
  - intros before handle rest Hbefore Hh Hhandle Hrest -> Hnoreply Hdomain.
    unfold extractUsername. rewrite Hnoreply, Hdomain.
    now rewrite mentionInName_form.
Qed.

(** A name that mentions [@bar] with an e-mail of the no-reply form: the
    handle returned is the one of the e-mail. *)
Example extractUsername_email_first_example :
  mentionInName "Foo @bar" = Some "bar"
  /\ extractUsername "12345+octocat@users.noreply.github.com" "Foo @bar"
     = Some "octocat".
Proof. split; reflexivity. Qed.

(** The e-mail [12345+octocat@users.noreply.github.com] with an empty name
    gives [octocat]. *)
Example extractUsername_octocat :
  extractUsername "12345+octocat@users.noreply.github.com" "" = Some "octocat".
Proof. reflexivity. Qed.

End NormalizerProperties.

(* ------------------------------------------------------------------ *)
(** ** The registry *)

Section RegistryFacts.
Import Js Registry.

Lemma get_In (k : string) (m : registry) (d : contributor) :
  get k m = Some d -> In (k, d) m.
Proof.
  induction m as [| [k' d'] m IH]; simpl; [discriminate |].
  destruct (String.eqb_spec k' k) as [-> | Hne].
  - intros [= ->]. now left.
  - intros H. right. now apply IH.
Qed.

Lemma In_get (k : string) (m : registry) (d : contributor) :
  NoDup (keys m) -> In (k, d) m -> get k m = Some d.
Proof.
  induction m as [| [k' d'] m IH]; simpl; [contradiction |].
  intros Hnd [Heq | Hin].
  - injection Heq as -> ->. now rewrite String.eqb_refl.
  - inversion Hnd as [| ? ? Hk' Hnd']; subst.
    destruct (String.eqb_spec k' k) as [-> | Hne].
    + exfalso. apply Hk'. apply (in_map fst) in Hin. exact Hin.
    + now apply IH.
Qed.

Lemma has_keys (k : string) (m : registry) : has k m = true <-> In k (keys m).
Proof.
  unfold has. induction m as [| [k' d'] m IH]; simpl.
  - split; [discriminate | contradiction].
  - destruct (String.eqb_spec k' k) as [-> | Hne].
    + split; auto.
    + rewrite IH. split; [auto | intros [H | H]; [contradiction | exact H]].
Qed.

Lemma has_false_keys (k : string) (m : registry) : has k m = false <-> ~ In k (keys m).
Proof.
  rewrite <- has_keys. destruct (has k m); split; congruence.
Qed.

Lemma keys_update (k : string) (f : contributor -> contributor) (m : registry) :
  keys (update k f m) = keys m.
Proof.
  induction m as [| [k' d'] m IH]; simpl; [reflexivity |].
  destruct (k' =? k); simpl; [reflexivity | now rewrite IH].
Qed.

Lemma get_update_same (k : string) (f : contributor -> contributor) (m : registry)
    (d : contributor) :
  get k m = Some d -> get k (update k f m) = Some (f d).
Proof.
  induction m as [| [k' d'] m IH]; simpl; [discriminate |].
  destruct (String.eqb_spec k' k) as [-> | Hne]; simpl.
  - rewrite String.eqb_refl. now intros [= ->].
  - destruct (String.eqb_spec k' k); [contradiction | exact IH].
Qed.

Lemma get_update_other (k k' : string) (f : contributor -> contributor) (m : registry) :
  k' <> k -> get k' (update k f m) = get k' m.
Proof.
  intros Hne. induction m as [| [k0 d0] m IH]; simpl; [reflexivity |].
  destruct (String.eqb_spec k0 k) as [-> | Hne0]; simpl.
  - destruct (String.eqb_spec k k'); [congruence | reflexivity].
  - destruct (k0 =? k'); [reflexivity | exact IH].
Qed.

Lemma has_update (k k' : string) (f : contributor -> contributor) (m : registry) :
  has k' (update k f m) = has k' m.
Proof.
  destruct (has k' m) eqn:H.
  - apply has_keys. rewrite keys_update. now apply has_keys.
  - apply has_false_keys. rewrite keys_update. now apply has_false_keys.
Qed.

Lemma set_fresh (k : string) (d : contributor) (m : registry) :
  has k m = false -> set k d m = m ++ [(k, d)].
Proof. unfold set. now intros ->. Qed.

Lemma keys_app (m m' : registry) : keys (m ++ m') = keys m ++ keys m'.
Proof. unfold keys. apply map_app. Qed.

Lemma get_app_fresh (k : string) (d : contributor) (m : registry) :
  has k m = false -> get k (m ++ [(k, d)]) = Some d.
Proof.
  unfold has. induction m as [| [k' d'] m IH]; simpl.
  - now rewrite String.eqb_refl.
  - destruct (k' =? k); [discriminate | exact IH].
Qed.

Lemma get_app_other (k k' : string) (d : contributor) (m : registry) :
  k' <> k -> get k' (m ++ [(k, d)]) = get k' m.
Proof.
  intros Hne. induction m as [| [k0 d0] m IH]; simpl.
  - destruct (String.eqb_spec k k'); [congruence | reflexivity].
  - destruct (k0 =? k'); [reflexivity | exact IH].
Qed.

Lemma NoDup_keys_fresh (k : string) (d : contributor) (m : registry) :
  NoDup (keys m) -> has k m = false -> NoDup (keys (m ++ [(k, d)])).
Proof.
  intros Hnd Hk. rewrite keys_app. simpl.
  apply NoDup_app; [exact Hnd | repeat constructor; auto |].
  intros x Hx [<- | []]. apply has_false_keys in Hk. contradiction.
Qed.

(** The record [findByEmail] finds stores the e-mail, up to case. *)
Lemma findByEmail_Some (e k : string) (m : registry) :
  findByEmail e m = Some k ->
  exists (d : contributor) (stored : string),
    In (k, d) m /\ email d = Some stored /\ stored <> ""
    /\ toLowerCase stored = e.
Proof.
  induction m as [| [k' d'] m IH]; simpl; [discriminate |].
  destruct (email d') as [stored |] eqn:Hemail.
  - destruct (truthy stored && (toLowerCase stored =? e)) eqn:Hmatch.
    + intros [= <-]. apply andb_true_iff in Hmatch. destruct Hmatch as [Ht He].
      exists d', stored. repeat split; auto.
      * now apply truthy_true.
      * now apply String.eqb_eq.
    + intros H. destruct (IH H) as (d & st & Hin & Hd & Hne & Hlow).
      exists d, st. auto.
  - intros H. destruct (IH H) as (d & st & Hin & Hd & Hne & Hlow).
    exists d, st. auto.
Qed.

(** Without a find, no record stores the e-mail. *)
Lemma findByEmail_None (e : string) (m : registry) :
  findByEmail e m = None ->
  forall (k : string) (d : contributor) (stored : string),
    In (k, d) m -> email d = Some stored -> stored <> "" ->
    toLowerCase stored <> e.
Proof.
  induction m as [| [k' d'] m IH]; simpl; [contradiction |].
  intros Hfind k d stored [Heq | Hin] Hemail Hne.
  - injection Heq as -> ->. rewrite Hemail in Hfind.
    apply truthy_true in Hne. rewrite Hne in Hfind. simpl in Hfind.
    destruct (String.eqb_spec (toLowerCase stored) e); [discriminate | assumption].
  - apply (IH) with (k := k) (d := d); auto.
    destruct (email d') as [st |]; [| exact Hfind].
    destruct (truthy st && (toLowerCase st =? e)); [discriminate | exact Hfind].
Qed.

(** Decimal texts of different counts differ. *)
Lemma numberToString_inj (i j : nat) : numberToString i = numberToString j -> i = j.
Proof.
  unfold numberToString. intros H.
  apply DecimalNat.Unsigned.to_uint_inj.
  assert (Hs : Some (Nat.to_uint i) = Some (Nat.to_uint j))
    by (rewrite <- !NilEmpty.usu; now rewrite H).
  now injection Hs.
Qed.

Lemma append_inj_l (a x y : string) : (a ++ x)%string = (a ++ y)%string -> x = y.
Proof.
  induction a as [| c a IH]; simpl; [auto |]. intros [= H]. now apply IH.
Qed.

Lemma candidateAt_inj (username : string) : Injective (candidateAt username).
Proof.
  intros i j H. destruct i as [| i], j as [| j]; simpl in H.
  - reflexivity.
  - apply (f_equal String.length) in H. rewrite length_append in H. simpl in H. lia.
  - apply (f_equal String.length) in H. rewrite length_append in H. simpl in H. lia.
  - apply append_inj_l in H. injection H as H. now apply numberToString_inj.
Qed.

(** What the loop returns from the [j]-th name on: the first name from there
    that is free, unless the rounds run out first. *)
Lemma uniqueUsername_spec (m : registry) (username : string) (n j : nat) :
  exists j' : nat,
    (j <= j' <= j + n)%nat
    /\ uniqueUsername n m username (candidateAt username j) (S j)
       = candidateAt username j'
    /\ (forall i, (j <= i < j')%nat -> has (candidateAt username i) m = true)
    /\ ((j' < j + n)%nat -> has (candidateAt username j') m = false).
Proof.
  revert j. induction n as [| n IH]; intros j.
  - exists j. simpl. repeat split; intros; lia.
  - simpl. destruct (has (candidateAt username j) m) eqn:Hhas.
    + destruct (IH (S j)) as (j' & Hj' & Heq & Hall & Hfree).
      exists j'. split; [lia |]. split; [exact Heq |]. split.
      * intros i Hi. destruct (Nat.eq_dec i j) as [-> | Hne]; [exact Hhas |].
        apply Hall. lia.
      * intros Hlt. apply Hfree. lia.
    + exists j. split; [lia |]. split; [reflexivity |]. split.
      * intros i Hi. lia.
      * intros _. exact Hhas.
Qed.

(** The loop ends on a key the registry does not hold: among [size m + 1]
    different names one is free. *)
Lemma finalUsername_fresh (name email : string) (m : registry) :
  has (finalUsername name email m) m = false.
Proof.
  unfold finalUsername.
  set (u := coAuthorUsername name email m).
  destruct (uniqueUsername_spec m u (size m) 0) as (j' & Hj' & Heq & Hall & Hfree).
  change u with (candidateAt u 0) at 2. rewrite Heq.
  destruct (has (candidateAt u j') m) eqn:Hhas; [| reflexivity].
  exfalso.
  assert (Hlast : j' = size m).
  { destruct (Nat.eq_dec j' (size m)) as [E | NE]; [exact E |].
    assert (Hfalse : true = false) by (apply Hfree; lia). discriminate. }
  assert (Hincl : incl (map (candidateAt u) (seq 0 (S (size m)))) (keys m)).
  { intros x Hx. apply in_map_iff in Hx. destruct Hx as (i & <- & Hi).
    apply in_seq in Hi. apply has_keys.
    destruct (Nat.eq_dec i j') as [-> | NE]; [exact Hhas | apply Hall; lia]. }
  apply NoDup_incl_length in Hincl.
  - rewrite length_map, length_seq in Hincl. unfold keys, size in *.
    rewrite length_map in Hincl. lia.
  - apply Injective_map_NoDup; [apply candidateAt_inj | apply seq_NoDup].
Qed.

End RegistryFacts.

Section RegistryProperties.
Import Js Registry Samples.

Lemma In_setAdd (x y : string) (s : list string) :
  In y (setAdd x s) <-> y = x \/ In y s.
Proof.
  unfold setAdd, setHas. destruct (existsb (String.eqb x) s) eqn:Hx.
  - apply existsb_exists in Hx. destruct Hx as (z & Hz & Heq).
    apply String.eqb_eq in Heq. subst z.
    split; [auto | intros [-> | H]; assumption].
  - rewrite in_app_iff. simpl. split.
    + intros [H | [H | []]]; auto.
    + intros [-> | H]; auto.
Qed.

(** The enhanced collector generates the key of a co-author in line, from
    the name, the e-mail and the number of records of the registry.  The key
    is never empty.  It is the cleaned name when that has two characters or
    more; otherwise it is the placeholder [contributor-<n>] with [n] the size
    of the registry plus one, so that the same input gets the same
    placeholder exactly when the registry has the same size. *)
Lemma coAuthorUsername_size (name email : string) (m : registry) :
  coAuthorUsername name email m <> ""
  /\ (forall m' : registry,
         size m' = size m ->
         coAuthorUsername name email m' = coAuthorUsername name email m)
  /\ ((2 <= String.length (cleanUsername name email))%nat ->
      coAuthorUsername name email m = cleanUsername name email)
  /\ ((String.length (cleanUsername name email) < 2)%nat ->
      coAuthorUsername name email m
      = ("contributor-" ++ numberToString (size m + 1))%string
      /\ forall m' : registry,
          coAuthorUsername name email m' = coAuthorUsername name email m
          <-> size m' = size m).
Proof.
  unfold coAuthorUsername.
  destruct (Nat.ltb_spec (String.length (cleanUsername name email)) 2) as [Hshort | Hlong].
  - repeat split; try discriminate; try lia.
    + intros m' ->. reflexivity.
    + intros Heq. apply append_inj_l in Heq. apply numberToString_inj in Heq. lia.
    + intros ->. reflexivity.
  - repeat split; try lia.
    intros Heq. rewrite Heq in Hlong. simpl in Hlong. lia.
Qed.

(** The same co-author, blank name and e-mail [a@x.com], gets the key
    [contributor-1] on the empty registry and [contributor-2] on a registry
    of one record; and [extractUsername] has no handle for the e-mail
    [7@x.com]. *)
Example coAuthorUsername_size_example :
  coAuthorUsername "" "a@x.com" [] = "contributor-1"
  /\ coAuthorUsername "" "a@x.com" sampleRegistry = "contributor-2"
  /\ Normalizer.extractUsername "7@x.com" "" = None.
Proof. repeat split. Qed.

(** C3, as the code has it: a co-author is merged into the first record
    whose stored e-mail equals the candidate's up to case, which gains one
    contribution and the repository; without such a record a new record is
    appended under a key the registry does not hold yet, also when the handle
    of the candidate is the key of an existing record. *)
Theorem processCoAuthor_upsert (repoName : string) (m : registry)
    (c : Extractor.candidate) :
  NoDup (keys m) ->
  (forall k : string,
      findByEmail (toLowerCase (Extractor.email c)) m = Some k ->
      exists (d d' : contributor) (stored : string),
        get k m = Some d
        /\ email d = Some stored
        /\ toLowerCase stored = toLowerCase (Extractor.email c)
        /\ keys (processCoAuthor repoName m c) = keys m
        /\ get k (processCoAuthor repoName m c) = Some d'
        /\ contributions d' = (contributions d + 1)%Z
        /\ (forall r, In r (repositories d') <-> r = repoName \/ In r (repositories d))
        /\ (forall k', k' <> k -> get k' (processCoAuthor repoName m c) = get k' m))
  /\ (findByEmail (toLowerCase (Extractor.email c)) m = None ->
      (forall (k : string) (d : contributor) (stored : string),
          In (k, d) m -> email d = Some stored -> stored <> "" ->
          toLowerCase stored <> toLowerCase (Extractor.email c))
      /\ exists key : string,
          has key m = false
          /\ processCoAuthor repoName m c
             = m ++ [(key, freshCoAuthor key repoName
                             (Extractor.name c) (Extractor.email c))]).
Proof.
  intros Hnd. unfold processCoAuthor. split.
  - intros k Hfind. rewrite Hfind.
    destruct (findByEmail_Some _ _ _ Hfind) as (d & stored & Hin & Hemail & _ & Hlow).
    apply (In_get _ _ _ Hnd) in Hin.
    exists d, (credit 1 repoName d), stored.
    repeat split; auto.
    + apply keys_update.
    + now apply get_update_same.
    + simpl. intros H. now apply In_setAdd.
    + simpl. intros H. now apply In_setAdd.
    + intros k' Hne. now apply get_update_other.
  - intros Hfind. rewrite Hfind. split.
    + now apply findByEmail_None.
    + exists (finalUsername (Extractor.name c) (Extractor.email c) m).
      split; [apply finalUsername_fresh |].
      apply set_fresh, finalUsername_fresh.
Qed.

Lemma processCoAuthor_upsert_witness :
  (forall (k : string) (d : contributor) (stored : string),
      In (k, d) sampleRegistry -> email d = Some stored -> stored <> "" ->
      toLowerCase stored <> toLowerCase (Extractor.email sampleCoAuthor))
  /\ exists key : string,
      has key sampleRegistry = false
      /\ processCoAuthor "repo" sampleRegistry sampleCoAuthor
         = sampleRegistry
           ++ [(key, freshCoAuthor key "repo" (Extractor.name sampleCoAuthor)
                       (Extractor.email sampleCoAuthor))].
Proof.
  apply (proj2 (processCoAuthor_upsert "repo" sampleRegistry sampleCoAuthor
                  ltac:(repeat constructor; simpl; tauto))).
  reflexivity.
Defined.

(** The handle of the co-author [Bob <bob@x.com>] is [bob], the key of the
    record of the direct contributor; the upsert leaves that record as it
    is and appends a record under [bob-1]. *)
Lemma processCoAuthor_upsert_counterexample :
  coAuthorUsername "Bob" "bob@x.com" sampleRegistry = "bob"
  /\ has "bob" sampleRegistry = true
  /\ keys (processCoAuthor "repo" sampleRegistry sampleCoAuthor) = ["bob"; "bob-1"]
  /\ get "bob" (processCoAuthor "repo" sampleRegistry sampleCoAuthor)
     = get "bob" sampleRegistry.
Proof. repeat split. Qed.

(** *** The keys of the registry stay unique *)

Lemma upsertLogin_unique_keys (repoName : string) (u : apiUser) (delta : Z)
    (m : registry) :
  NoDup (keys m) -> NoDup (keys (upsertLogin repoName u delta m)).
Proof.
  intros Hnd. unfold upsertLogin.
  destruct (negb (truthy (user_login u))); [exact Hnd |].
  cbv zeta. rewrite keys_update.
  destruct (has (toLowerCase (user_login u)) m) eqn:Hhas; cbn [negb]; [exact Hnd |].
  rewrite (set_fresh _ _ _ Hhas). now apply NoDup_keys_fresh.
Qed.

Lemma processCoAuthor_unique_keys (repoName : string) (m : registry)
    (c : Extractor.candidate) :
  NoDup (keys m) -> NoDup (keys (processCoAuthor repoName m c)).
Proof.
  intros Hnd. unfold processCoAuthor.
  destruct (findByEmail _ m) as [k |]; [now rewrite keys_update |].
  rewrite set_fresh by apply finalUsername_fresh.
  apply NoDup_keys_fresh; [exact Hnd | apply finalUsername_fresh].
Qed.

Lemma fold_left_invariant {A B : Type} (P : A -> Prop) (f : A -> B -> A) (l : list B) :
  (forall a b, P a -> P (f a b)) -> forall a, P a -> P (fold_left f l a).
Proof.
  intros Hf. induction l as [| b l IH]; intros a Ha; simpl; auto.
Qed.

Lemma processCommit_unique_keys (repoName : string) (m : registry) (c : apiCommit) :
  NoDup (keys m) -> NoDup (keys (processCommit repoName m c)).
Proof.
  intros Hnd. unfold processCommit.
  destruct (negb (truthy (message c))); [exact Hnd |].
  apply (fold_left_invariant (fun m => NoDup (keys m))).
  - intros a b. apply processCoAuthor_unique_keys.
  - unfold processCommitAuthor. destruct (author c); [| exact Hnd].
    now apply upsertLogin_unique_keys.
Qed.

(** Every registry the scan builds has unique keys. *)
Lemma scan_unique_keys (repos : list apiRepo) : NoDup (keys (scan repos)).
Proof.
  unfold scan. apply (fold_left_invariant (fun m => NoDup (keys m))); [| constructor].
  intros m repo Hnd. unfold processRepo.
  apply (fold_left_invariant (fun m => NoDup (keys m))).
  - intros a b. apply processCommit_unique_keys.
  - apply (fold_left_invariant (fun m => NoDup (keys m))); [| exact Hnd].
    intros a b. unfold processContributor. apply upsertLogin_unique_keys.
Qed.

Lemma keys_resolve (found : list (string * githubUser)) (m : registry) :
  keys (resolve found m) = keys m.
Proof. unfold keys, resolve. rewrite map_map. reflexivity. Qed.

Lemma total_resolve (found : list (string * githubUser)) (m : registry) :
  total (resolve found m) = total m.
Proof.
  unfold total, resolve. induction m as [| [k d] m IH]; simpl; [reflexivity |].
  rewrite IH. f_equal. unfold resolveOne.
  destruct (email d) as [e |]; [| reflexivity].
  destruct (truthy e && pending_github_lookup d); [| reflexivity].
  destruct (lookup (toLowerCase e) found); reflexivity.
Qed.

End RegistryProperties.

(* ------------------------------------------------------------------ *)
(** ** Deduplication: contributions *)

Section MergeFacts.
Import Js Registry Dedup.

Lemma flat_map_ext_In {A B : Type} (f g : A -> list B) (l : list A) :
  (forall x, In x l -> f x = g x) -> flat_map f l = flat_map g l.
Proof.
  induction l as [| a l IH]; intros H; simpl; [reflexivity |].
  rewrite (H a) by now left. rewrite IH; [reflexivity |].
  intros x Hx. apply H. now right.
Qed.

Lemma total_update (k : string) (f : contributor -> contributor) (m : registry)
    (d : contributor) :
  get k m = Some d ->
  total (update k f m) = (total m - contributions d + contributions (f d))%Z.
Proof.
  induction m as [| [k' d'] m IH]; simpl; [discriminate |].
  destruct (String.eqb_spec k' k) as [-> | Hne].
  - intros [= ->]. unfold total. simpl. lia.
  - intros H. unfold total in *. simpl. rewrite (IH H). lia.
Qed.

Lemma total_delete (k : string) (m : registry) (d : contributor) :
  get k m = Some d -> total (delete k m) = (total m - contributions d)%Z.
Proof.
  induction m as [| [k' d'] m IH]; simpl; [discriminate |].
  destruct (String.eqb_spec k' k) as [-> | Hne].
  - intros [= ->]. unfold total. simpl. lia.
  - intros H. unfold total in *. simpl. rewrite (IH H). lia.
Qed.

Lemma keys_delete_incl (k : string) (m : registry) : incl (keys (delete k m)) (keys m).
Proof.
  induction m as [| [k' d'] m IH]; simpl; [apply incl_refl |].
  destruct (k' =? k); simpl.
  - apply incl_tl, incl_refl.
  - intros x [<- | Hx]; [now left | right; now apply IH].
Qed.

Lemma NoDup_keys_delete (k : string) (m : registry) :
  NoDup (keys m) -> NoDup (keys (delete k m)).
Proof.
  induction m as [| [k' d'] m IH]; simpl; [auto |].
  intros Hnd. inversion Hnd as [| ? ? Hk' Hnd']; subst.
  destruct (k' =? k); simpl; [assumption |].
  constructor; [| now apply IH].
  intros Hin. apply Hk'. now apply (keys_delete_incl k m).
Qed.

Lemma get_delete_same (k : string) (m : registry) :
  NoDup (keys m) -> get k (delete k m) = None.
Proof.
  induction m as [| [k' d'] m IH]; simpl; [reflexivity |].
  intros Hnd. inversion Hnd as [| ? ? Hk' Hnd']; subst.
  destruct (String.eqb_spec k' k) as [-> | Hne]; simpl.
  - destruct (get k m) eqn:Hget; [| reflexivity].
    exfalso. apply Hk'. apply get_In in Hget. now apply (in_map fst) in Hget.
  - destruct (String.eqb_spec k' k); [contradiction | now apply IH].
Qed.

Lemma get_delete_other (k k' : string) (m : registry) :
  k' <> k -> get k' (delete k m) = get k' m.
Proof.
  intros Hne. induction m as [| [k0 d0] m IH]; simpl; [reflexivity |].
  destruct (String.eqb_spec k0 k) as [-> | Hne0]; simpl.
  - destruct (String.eqb_spec k k'); [congruence | reflexivity].
  - destruct (k0 =? k'); [reflexivity | exact IH].
Qed.

(** The live, unmerged logins of a set carry the records the registry holds
    for them. *)
Lemma validEntries_In (m : registry) (mergedLogins ls : list string)
    (l : string) (d : contributor) :
  In (l, d) (validEntries m mergedLogins ls) <->
  In l ls /\ get l m = Some d /\ setHas l mergedLogins = false.
Proof.
  unfold validEntries. rewrite in_flat_map. split.
  - intros (x & Hx & Hin). destruct (get x m) as [dx |] eqn:Hget; [| contradiction].
    destruct (setHas x mergedLogins) eqn:Hm; [contradiction |].
    destruct Hin as [[= -> ->] | []]. auto.
  - intros (Hin & Hget & Hm). exists l. split; [exact Hin |].
    rewrite Hget, Hm. now left.
Qed.

Lemma validEntries_NoDup (m : registry) (mergedLogins ls : list string) :
  NoDup ls -> NoDup (map fst (validEntries m mergedLogins ls)).
Proof.
  induction ls as [| l ls IH]; simpl; [constructor |].
  intros Hnd. inversion Hnd as [| ? ? Hl Hnd']; subst.
  destruct (get l m) as [d |] eqn:Hget; [| now apply IH].
  destruct (setHas l mergedLogins); [now apply IH |].
  simpl. constructor; [| now apply IH].
  intros Hin. apply in_map_iff in Hin. destruct Hin as ([l' d'] & Heq & Hin).
  simpl in Heq. subst l'. apply validEntries_In in Hin. tauto.
Qed.

(** The loop "Merge data from other logins" over logins that are all live:
    it throws nothing; the primary gains the contributions of the others and
    an alias for each, in order; the others leave the registry; the sum over
    the registry is unchanged. *)
Lemma absorb_loop (t : dupType) (primaryLogin : string) (ls : list string) :
  NoDup ls ->
  forall (m : registry) (mergedLogins : list string) (primaryData : contributor),
    NoDup (keys m) ->
    get primaryLogin m = Some primaryData ->
    (forall l, In l ls -> has l m = true) ->
    exists (m' : registry) (mergedLogins' : list string) (merged : contributor),
      fold_left (absorbLogin t primaryLogin) ls (Some (m, mergedLogins))
      = Some (m', mergedLogins')
      /\ NoDup (keys m')
      /\ total m' = total m
      /\ get primaryLogin m' = Some merged
      /\ contributions merged
         = (contributions primaryData + sumContributions (others m primaryLogin ls))%Z
      /\ aliasesOf merged
         = aliasesOf primaryData ++ map (asAlias t) (others m primaryLogin ls)
      /\ (forall l, In l ls -> l <> primaryLogin -> get l m' = None)
      /\ (forall k, ~ In k ls -> k <> primaryLogin -> get k m' = get k m).
Proof.
  induction ls as [| l ls IH]; intros Hnd m mergedLogins primaryData Hkeys Hprimary Hlive.
  - exists m, mergedLogins, primaryData. simpl.
    unfold sumContributions, total. simpl.
    rewrite app_nil_r, Z.add_0_r. repeat split; auto. intros l [].
  - inversion Hnd as [| ? ? Hl Hnd']; subst.
    change (fold_left (absorbLogin t primaryLogin) (l :: ls) (Some (m, mergedLogins)))
      with (fold_left (absorbLogin t primaryLogin) ls
              (absorbLogin t primaryLogin (Some (m, mergedLogins)) l)).
    unfold absorbLogin at 2.
    destruct (String.eqb_spec l primaryLogin) as [-> | Hne].
    + destruct (IH Hnd' m mergedLogins primaryData Hkeys Hprimary)
        as (m' & mg' & merged & Hfold & Hk' & Htot & Hget & Hc & Ha & Hgone & Hsame).
      { intros l' Hl'. apply Hlive. now right. }
      exists m', mg', merged. simpl others. rewrite String.eqb_refl. simpl.
      split; [exact Hfold |]. split; [exact Hk' |]. split; [exact Htot |].
      split; [exact Hget |]. split; [exact Hc |]. split; [exact Ha |]. split.
      * intros l' [<- | Hl'] Hne'; [contradiction | now apply Hgone].
      * intros k Hk Hkp. apply Hsame; auto.
    + assert (Hhas : has l m = true) by (apply Hlive; now left).
      unfold has in Hhas. destruct (get l m) as [data |] eqn:Hdata; [| discriminate].
      set (m1 := delete l (update primaryLogin (absorb t l data) m)).
      assert (Hget1 : forall k, k <> l -> k <> primaryLogin -> get k m1 = get k m).
      { intros k Hkl Hkp. unfold m1.
        rewrite get_delete_other by assumption. now apply get_update_other. }
      assert (Hprimary1 : get primaryLogin m1 = Some (absorb t l data primaryData)).
      { unfold m1. rewrite get_delete_other by congruence.
        now apply get_update_same. }
      assert (Hkeys1 : NoDup (keys m1)).
      { unfold m1. apply NoDup_keys_delete. now rewrite keys_update. }
      assert (Htot1 : total m1 = total m).
      { unfold m1. rewrite (total_delete l _ data).
        - rewrite (total_update _ _ _ _ Hprimary). simpl. lia.
        - rewrite get_update_other by exact Hne. exact Hdata. }
      assert (Hlive1 : forall l', In l' ls -> has l' m1 = true).
      { intros l' Hl'. unfold has.
        destruct (String.eqb_spec l' primaryLogin) as [-> | NE].
        - now rewrite Hprimary1.
        - rewrite Hget1; [apply Hlive; now right | | exact NE].
          intros ->. contradiction. }
      assert (Hothers : others m1 primaryLogin ls = others m primaryLogin ls).
      { unfold others. apply flat_map_ext_In. intros l' Hl'.
        destruct (String.eqb_spec l' primaryLogin) as [E | NE]; [reflexivity |].
        rewrite Hget1; [reflexivity | | exact NE].
        intros ->. contradiction. }
      destruct (IH Hnd' m1 (setAdd l mergedLogins) (absorb t l data primaryData)
                   Hkeys1 Hprimary1 Hlive1)
        as (m' & mg' & merged & Hfold & Hk' & Htot & Hget & Hc & Ha & Hgone & Hsame).
      exists m', mg', merged. simpl others.
      destruct (String.eqb_spec l primaryLogin); [contradiction |].
      rewrite Hdata. rewrite Hothers in Hc, Ha.
      split; [exact Hfold |]. split; [exact Hk' |]. split; [congruence |].
      split; [exact Hget |]. split; [| split; [| split]].
      * rewrite Hc. unfold sumContributions, total. simpl. lia.
      * rewrite Ha. unfold aliasesOf at 1. simpl. rewrite <- app_assoc. reflexivity.
      * intros l' [<- | Hl'] Hne'.
        -- rewrite Hsame; auto. unfold m1. apply get_delete_same.
           now rewrite keys_update.
        -- now apply Hgone.
      * intros k Hk Hkp. rewrite Hsame.
        -- apply Hget1; auto. intros ->. apply Hk. now left.
        -- intros Hin. apply Hk. now right.
        -- exact Hkp.
Qed.

End MergeFacts.

(* ------------------------------------------------------------------ *)
(** ** Numbers: rounding never yields NaN, and the order is total *)

Section NumFacts.
Import Num.

Lemma iter_pos_invariant {A : Type} (P : A -> Prop) (f : A -> A) :
  (forall x, P x -> P (f x)) ->
  forall (n : positive) (x : A), P x -> P (iter_pos f n x).
Proof.
  intros Hf. induction n as [n IH | n IH |]; intros x Hx; simpl; auto.
Qed.

Lemma shr_1_nonneg (mrs : shr_record) : (0 <= shr_m mrs)%Z -> (0 <= shr_m (shr_1 mrs))%Z.
Proof.
  destruct mrs as [m r s]. simpl.
  destruct m as [| p | p]; simpl; intros H; try lia.
  - destruct p; simpl; lia.
Qed.

Lemma shr_nonneg (mrs : shr_record) (e n : Z) :
  (0 <= shr_m mrs)%Z -> (0 <= shr_m (fst (shr mrs e n)))%Z.
Proof.
  intros H. unfold shr. destruct n as [| p | p]; simpl; auto.
  apply (iter_pos_invariant (fun x => (0 <= shr_m x)%Z)); auto.
  apply shr_1_nonneg.
Qed.

Lemma shr_fexp_nonneg (m e : Z) (l : location) :
  (0 <= m)%Z -> (0 <= shr_m (fst (shr_fexp prec emax m e l)))%Z.
Proof.
  intros H. unfold shr_fexp. apply shr_nonneg.
  destruct l as [| []]; exact H.
Qed.

Lemma round_nearest_even_nonneg (m : Z) (l : location) :
  (0 <= m)%Z -> (0 <= round_nearest_even m l)%Z.
Proof.
  intros H. unfold round_nearest_even.
  destruct l as [| []]; try lia. destruct (Z.even m); lia.
Qed.

Lemma binary_round_aux_not_nan (sx : bool) (mx ex : Z) (lx : location) :
  (0 <= mx)%Z -> isNaN (binary_round_aux prec emax sx mx ex lx) = false.
Proof.
  intros H. unfold binary_round_aux.
  pose proof (shr_fexp_nonneg mx ex lx H) as H1.
  destruct (shr_fexp prec emax mx ex lx) as [mrs' e']. simpl in H1.
  pose proof (shr_fexp_nonneg _ e' loc_Exact
                (round_nearest_even_nonneg _ (loc_of_shr_record mrs') H1)) as H2.
  destruct (shr_fexp prec emax (round_nearest_even (shr_m mrs') (loc_of_shr_record mrs'))
              e' loc_Exact) as [mrs'' e'']. simpl in H2.
  destruct (shr_m mrs'') as [| p | p]; try reflexivity.
  - destruct (e'' <=? emax - prec)%Z; reflexivity.
  - lia.
Qed.

Lemma binary_normalize_not_nan (m e : Z) (szero : bool) :
  isNaN (binary_normalize prec emax m e szero) = false.
Proof.
  unfold binary_normalize, binary_round.
  destruct m as [| p | p]; [reflexivity | |];
    destruct (shl_align _ _ _) as [mz ez]; apply binary_round_aux_not_nan; lia.
Qed.

Lemma ofZ_not_nan (n : Z) : isNaN (ofZ n) = false.
Proof. apply binary_normalize_not_nan. Qed.

(** Adding a finite number keeps a number a number. *)
Lemma add_finite_not_nan (x : num) (s : bool) (m : positive) (e : Z) :
  isNaN x = false -> isNaN (add x (S754_finite s m e)) = false.
Proof.
  unfold add. destruct x as [sx | sx | | sx mx ex]; simpl; intros H;
    try reflexivity; try discriminate.
  apply binary_normalize_not_nan.
Qed.

(** Multiplying by a finite number that is not zero keeps a number a number. *)
Lemma mul_finite_not_nan (x : num) (s : bool) (m : positive) (e : Z) :
  isNaN x = false -> isNaN (mul x (S754_finite s m e)) = false.
Proof.
  unfold mul. destruct x as [sx | sx | | sx mx ex]; simpl; intros H;
    try reflexivity; try discriminate.
  apply binary_round_aux_not_nan. lia.
Qed.

(** Numbers compare. *)
Lemma compare_total (x y : num) :
  isNaN x = false -> isNaN y = false -> exists c, SFcompare x y = Some c.
Proof.
  destruct x, y; simpl; intros Hx Hy; try discriminate; eauto.
Qed.

Lemma compare_Gt_Lt (x y : num) :
  SFcompare x y = Some Gt -> SFcompare y x = Some Lt.
Proof.
  destruct x as [sx | sx | | sx mx ex], y as [sy | sy | | sy my ey]; simpl;
    try discriminate;
    try (destruct sx; discriminate || reflexivity);
    try (destruct sy; discriminate || reflexivity);
    try (destruct sx, sy; discriminate || reflexivity).
  destruct sx, sy; try discriminate; try reflexivity;
    rewrite (Z.compare_antisym ex ey);
    change (Pos.compare_cont Eq my mx) with (Pos.compare my mx);
    change (Pos.compare_cont Eq mx my) with (Pos.compare mx my);
    rewrite (Pos.compare_antisym mx my);
    destruct (ex ?= ey)%Z; simpl; try discriminate; try reflexivity;
    destruct (mx ?= my)%positive; simpl; try discriminate; reflexivity.
Qed.

Lemma ltb_leb (x y : num) : ltb x y = true -> leb x y = true.
Proof.
  unfold ltb, leb, SFltb, SFleb.
  destruct (SFcompare x y) as [[] |]; congruence.
Qed.

Lemma leb_trans (x y z : num) : leb x y = true -> leb y z = true -> leb x z = true.
Proof.
  unfold leb, SFleb.
  destruct x as [sx | sx | | sx mx ex], y as [sy | sy | | sy my ey],
           z as [sz | sz | | sz mz ez]; simpl;
    try discriminate; try reflexivity;
    try (destruct sx; simpl; discriminate || reflexivity);
    try (destruct sy; simpl; discriminate || reflexivity);
    try (destruct sz; simpl; discriminate || reflexivity);
    try (destruct sx, sy; simpl; discriminate || reflexivity);
    try (destruct sx, sz; simpl; discriminate || reflexivity);
    try (destruct sy, sz; simpl; discriminate || reflexivity);
    try (destruct sx, sy, sz; simpl; discriminate || reflexivity).
  change (Pos.compare_cont Eq mx my) with (Pos.compare mx my).
  change (Pos.compare_cont Eq my mz) with (Pos.compare my mz).
  change (Pos.compare_cont Eq mx mz) with (Pos.compare mx mz).
  destruct sx, sy, sz; try discriminate; try reflexivity;
    destruct (Z.compare_spec ex ey), (Z.compare_spec ey ez), (Z.compare_spec ex ez);
    try lia; try discriminate; try reflexivity; subst;
    destruct (Pos.compare_spec mx my), (Pos.compare_spec my mz),
             (Pos.compare_spec mx mz);
    simpl; try lia; try discriminate; try reflexivity.
Qed.

End NumFacts.

(* ------------------------------------------------------------------ *)
(** ** Deduplication: the primary of a set *)

Section ScoreFacts.
Import Js Registry Dedup Num Samples.

(** The score, term by term. *)
Lemma score_terms (login : string) (data : contributor) :
  score login data
  = bonus (noSpace login) 5
      (bonus (notPlaceholder login) 20
         (bonus (hasGithubAvatar data) 30
            (bonus (loginIsGithubLogin login data) 50
               (bonus (hasGithubLogin data) 100
                  (add (ofZ 0) (mul (ofZ (contributions data)) tenth)))))).
Proof.
  unfold score, bonus, noSpace, notPlaceholder, hasGithubAvatar, loginIsGithubLogin,
    hasGithubLogin.
  destruct (github_login data) as [g |]; destruct (avatar_url data) as [a |];
    reflexivity.
Qed.

Lemma bonus_not_nan (b : bool) (k : Z) (x : num) (s : bool) (m : positive) (e : Z) :
  ofZ k = S754_finite s m e -> isNaN x = false -> isNaN (bonus b k x) = false.
Proof.
  intros Hk Hx. unfold bonus. destruct b; [| exact Hx].
  rewrite Hk. now apply add_finite_not_nan.
Qed.

(** A score is a number. *)
Lemma score_not_nan (login : string) (data : contributor) :
  isNaN (score login data) = false.
Proof.
  rewrite score_terms.
  assert (Hbase : isNaN (add (ofZ 0) (mul (ofZ (contributions data)) tenth)) = false).
  { assert (Ht : tenth = S754_finite false 7205759403792794 (-56))
      by (vm_compute; reflexivity).
    pose proof (mul_finite_not_nan (ofZ (contributions data)) false
                  7205759403792794 (-56) (ofZ_not_nan _)) as Hm.
    rewrite Ht. change (ofZ 0) with (S754_zero false).
    destruct (mul (ofZ (contributions data)) (S754_finite false 7205759403792794 (-56)))
      as [sy | sy | | sy my ey]; try discriminate; try reflexivity.
    destruct sy; reflexivity. }
  repeat (eapply bonus_not_nan; [vm_compute; reflexivity |]).
  exact Hbase.
Qed.

Lemma In_insertSorted {A : Type} (cmp : A -> A -> comparison) (a x : A) (l : list A) :
  In x (insertSorted cmp a l) <-> x = a \/ In x l.
Proof.
  induction l as [| b l IH]; simpl.
  - split; [intros [H | []]; auto | intros [H | []]; auto].
  - destruct (cmp a b); simpl; rewrite ?IH; intuition congruence.
Qed.

Lemma In_sort {A : Type} (cmp : A -> A -> comparison) (x : A) (l : list A) :
  In x (sort cmp l) <-> In x l.
Proof.
  induction l as [| a l IH]; simpl; [tauto |].
  rewrite In_insertSorted, IH. intuition congruence.
Qed.

(** The new element goes to the head of the sorted list when the comparison
    with the old head is not positive: everything sorted so far scores no
    higher. *)
Ltac head_is_new Hsort Hc Hbefore Hafter :=
  injection Hsort as <- <-;
  match type of Hc with
  | SFcompare (snd ?h) (snd ?a) = Some _ =>
      assert (Hle : leb (snd h) (snd a) = true)
        by (unfold leb, SFleb; now rewrite Hc);
      match type of Hbefore with
      | Forall _ ?before =>
          match type of Hafter with
          | Forall _ ?after =>
              exists [], (before ++ h :: after);
              repeat split; [constructor |];
              apply Forall_app; split;
              [ eapply Forall_impl; [| exact Hbefore];
                intros x Hx; simpl in Hx;
                eapply leb_trans; [apply ltb_leb; exact Hx | exact Hle]
              | constructor;
                [ exact Hle
                | eapply Forall_impl; [| exact Hafter];
                  intros x Hx; simpl in Hx;
                  eapply leb_trans; [exact Hx | exact Hle] ] ]
          end
      end
  end.

(** The head of the sorted scores is the first of the entries with the
    highest score: the entries before it have a lower score, the entries
    after it a score that is not higher. *)
Lemma sort_head_first_max (l : list (string * num)) :
  Forall (fun x => isNaN (snd x) = false) l ->
  forall (h : string * num) (t : list (string * num)),
    sort compareFn l = h :: t ->
    exists before after,
      l = before ++ h :: after
      /\ Forall (fun x => ltb (snd x) (snd h) = true) before
      /\ Forall (fun x => leb (snd x) (snd h) = true) after.
Proof.
  induction l as [| a l IH]; intros Hnan h t Hsort; [discriminate |].
  inversion Hnan as [| ? ? Ha Hl]; subst.
  simpl in Hsort. destruct (sort compareFn l) as [| h' t'] eqn:Hl'.
  - simpl in Hsort. injection Hsort as <- <-.
    destruct l as [| b l].
    + exists [], []. repeat split; constructor.
    + exfalso. assert (Hin : In b (sort compareFn (b :: l)))
        by (apply In_sort; now left).
      rewrite Hl' in Hin. exact Hin.
  - destruct (IH Hl h' t' eq_refl) as (before & after & -> & Hbefore & Hafter).
    assert (Hh' : isNaN (snd h') = false).
    { rewrite Forall_forall in Hl. apply Hl. apply in_or_app. right. now left. }
    simpl in Hsort. unfold compareFn at 1 in Hsort.
    destruct (compare_total (snd h') (snd a) Hh' Ha) as (c & Hc).
    rewrite Hc in Hsort.
    destruct c;
      [head_is_new Hsort Hc Hbefore Hafter | head_is_new Hsort Hc Hbefore Hafter |].
    injection Hsort as <- _. exists (a :: before), after.
    repeat split; [| exact Hafter].
    constructor; [| exact Hbefore].
    unfold ltb, SFltb. now rewrite (compare_Gt_Lt _ _ Hc).
Qed.

(** The primary of a list of entries that is not empty is one of them. *)
Lemma primaryOf_In (entries : list (string * contributor)) :
  entries <> [] ->
  exists (primaryLogin : string) (primaryData : contributor),
    primaryOf entries = Some primaryLogin /\ In (primaryLogin, primaryData) entries.
Proof.
  intros Hne. unfold primaryOf, loginScores.
  set (f := fun ld : string * contributor => (fst ld, score (fst ld) (snd ld))).
  destruct (sort compareFn (map f entries)) as [| [p sc] t] eqn:Hsort.
  - destruct entries as [| e entries]; [congruence |].
    assert (Hin : In (f e) (sort compareFn (map f (e :: entries))))
      by (apply In_sort; now left).
    rewrite Hsort in Hin. contradiction.
  - assert (Hin : In (p, sc) (map f entries))
      by (apply (In_sort compareFn); rewrite Hsort; now left).
    apply in_map_iff in Hin. destruct Hin as ([l d] & Heq & Hin).
    unfold f in Heq. simpl in Heq. injection Heq as -> _.
    exists p, d. auto.
Qed.

(** The three tests of the score on texts are tests of occurrence: the key
    holds [contributor-] somewhere, the key holds a space somewhere, the
    avatar address holds [github] somewhere. *)
Lemma score_tests (login : string) (data : contributor) :
  (notPlaceholder login = false
   <-> exists a b : string, login = (a ++ "contributor-" ++ b)%string)
  /\ (noSpace login = false <-> exists a b : string, login = (a ++ " " ++ b)%string)
  /\ (hasGithubAvatar data = true
      <-> exists a b : string, avatar_url data = Some (a ++ "github" ++ b)%string).
Proof.
  unfold notPlaceholder, noSpace, hasGithubAvatar. repeat split.
  - intros H. apply negb_false_iff in H. now apply includes_occurs.
  - intros H. apply negb_false_iff. now apply includes_occurs.
  - intros H. apply negb_false_iff in H. now apply includes_occurs.
  - intros H. apply negb_false_iff. now apply includes_occurs.
  - destruct (avatar_url data) as [url |]; [| discriminate].
    intros H. apply andb_true_iff in H. destruct H as [_ H].
    apply includes_occurs in H. destruct H as (a & b & ->). now exists a, b.
  - intros (a & b & ->).
    assert (Hinc : includes (a ++ "github" ++ b) "github" = true)
      by (apply includes_occurs; now exists a, b).
    rewrite Hinc, andb_true_r. apply truthy_true. destruct a; discriminate.
Qed.

(** C6, as the code has it: the score of a member is a binary64 number, the
    sum, in this order, of 0.1 times the contributions, 100 with a GitHub
    login, 50 when the key is that login up to case, 30 when the avatar
    address holds [github], 20 when the key does not hold [contributor-], and
    5 when the key holds no space; it is never [NaN].  The primary is the
    member whose binary64 score is the highest, the first of them in the
    order of the set when several have it. *)
Theorem primary_highest_score (entries : list (string * contributor))
    (primaryLogin : string) :
  primaryOf entries = Some primaryLogin ->
  (exists before primaryData after,
      entries = before ++ (primaryLogin, primaryData) :: after
      /\ (forall login data,
             In (login, data) before ->
             ltb (score login data) (score primaryLogin primaryData) = true)
      /\ (forall login data,
             In (login, data) after ->
             leb (score login data) (score primaryLogin primaryData) = true))
  /\ (forall (login : string) (data : contributor),
         score login data
         = bonus (noSpace login) 5
             (bonus (notPlaceholder login) 20
                (bonus (hasGithubAvatar data) 30
                   (bonus (loginIsGithubLogin login data) 50
                      (bonus (hasGithubLogin data) 100
                         (add (ofZ 0) (mul (ofZ (contributions data)) tenth))))))
         /\ isNaN (score login data) = false
         /\ (notPlaceholder login = false
             <-> exists a b : string, login = (a ++ "contributor-" ++ b)%string)
         /\ (noSpace login = false
             <-> exists a b : string, login = (a ++ " " ++ b)%string)
         /\ (hasGithubAvatar data = true
             <-> exists a b : string,
                 avatar_url data = Some (a ++ "github" ++ b)%string)).
Proof.
  intros Hprimary. split.
  2:{ intros login data. split; [apply score_terms |].
      split; [apply score_not_nan | apply score_tests]. }
  unfold primaryOf, loginScores in Hprimary.
  set (f := fun ld : string * contributor => (fst ld, score (fst ld) (snd ld))) in *.
  destruct (sort compareFn (map f entries)) as [| [p sc] t] eqn:Hsort; [discriminate |].
  injection Hprimary as ->.
  destruct (sort_head_first_max (map f entries)) with (h := (primaryLogin, sc)) (t := t)
    as (before & after & Hsplit & Hbefore & Hafter).
  - apply Forall_forall. intros x Hx. apply in_map_iff in Hx.
    destruct Hx as ([l d] & <- & _). apply score_not_nan.
  - exact Hsort.
  - apply map_eq_app in Hsplit. destruct Hsplit as (eb & rest & -> & Hb & Hrest).
    apply map_eq_cons in Hrest. destruct Hrest as ([l d] & ea & -> & Hh & Ha).
    unfold f in Hh. simpl in Hh. injection Hh as -> <-.
    exists eb, d, ea. split; [reflexivity |]. split.
    + intros login data Hin. rewrite Forall_forall in Hbefore.
      apply (Hbefore (f (login, data))). rewrite <- Hb. now apply in_map.
    + intros login data Hin. rewrite Forall_forall in Hafter.
      apply (Hafter (f (login, data))). rewrite <- Ha. now apply in_map.
Qed.

Lemma primary_highest_score_witness :
  exists before primaryData after,
    sampleEntries = before ++ ("alice-1", primaryData) :: after
    /\ (forall login data,
           In (login, data) before ->
           ltb (score login data) (score "alice-1" primaryData) = true)
    /\ (forall login data,
           In (login, data) after ->
           leb (score login data) (score "alice-1" primaryData) = true).
Proof.
  apply (proj1 (primary_highest_score sampleEntries "alice-1" ltac:(vm_compute; reflexivity))).
Defined.

(** Two members whose scores are the same number in exact arithmetic,
    0.4 + 30 + 20 + 5 and 20.4 + 30 + 5: the primary is the second, not the
    first met.  And a key that is no fallback handle and holds
    [contributor-] misses the 20. *)
Lemma primary_highest_score_counterexample :
  ExactScore.scoreTenths "xavier" (creditedCoAuthor "xavier" 4)
  = ExactScore.scoreTenths "contributor-9" (creditedCoAuthor "contributor-9" 204)
  /\ primaryOf [("xavier", creditedCoAuthor "xavier" 4);
                ("contributor-9", creditedCoAuthor "contributor-9" 204)]
     = Some "contributor-9"
  /\ ExactScore.isFallbackHandle "open-contributor-bot" = false
  /\ notPlaceholder "open-contributor-bot" = false.
Proof. repeat split; vm_compute; reflexivity. Qed.

(** Scores are binary64 numbers, added in the order of the code.  With 3
    contributions under a name and 203 under a placeholder key both sums,
    0.3 + 30 + 20 + 5 and 20.3 + 30 + 5, are the same number and the first
    entry is the primary; with 4 and 204 contributions the sums
    0.4 + 30 + 20 + 5 and 20.4 + 30 + 5 are two numbers, the second the
    higher. *)
Example score_rounding :
  primaryOf [("xavier", creditedCoAuthor "xavier" 3);
             ("contributor-9", creditedCoAuthor "contributor-9" 203)]
  = Some "xavier"
  /\ primaryOf [("xavier", creditedCoAuthor "xavier" 4);
                ("contributor-9", creditedCoAuthor "contributor-9" 204)]
     = Some "contributor-9".
Proof. split; vm_compute; reflexivity. Qed.

End ScoreFacts.

(* ------------------------------------------------------------------ *)
(** ** Deduplication: a merge keeps the contributions *)

Section MergeProperties.
Import Js Registry Dedup Samples.

Lemma total_initAliases (k : string) (m : registry) :
  total (update k initAliases m) = total m.
Proof.
  destruct (get k m) as [d |] eqn:Hget.
  - rewrite (total_update _ _ _ _ Hget). simpl. lia.
  - f_equal. induction m as [| [k' d'] m IH]; simpl in *; [reflexivity |].
    destruct (k' =? k); [discriminate | now rewrite IH].
Qed.

Lemma others_entries (m : registry) (primaryLogin : string)
    (entries : list (string * contributor)) :
  (forall l d, In (l, d) entries -> get l m = Some d) ->
  others (update primaryLogin initAliases m) primaryLogin (map fst entries)
  = filter (fun ld => negb (fst ld =? primaryLogin)) entries.
Proof.
  induction entries as [| [l d] entries IH]; intros Hget; simpl; [reflexivity |].
  rewrite IH by (intros l' d' Hin; apply Hget; now right).
  destruct (String.eqb_spec l primaryLogin) as [-> | Hne]; simpl; [reflexivity |].
  rewrite get_update_other by exact Hne.
  rewrite (Hget l d) by now left. reflexivity.
Qed.

(** Dropping entries keeps their logins distinct. *)
Lemma keep_distinct_logins (keep : string * contributor -> bool)
    (entries : list (string * contributor)) :
  NoDup (map fst entries) -> NoDup (map fst (filter keep entries)).
Proof.
  induction entries as [| [l d] entries IH]; simpl; intros Hnd; [exact Hnd |].
  inversion Hnd as [| ? ? Hl Hnd']; subst.
  destruct (keep (l, d)); simpl; [| now apply IH].
  constructor; [| now apply IH].
  intros Hin. apply Hl. apply in_map_iff in Hin. destruct Hin as (x & Hx & Hin).
  apply filter_In in Hin. rewrite <- Hx. apply in_map. tauto.
Qed.

(** The merge of one set of duplicates, on a registry with unique keys and a
    set in which no login occurs twice. *)
Lemma mergeSet_merge (m : registry) (mergedLogins : list string)
    (dup : duplicateSet) :
  NoDup (keys m) -> NoDup (logins dup) ->
  exists (m' : registry) (mergedLogins' : list string),
    mergeSet (Some (m, mergedLogins)) dup = Some (m', mergedLogins')
    /\ total m' = total m
    /\ NoDup (keys m')
    /\ (m' = m
        \/ exists (primaryLogin : string) (primaryData merged : contributor),
            let entries := validEntries m mergedLogins (logins dup) in
            let absorbed := filter (fun ld => negb (fst ld =? primaryLogin)) entries in
            primaryOf entries = Some primaryLogin
            /\ get primaryLogin m = Some primaryData
            /\ get primaryLogin m' = Some merged
            /\ contributions merged
               = (contributions primaryData + sumContributions absorbed)%Z
            /\ aliasesOf merged
               = aliasesOf primaryData ++ map (asAlias (type dup)) absorbed
            /\ NoDup (map fst absorbed)
            /\ (forall l d, In (l, d) absorbed -> get l m = Some d /\ get l m' = None)
            /\ (forall k, ~ In k (map fst entries) -> get k m' = get k m)).
Proof.
  intros Hkeys Hlogins. unfold mergeSet.
  destruct (forallb _ (logins dup)); [exists m, mergedLogins; auto |].
  set (entries := validEntries m mergedLogins (logins dup)).
  destruct (Nat.leb_spec (List.length entries) 1) as [Hfew | Hmany];
    [exists m, mergedLogins; auto |].
  assert (Hentries : forall l d, In (l, d) entries -> get l m = Some d).
  { intros l d Hin. apply validEntries_In in Hin. tauto. }
  destruct (primaryOf_In entries) as (primaryLogin & primaryData & Hprimary & Hin).
  { intros E. rewrite E in Hmany. simpl in Hmany. lia. }
  rewrite Hprimary.
  pose proof (Hentries _ _ Hin) as Hget.
  assert (Hnd : NoDup (map fst entries)) by now apply validEntries_NoDup.
  destruct (absorb_loop (type dup) primaryLogin (map fst entries) Hnd
              (update primaryLogin initAliases m) mergedLogins (initAliases primaryData))
    as (m' & mg' & merged & Hfold & Hk' & Htot & Hget' & Hc & Ha & Hgone & Hsame).
  { now rewrite keys_update. }
  { now apply get_update_same. }
  { intros l Hl. rewrite has_update. apply in_map_iff in Hl.
    destruct Hl as ([l' d] & <- & Hl). unfold has. simpl.
    now rewrite (Hentries _ _ Hl). }
  rewrite (others_entries m primaryLogin entries Hentries) in Hc, Ha.
  exists m', mg'. split; [exact Hfold |].
  split; [rewrite Htot; apply total_initAliases |].
  split; [exact Hk' |]. right.
  exists primaryLogin, primaryData, merged. cbv zeta. fold entries.
  split; [reflexivity |]. split; [exact Hget |]. split; [exact Hget' |].
  split; [exact Hc |].
  split; [rewrite Ha; unfold aliasesOf; simpl; now destruct (aliases primaryData) |].
  split; [now apply keep_distinct_logins |]. split.
  - intros l d Hl. apply filter_In in Hl. destruct Hl as [Hl Hne].
    split; [now apply Hentries |].
    apply Hgone.
    + apply in_map_iff. exists (l, d). auto.
    + simpl in Hne. apply negb_true_iff in Hne. now apply String.eqb_neq in Hne.
  - intros k Hk. rewrite Hsame.
    + apply get_update_other. intros ->. apply Hk.
      apply in_map_iff. exists (primaryLogin, primaryData). auto.
    + exact Hk.
    + intros ->. apply Hk. apply in_map_iff. exists (primaryLogin, primaryData). auto.
Qed.

(** *** The sets of duplicates the pass finds *)

Lemma In_pushTo (k login : string) (g : groups) (k' : string) (ls' : list string) :
  In (k', ls') (pushTo k login g) ->
  In (k', ls') g
  \/ (k' = k /\ (ls' = [login] \/ exists ls, In (k, ls) g /\ ls' = ls ++ [login])).
Proof.
  induction g as [| [k0 ls0] g IH]; simpl.
  - intros [[= <- <-] | []]. right. auto.
  - destruct (String.eqb_spec k0 k) as [-> | Hne]; simpl.
    + intros [[= <- <-] | Hin]; [| auto].
      right. split; [reflexivity |]. right. exists ls0. auto.
    + intros [Heq | Hin]; [auto |].
      destruct (IH Hin) as [H | (-> & [-> | (ls & Hls & ->)])]; auto.
      right. split; [reflexivity |]. right. exists ls. auto.
Qed.

Lemma NoDup_snoc {A : Type} (l : list A) (x : A) :
  NoDup l -> ~ In x l -> NoDup (l ++ [x]).
Proof.
  intros Hnd Hx. apply NoDup_app; [exact Hnd | repeat constructor; auto |].
  intros y Hy [<- | []]. contradiction.
Qed.

Lemma groupsPushing_start (seen : list string) (login : string) (g : groups) :
  groupsOk seen g -> groupsPushing seen login [] g.
Proof.
  intros Hok k ls Hin. destruct (Hok k ls Hin) as [Hnd Hincl]. split; auto.
Qed.

Lemma groupsPushing_end (seen : list string) (login : string) (done : list string)
    (g : groups) :
  groupsPushing seen login done g -> groupsOk (login :: seen) g.
Proof.
  intros Hok k ls Hin. destruct (Hok k ls Hin) as [Hnd Hl]. split; [exact Hnd |].
  intros l Hin'. destruct (Hl l Hin') as [H | [-> _]]; [now right | now left].
Qed.

Lemma groupsPushing_skip (seen : list string) (login n : string) (done : list string)
    (g : groups) :
  groupsPushing seen login done g -> groupsPushing seen login (n :: done) g.
Proof.
  intros Hok k ls Hin. destruct (Hok k ls Hin) as [Hnd Hl]. split; [exact Hnd |].
  intros l Hin'. destruct (Hl l Hin') as [H | [-> H]]; [now left |].
  right. split; [reflexivity | now right].
Qed.

Lemma groupsPushing_push (seen : list string) (login n : string) (done : list string)
    (g : groups) :
  ~ In login seen -> ~ In n done ->
  groupsPushing seen login done g ->
  groupsPushing seen login (n :: done) (pushTo n login g).
Proof.
  intros Hlogin Hn Hok k ls Hin.
  destruct (In_pushTo _ _ _ _ _ Hin) as [Hold | (-> & [-> | (ls0 & Hls0 & ->)])].
  - now apply (groupsPushing_skip seen login n done g Hok).
  - split; [repeat constructor; auto |].
    intros l [<- | []]. right. split; [reflexivity | now left].
  - destruct (Hok n ls0 Hls0) as [Hnd Hl]. split.
    + apply NoDup_snoc; [exact Hnd |].
      intros Hin'. destruct (Hl login Hin') as [H | [_ H]]; contradiction.
    + intros l Hin'. apply in_app_or in Hin'. destruct Hin' as [Hin' | [<- | []]].
      * destruct (Hl l Hin') as [H | [-> H]]; [now left |].
        right. split; [reflexivity | now right].
      * right. split; [reflexivity | now left].
Qed.

Lemma uniqueStrings_NoDup (seen names : list string) :
  NoDup (uniqueStrings seen names)
  /\ forall n, In n (uniqueStrings seen names) -> ~ In n seen.
Proof.
  revert seen. induction names as [| n names IH]; intros seen; simpl.
  - split; [constructor | intros n []].
  - destruct (setHas n seen) eqn:Hn; [apply IH |].
    destruct (IH (n :: seen)) as [Hnd Hnot]. split.
    + constructor; [| exact Hnd]. intros Hin. apply (Hnot n Hin). now left.
    + intros x [<- | Hx].
      * intros Hin. unfold setHas in Hn.
        assert (Ht : existsb (String.eqb n) seen = true)
          by (apply existsb_exists; exists n; split; [exact Hin | apply String.eqb_refl]).
        congruence.
      * intros Hin. apply (Hnot x Hx). now right.
Qed.

(** Pushing a login that is not in [seen] under names that differ. *)
Lemma push_names_ok (keep : string -> bool) (login : string) (names : list string) :
  NoDup names ->
  forall (seen done : list string) (g : groups),
    ~ In login seen ->
    (forall n, In n names -> ~ In n done) ->
    groupsPushing seen login done g ->
    exists done',
      groupsPushing seen login done'
        (fold_left (fun acc name => if keep name then pushTo name login acc else acc)
                   names g).
Proof.
  induction names as [| n names IH]; intros Hnd seen done g Hlogin Hfresh Hok.
  - exists done. exact Hok.
  - inversion Hnd as [| ? ? Hn Hnd']; subst. simpl.
    apply (IH Hnd' seen (n :: done)); [exact Hlogin | |].
    + intros x Hx [<- | Hin]; [contradiction |].
      apply (Hfresh x); [now right | exact Hin].
    + destruct (keep n).
      * apply groupsPushing_push; auto. apply Hfresh. now left.
      * now apply groupsPushing_skip.
Qed.

(** A fold over the registry that pushes each key under names that differ
    keeps the arrays duplicate-free. *)
Lemma fold_groups_ok (keep : string -> bool)
    (namesOf : string * contributor -> list string) (m : registry) :
  (forall kd, NoDup (namesOf kd)) ->
  NoDup (keys m) ->
  forall (seen : list string) (g : groups),
    (forall k, In k (keys m) -> ~ In k seen) ->
    groupsOk seen g ->
    exists seen',
      groupsOk seen'
        (fold_left (fun acc kd =>
                      fold_left (fun acc name =>
                                   if keep name then pushTo name (fst kd) acc else acc)
                                (namesOf kd) acc) m g).
Proof.
  intros Hnames. induction m as [| [k d] m IH]; intros Hnd seen g Hfresh Hok.
  - exists seen. exact Hok.
  - simpl in Hnd. inversion Hnd as [| ? ? Hk Hnd']; subst. simpl fold_left.
    destruct (push_names_ok keep k (namesOf (k, d)) (Hnames (k, d)) seen [] g)
      as (done' & Hpushed).
    + apply Hfresh. now left.
    + intros n _ [].
    + now apply groupsPushing_start.
    + apply (IH Hnd' (k :: seen)).
      * intros k' Hk' [<- | Hin]; [contradiction |].
        apply (Hfresh k'); [now right | exact Hin].
      * simpl fst. eapply groupsPushing_end. exact Hpushed.
Qed.

Lemma fold_left_ext {A B : Type} (f g : A -> B -> A) (l : list B) (a : A) :
  (forall x y, f x y = g x y) -> fold_left f l a = fold_left g l a.
Proof.
  intros H. revert a. induction l as [| b l IH]; intros a; simpl; [reflexivity |].
  now rewrite H, IH.
Qed.

Lemma groupsOk_NoDup (seen : list string) (g : groups) : groupsOk seen g -> groupsNoDup g.
Proof. intros H k ls Hin. now destruct (H k ls Hin). Qed.

Lemma groupsOk_nil (seen : list string) : groupsOk seen [].
Proof. intros k ls []. Qed.

Lemma loginMap_NoDup (m : registry) : NoDup (keys m) -> groupsNoDup (loginMap m).
Proof.
  intros Hnd.
  destruct (fold_groups_ok (fun _ => true)
              (fun kd => match email (snd kd) with
                         | Some e => if truthy e then [toLowerCase e] else []
                         | None => []
                         end) m) with (seen := @nil string) (g := @nil (string * list string))
    as (seen' & Hok); auto using groupsOk_nil.
  - intros kd. destruct (email (snd kd)) as [e |]; [| constructor].
    destruct (truthy e); repeat constructor; auto.
  - apply (groupsOk_NoDup seen'). unfold loginMap.
    erewrite fold_left_ext; [exact Hok |].
    intros acc kd. simpl. destruct (email (snd kd)) as [e |]; [| reflexivity].
    destruct (truthy e); reflexivity.
Qed.

Lemma githubUserMap_NoDup (m : registry) : NoDup (keys m) -> groupsNoDup (githubUserMap m).
Proof.
  intros Hnd.
  destruct (fold_groups_ok (fun _ => true)
              (fun kd => match github_login (snd kd) with
                         | Some e => if truthy e then [toLowerCase e] else []
                         | None => []
                         end) m) with (seen := @nil string) (g := @nil (string * list string))
    as (seen' & Hok); auto using groupsOk_nil.
  - intros kd. destruct (github_login (snd kd)) as [e |]; [| constructor].
    destruct (truthy e); repeat constructor; auto.
  - apply (groupsOk_NoDup seen'). unfold githubUserMap.
    erewrite fold_left_ext; [exact Hok |].
    intros acc kd. simpl. destruct (github_login (snd kd)) as [e |]; [| reflexivity].
    destruct (truthy e); reflexivity.
Qed.

Lemma nameMap_NoDup (m : registry) : NoDup (keys m) -> groupsNoDup (nameMap m).
Proof.
  intros Hnd.
  destruct (fold_groups_ok (fun name => (2 <? String.length name)%nat)
              (fun kd => uniqueStrings [] (possibleNames (fst kd) (snd kd))) m)
    with (seen := @nil string) (g := @nil (string * list string))
    as (seen' & Hok); auto using groupsOk_nil.
  - intros kd. apply uniqueStrings_NoDup.
  - apply (groupsOk_NoDup seen'). exact Hok.
Qed.

Lemma duplicatesOf_NoDup (t : dupType) (g : groups) :
  groupsNoDup g -> Forall (fun dup => NoDup (logins dup)) (duplicatesOf t g).
Proof.
  intros Hg. apply Forall_forall. intros dup Hin. unfold duplicatesOf in Hin.
  apply in_flat_map in Hin. destruct Hin as ([k ls] & Hkl & Hin). simpl in Hin.
  destruct (1 <? List.length ls)%nat; [| contradiction].
  destruct Hin as [<- | []]. simpl. now apply (Hg k ls).
Qed.

Lemma addSimilar_NoDup (g : groups) :
  groupsNoDup g ->
  forall duplicates,
    Forall (fun dup => NoDup (logins dup)) duplicates ->
    Forall (fun dup => NoDup (logins dup)) (fold_left addSimilar g duplicates).
Proof.
  induction g as [| [k ls] g IH]; intros Hg duplicates Hd; simpl; [exact Hd |].
  apply IH.
  - intros k' ls' Hin. apply (Hg k' ls'). now right.
  - unfold addSimilar. simpl.
    destruct (1 <? List.length ls)%nat; [| exact Hd].
    destruct (existsb (sameLogins ls) duplicates); [exact Hd |].
    apply Forall_app. split; [exact Hd |].
    constructor; [| constructor]. simpl. apply (Hg k ls). now left.
Qed.

(** No login occurs twice in a set of duplicates the pass finds. *)
Lemma findDuplicates_NoDup (m : registry) :
  NoDup (keys m) -> Forall (fun dup => NoDup (logins dup)) (findDuplicates m).
Proof.
  intros Hnd. unfold findDuplicates. apply addSimilar_NoDup.
  - now apply nameMap_NoDup.
  - apply Forall_app. split; apply duplicatesOf_NoDup.
    + now apply loginMap_NoDup.
    + now apply githubUserMap_NoDup.
Qed.

(** The merge of sets in which no login occurs twice throws nothing and
    keeps the sum of the contributions. *)
Lemma mergeDuplicates_total (duplicates : list duplicateSet) :
  Forall (fun dup => NoDup (logins dup)) duplicates ->
  forall (m : registry) (mergedLogins : list string),
    NoDup (keys m) ->
    exists (m' : registry) (mergedLogins' : list string),
      fold_left mergeSet duplicates (Some (m, mergedLogins)) = Some (m', mergedLogins')
      /\ total m' = total m /\ NoDup (keys m').
Proof.
  induction duplicates as [| dup duplicates IH]; intros Hd m mergedLogins Hkeys.
  - exists m, mergedLogins. auto.
  - inversion Hd as [| ? ? Hdup Hrest]; subst.
    destruct (mergeSet_merge m mergedLogins dup Hkeys Hdup)
      as (m1 & mg1 & Hmerge & Htot1 & Hkeys1 & _).
    destruct (IH Hrest m1 mg1 Hkeys1) as (m' & mg' & Hfold & Htot & Hk').
    exists m', mg'.
    change (fold_left mergeSet (dup :: duplicates) (Some (m, mergedLogins)))
      with (fold_left mergeSet duplicates (mergeSet (Some (m, mergedLogins)) dup)).
    rewrite Hmerge. split; [exact Hfold |]. split; [congruence | exact Hk'].
Qed.

(** C1: on a registry with unique keys the deduplication pass throws nothing
    and leaves the sum of the contributions over the registry as it was, and
    so does the merge of each set of duplicates.  When a set is merged, the
    primary ends with its own contributions plus those of each absorbed
    record; every absorbed record is appended once to the aliases of the
    primary with the contributions it had, and is removed from the registry;
    the records outside the set are untouched. *)
Theorem merge_preserves_contributions (m : registry) :
  NoDup (keys m) ->
  (exists (m' : registry) (mergedLogins' : list string),
      deduplicate m = Some (m', mergedLogins')
      /\ total m' = total m /\ NoDup (keys m'))
  /\ forall (mergedLogins : list string) (dup : duplicateSet),
      NoDup (logins dup) ->
      exists (m' : registry) (mergedLogins' : list string),
        mergeSet (Some (m, mergedLogins)) dup = Some (m', mergedLogins')
        /\ total m' = total m
        /\ NoDup (keys m')
        /\ (m' = m
            \/ exists (primaryLogin : string) (primaryData merged : contributor),
                let entries := validEntries m mergedLogins (logins dup) in
                let absorbed :=
                  filter (fun ld => negb (fst ld =? primaryLogin)) entries in
                primaryOf entries = Some primaryLogin
                /\ get primaryLogin m = Some primaryData
                /\ get primaryLogin m' = Some merged
                /\ contributions merged
                   = (contributions primaryData + sumContributions absorbed)%Z
                /\ aliasesOf merged
                   = aliasesOf primaryData ++ map (asAlias (type dup)) absorbed
                /\ NoDup (map fst absorbed)
                /\ (forall l d,
                       In (l, d) absorbed -> get l m = Some d /\ get l m' = None)
                /\ (forall k, ~ In k (map fst entries) -> get k m' = get k m)).
Proof.
  intros Hkeys. split.
  - unfold deduplicate, mergeDuplicates.
    apply mergeDuplicates_total; [now apply findDuplicates_NoDup | exact Hkeys].
  - intros mergedLogins dup Hdup. now apply mergeSet_merge.
Qed.

Lemma merge_preserves_contributions_witness :
  exists (m' : registry) (mergedLogins' : list string),
    deduplicate sampleDuplicates = Some (m', mergedLogins')
    /\ total m' = total sampleDuplicates /\ NoDup (keys m').
Proof.
  apply (proj1 (merge_preserves_contributions sampleDuplicates
                  ltac:(repeat constructor; simpl; intuition discriminate))).
Defined.

(** The two records become one, [alice], with five contributions and the
    alias [alice-1]. *)
Example deduplicate_sample :
  exists (merged : contributor),
    deduplicate sampleDuplicates = Some ([("alice", merged)], ["alice-1"])
    /\ contributions merged = 5%Z
    /\ map alias_login (aliasesOf merged) = ["alice-1"]
    /\ map alias_contributions (aliasesOf merged) = [2%Z].
Proof. eexists. vm_compute. repeat split. Qed.

(** So the deduplication of a run throws nothing and keeps the contributions
    the scan has counted, whatever the repositories and the users the lookup
    found. *)
Corollary contributorsOf_total (repos : list apiRepo)
    (emailToGitHubUser : list (string * githubUser)) :
  exists (m' : registry) (mergedLogins' : list string),
    Pipeline.contributorsOf repos emailToGitHubUser = Some (m', mergedLogins')
    /\ total m' = total (scan repos).
Proof.
  unfold Pipeline.contributorsOf, deduplicate, mergeDuplicates.
  destruct (mergeDuplicates_total
              (findDuplicates (resolve emailToGitHubUser (scan repos))))
    with (m := resolve emailToGitHubUser (scan repos)) (mergedLogins := @nil string)
    as (m' & mg' & Hfold & Htot & _).
  - apply findDuplicates_NoDup. rewrite keys_resolve. apply scan_unique_keys.
  - rewrite keys_resolve. apply scan_unique_keys.
  - exists m', mg'. split; [exact Hfold |]. rewrite Htot. apply total_resolve.
Qed.

End MergeProperties.

(* ------------------------------------------------------------------ *)
(** ** The order of the repositories *)

Section OrderProperties.
Import Js Registry Pipeline Samples.

Lemma get_upsertLogin (repoName : string) (u : apiUser) (delta : Z) (m : registry)
    (k : string) :
  truthy (user_login u) = true ->
  get k (upsertLogin repoName u delta m)
  = if toLowerCase (user_login u) =? k
    then Some (credit delta repoName
                 (match get k m with Some d => d | None => freshDirect u end))
    else get k m.
Proof.
  intros Hlogin. unfold upsertLogin. rewrite Hlogin. cbn [negb]. cbv zeta.
  set (k0 := toLowerCase (user_login u)).
  destruct (String.eqb_spec k0 k) as [<- | Hne].
  - destruct (has k0 m) eqn:Hhas; cbn [negb].
    + unfold has in Hhas. destruct (get k0 m) as [d |] eqn:Hget; [| discriminate].
      now apply get_update_same.
    + rewrite (set_fresh _ _ _ Hhas).
      assert (Hnone : get k0 m = None)
        by (unfold has in Hhas; destruct (get k0 m); [discriminate | reflexivity]).
      rewrite Hnone. apply get_update_same. now apply get_app_fresh.
  - rewrite get_update_other by congruence.
    destruct (has k0 m) eqn:Hhas; cbn [negb]; [reflexivity |].
    rewrite (set_fresh _ _ _ Hhas). apply get_app_other. congruence.
Qed.

Lemma applyEvent_contributions (k : string) (m : registry) (ev : event) :
  contributionsOf k (applyEvent m ev) = (contributionsOf k m + creditTo k ev)%Z.
Proof.
  destruct ev as [[repoName u] delta]. unfold applyEvent, creditTo, credits, contributionsOf.
  destruct (truthy (user_login u)) eqn:Hlogin; cbn [andb snd].
  - rewrite get_upsertLogin by exact Hlogin.
    destruct (toLowerCase (user_login u) =? k); [| lia].
    destruct (get k m); simpl; lia.
  - unfold upsertLogin. rewrite Hlogin. simpl. lia.
Qed.

Lemma applyEvent_has (k : string) (m : registry) (ev : event) :
  has k (applyEvent m ev) = has k m || credits k ev.
Proof.
  destruct ev as [[repoName u] delta]. unfold applyEvent, credits, has.
  destruct (truthy (user_login u)) eqn:Hlogin; cbn [andb].
  - rewrite get_upsertLogin by exact Hlogin.
    destruct (toLowerCase (user_login u) =? k); [| now rewrite orb_false_r].
    now rewrite orb_true_r.
  - unfold upsertLogin. rewrite Hlogin. simpl. now rewrite orb_false_r.
Qed.

Lemma applyEvent_repositories (k : string) (m : registry) (ev : event) (r : string) :
  In r (repositoriesOf k (applyEvent m ev)) <->
  In r (repositoriesOf k m) \/ (credits k ev = true /\ r = fst (fst ev)).
Proof.
  destruct ev as [[repoName u] delta]. unfold applyEvent, credits, repositoriesOf.
  cbn [fst].
  destruct (truthy (user_login u)) eqn:Hlogin; cbn [andb].
  - rewrite get_upsertLogin by exact Hlogin.
    destruct (toLowerCase (user_login u) =? k).
    + cbn [credit repositories]. rewrite In_setAdd.
      destruct (get k m); simpl; intuition congruence.
    + intuition congruence.
  - unfold upsertLogin. rewrite Hlogin. simpl. intuition congruence.
Qed.

(** What a run of upserts leaves for the key [k]. *)
Lemma events_aggregate (k : string) (evs : list event) (m : registry) :
  contributionsOf k (fold_left applyEvent evs m)
  = (contributionsOf k m + fold_right (fun ev acc => creditTo k ev + acc) 0 evs)%Z
  /\ has k (fold_left applyEvent evs m) = has k m || existsb (credits k) evs
  /\ forall r,
      In r (repositoriesOf k (fold_left applyEvent evs m)) <->
      In r (repositoriesOf k m)
      \/ exists ev, In ev evs /\ credits k ev = true /\ r = fst (fst ev).
Proof.
  revert m. induction evs as [| ev evs IH]; intros m; simpl.
  - repeat split; try lia; try (now rewrite orb_false_r); try tauto.
    intros [H | (ev & [] & _)]. exact H.
  - destruct (IH (applyEvent m ev)) as (Hc & Hh & Hr). repeat split.
    + rewrite Hc, applyEvent_contributions. lia.
    + rewrite Hh, applyEvent_has. now rewrite orb_assoc.
    + rewrite Hr, applyEvent_repositories.
      intros [[H | (Hcr & ->)] | (ev' & Hin & Hcr & ->)]; eauto 6.
    + rewrite Hr, applyEvent_repositories.
      intros [H | (ev' & [<- | Hin] & Hcr & ->)]; eauto 6.
Qed.

Lemma processCommit_direct (repoName : string) (m : registry) (c : apiCommit) :
  Extractor.extractCoAuthors (message c) = [] ->
  processCommit repoName m c
  = fold_left applyEvent
      (if truthy (message c) then
         match author c with
         | Some u => [(repoName, u, 1%Z)]
         | None => []
         end
       else []) m.
Proof.
  intros Hnone. unfold processCommit, processCommitAuthor. rewrite Hnone.
  destruct (truthy (message c)); simpl; [| reflexivity].
  destruct (author c); reflexivity.
Qed.

Lemma fold_left_map_events (repoName : string) (cs : list apiContributor) (m : registry) :
  fold_left (processContributor repoName) cs m
  = fold_left applyEvent
      (map (fun c => (repoName, contributor_user c, contributor_contributions c)) cs) m.
Proof.
  revert m. induction cs as [| c cs IH]; intros m; simpl; [reflexivity |]. apply IH.
Qed.

Lemma fold_left_commit_events (repoName : string) (cs : list apiCommit) (m : registry) :
  (forall c, In c cs -> Extractor.extractCoAuthors (message c) = []) ->
  fold_left (processCommit repoName) cs m
  = fold_left applyEvent
      (flat_map (fun c =>
                   if truthy (message c) then
                     match author c with
                     | Some u => [(repoName, u, 1%Z)]
                     | None => []
                     end
                   else []) cs) m.
Proof.
  revert m. induction cs as [| c cs IH]; intros m Hnone; simpl; [reflexivity |].
  rewrite fold_left_app. rewrite <- processCommit_direct by (apply Hnone; now left).
  apply IH. intros c' Hc'. apply Hnone. now right.
Qed.

(** A repository without co-authors is a run of keyed upserts. *)
Lemma processRepo_events (m : registry) (repo : apiRepo) :
  noCoAuthors repo -> processRepo m repo = fold_left applyEvent (repoEvents repo) m.
Proof.
  intros Hnone. unfold processRepo, repoEvents. rewrite fold_left_app.
  rewrite fold_left_map_events. now apply fold_left_commit_events.
Qed.

Lemma scan_events (repos : list apiRepo) (m : registry) :
  (forall repo, In repo repos -> noCoAuthors repo) ->
  fold_left processRepo repos m = fold_left applyEvent (flat_map repoEvents repos) m.
Proof.
  revert m. induction repos as [| repo repos IH]; intros m Hnone; simpl; [reflexivity |].
  rewrite fold_left_app. rewrite <- processRepo_events by (apply Hnone; now left).
  apply IH. intros r Hr. apply Hnone. now right.
Qed.

Lemma creditTo_sum_Permutation (k : string) (evs evs' : list event) :
  Permutation evs evs' ->
  fold_right (fun ev acc => (creditTo k ev + acc)%Z) 0%Z evs
  = fold_right (fun ev acc => (creditTo k ev + acc)%Z) 0%Z evs'.
Proof.
  induction 1; simpl; lia.
Qed.

Lemma existsb_Permutation {A : Type} (p : A -> bool) (l l' : list A) :
  Permutation l l' -> existsb p l = existsb p l'.
Proof.
  induction 1; simpl; try congruence.
  destruct (p x), (p y); reflexivity.
Qed.

(** Summing and set union make the scan insensitive to the order of the
    repositories as long as no commit names a co-author: any order of
    processing gives every key the same contributions and the same set of
    repositories. *)
Lemma scan_aggregates_Permutation (repos repos' : list apiRepo) :
  Permutation repos repos' ->
  (forall repo, In repo repos -> noCoAuthors repo) ->
  forall k : string,
    has k (scan repos') = has k (scan repos)
    /\ contributionsOf k (scan repos') = contributionsOf k (scan repos)
    /\ forall r, In r (repositoriesOf k (scan repos'))
                 <-> In r (repositoriesOf k (scan repos)).
Proof.
  intros Hperm Hnone k. unfold scan.
  assert (Hnone' : forall repo, In repo repos' -> noCoAuthors repo).
  { intros repo Hin. apply Hnone. apply Permutation_sym in Hperm.
    now apply (Permutation_in _ Hperm). }
  rewrite (scan_events repos) by exact Hnone.
  rewrite (scan_events repos') by exact Hnone'.
  assert (Hevs : Permutation (flat_map repoEvents repos) (flat_map repoEvents repos'))
    by now apply Permutation_flat_map.
  destruct (events_aggregate k (flat_map repoEvents repos) []) as (Hc & Hh & Hr).
  destruct (events_aggregate k (flat_map repoEvents repos') []) as (Hc' & Hh' & Hr').
  split; [| split].
  - rewrite Hh, Hh'. f_equal. symmetry. now apply existsb_Permutation.
  - rewrite Hc, Hc'. f_equal. symmetry. now apply creditTo_sum_Permutation.
  - intros r. rewrite Hr, Hr'. split;
      (intros [H | (ev & Hin & Hcr & ->)]; [now left | right]; exists ev;
        (split; [| auto])).
    + apply Permutation_sym in Hevs. now apply (Permutation_in _ Hevs).
    + now apply (Permutation_in _ Hevs).
Qed.

(** Processed as A then B, the run ends with two contributors, [ab] with
    five contributions and [ab-1] with one; processed as B then A, with the
    single contributor [ab] and six contributions.  The listing [A; B] is
    processed in the first order when neither repository is primary and in
    the second when B alone was pushed recently.  Without any co-author, D
    and E, which the scan leaves as [foo-bar] and [foobar] with three
    contributions each in either order, end as [foo-bar] with six when D is
    processed first and as [foobar] with six when E is: the deduplication
    merges the two similar names into the one met first. *)
Lemma scan_order_counterexample :
  Permutation [repoD; repoE] [repoE; repoD]
  /\ (forall repo, In repo [repoD; repoE] -> noCoAuthors repo)
  /\ Permutation (aggregates (scan [repoD; repoE])) (aggregates (scan [repoE; repoD]))
  /\ option_map (fun st => aggregates (fst st)) (contributorsOf [repoD; repoE] [])
     = Some [("foo-bar", 6%Z, ["D"; "E"])]
  /\ option_map (fun st => aggregates (fst st)) (contributorsOf [repoE; repoD] [])
     = Some [("foobar", 6%Z, ["E"; "D"])]
  /\ Permutation [repoA; repoB] [repoB; repoA]
  /\ option_map (fun st => aggregates (fst st)) (contributorsOf [repoA; repoB] [])
     = Some [("ab", 5%Z, ["A"]); ("ab-1", 1%Z, ["B"])]
  /\ option_map (fun st => aggregates (fst st)) (contributorsOf [repoB; repoA] [])
     = Some [("ab", 6%Z, ["B"; "A"])]
  /\ option_map (fun st => aggregates (fst st))
       (collectContributors [{| data := repoA; recentlyPushed := false |};
                             {| data := repoB; recentlyPushed := false |}] [])
     = Some [("ab", 5%Z, ["A"]); ("ab-1", 1%Z, ["B"])]
  /\ option_map (fun st => aggregates (fst st))
       (collectContributors [{| data := repoA; recentlyPushed := false |};
                             {| data := repoB; recentlyPushed := true |}] [])
     = Some [("ab", 6%Z, ["B"; "A"])].
Proof.
  split; [apply perm_swap |].
  split; [intros repo [<- | [<- | []]] c [] |].
  split; [apply perm_swap |].
  split; [vm_compute; reflexivity |].
  split; [vm_compute; reflexivity |].
  split; [apply perm_swap |]. repeat split; vm_compute; reflexivity.
Qed.

End OrderProperties.

(* ------------------------------------------------------------------ *)
(** ** The history update *)

Section HistoryProperties.
Import History Samples.

Lemma slice_from_end {A : Type} (l : list A) :
  (100 < List.length l)%nat ->
  slice (Z.of_nat (List.length l) - 100) l = skipn (List.length l - 100) l
  /\ slice (-100) l = skipn (List.length l - 100) l.
Proof.
  intros Hlen. unfold slice. split.
  - destruct (Z.ltb_spec (Z.of_nat (List.length l) - 100) 0) as [Hneg | _]; [lia |].
    f_equal. lia.
  - change (-100 <? 0)%Z with true. cbv iota.
    f_equal. lia.
Qed.

(** The array both scripts write: the stored history with the entry of the
    run appended, cut to its last hundred elements. *)
Lemma updateHistory_written (file : historyFile) (currentMetrics : metrics)
    (old : list json) :
  storedHistory file = Some old ->
  let all := old ++ [historicalEntry currentMetrics] in
  updateHistory file currentMetrics = Written (skipn (List.length all - 100) all)
  /\ updateHistoryEnhanced file currentMetrics
     = Written (skipn (List.length all - 100) all).
Proof.
  unfold storedHistory, updateHistory, updateHistoryEnhanced.
  destruct (loadHistory file) as [ | | | | history | ]; try discriminate.
  intros [= <-]. cbv zeta.
  set (all := history ++ [historicalEntry currentMetrics]).
  destruct (Nat.ltb_spec 100 (List.length all)) as [Hlong | Hshort].
  - destruct (slice_from_end all Hlong) as [-> ->]. split; reflexivity.
  - replace (List.length all - 100)%nat with 0%nat by lia. split; reflexivity.
Qed.

(** C9: after a history update the written array has at most 100 entries; it
    is the stored history followed by the entry of the run, with the oldest
    entries dropped when that exceeds 100; the entry of the run is its last
    element.  Both scripts write the same array. *)
Theorem history_bounded (file : historyFile) (currentMetrics : metrics)
    (old : list json) :
  storedHistory file = Some old ->
  exists written dropped earlier,
    updateHistory file currentMetrics = Written written
    /\ updateHistoryEnhanced file currentMetrics = Written written
    /\ (List.length written <= 100)%nat
    /\ old ++ [historicalEntry currentMetrics] = dropped ++ written
    /\ List.length dropped = (List.length old + 1 - 100)%nat
    /\ written = earlier ++ [historicalEntry currentMetrics].
Proof.
  intros Hold.
  destruct (updateHistory_written file currentMetrics old Hold) as [H1 H2].
  set (all := old ++ [historicalEntry currentMetrics]) in *.
  assert (Hall : List.length all = (List.length old + 1)%nat)
    by (unfold all; rewrite length_app; reflexivity).
  exists (skipn (List.length all - 100) all), (firstn (List.length all - 100) all),
         (skipn (List.length all - 100) old).
  repeat split; try assumption.
  - rewrite length_skipn. lia.
  - symmetry. apply firstn_skipn.
  - rewrite length_firstn. lia.
  - unfold all at 2. rewrite skipn_app.
    replace (List.length all - 100 - List.length old)%nat with 0%nat by lia.
    reflexivity.
Qed.

Lemma history_bounded_witness :
  exists written dropped earlier,
    updateHistory (Parsed (JArr (repeat JNull 100))) sampleMetrics = Written written
    /\ updateHistoryEnhanced (Parsed (JArr (repeat JNull 100))) sampleMetrics
       = Written written
    /\ (List.length written <= 100)%nat
    /\ repeat JNull 100 ++ [historicalEntry sampleMetrics] = dropped ++ written
    /\ List.length dropped = (List.length (repeat JNull 100) + 1 - 100)%nat
    /\ written = earlier ++ [historicalEntry sampleMetrics].
Proof.
  apply (history_bounded (Parsed (JArr (repeat JNull 100))) sampleMetrics
                         (repeat JNull 100)).
  reflexivity.
Defined.

(** C10: when the history file cannot be parsed the update throws nothing and
    starts from the empty history: the array written holds the entry of the
    run and nothing else. *)
Theorem history_unparseable (currentMetrics : metrics) :
  updateHistory Unparseable currentMetrics = Written [historicalEntry currentMetrics]
  /\ updateHistoryEnhanced Unparseable currentMetrics
     = Written [historicalEntry currentMetrics].
Proof.
  split; reflexivity.
Qed.

(** A file that parses to something else than an array makes the update
    throw. *)
Example history_not_an_array :
  updateHistory (Parsed (JObj [])) sampleMetrics = Thrown.
Proof. reflexivity. Qed.

End HistoryProperties.

(* ------------------------------------------------------------------ *)
(** ** The processing order of the repositories *)

Section OrderFacts.
Import Js Registry Pipeline.

Lemma same_name_same_repo (l : list listedRepo) (x y : listedRepo) :
  NoDup (map (fun r => repo_name (data r)) l) ->
  In x l -> In y l -> repo_name (data x) = repo_name (data y) -> x = y.
Proof.
  induction l as [| a l IH]; simpl; [tauto |].
  intros Hnd Hx Hy Hname. inversion Hnd as [| ? ? Hnotin Hnd']; subst.
  destruct Hx as [-> | Hx], Hy as [-> | Hy].
  - reflexivity.
  - exfalso. apply Hnotin. rewrite Hname. now apply (in_map (fun r => repo_name (data r))).
  - exfalso. apply Hnotin. rewrite <- Hname. now apply (in_map (fun r => repo_name (data r))).
  - now apply IH.
Qed.

Lemma filter_split_Permutation {A : Type} (p : A -> bool) (l : list A) :
  Permutation l (filter p l ++ filter (fun x => negb (p x)) l).
Proof.
  induction l as [| a l IH]; simpl; [constructor |].
  destruct (p a); simpl.
  - now constructor.
  - now apply Permutation_cons_app.
Qed.

Lemma sumOf_Permutation {A : Type} (f : A -> Z) (l l' : list A) :
  Permutation l l' -> Accounting.sumOf f l = Accounting.sumOf f l'.
Proof.
  unfold Accounting.sumOf. induction 1; simpl; lia.
Qed.

(** X1: when the repositories of the listing have distinct names, the
    processing order is the primary repositories followed by the others,
    each group in the order of the listing; it is a permutation of the
    listing, so every repository is processed once and a total summed over
    the processed repositories is the total over the listing. *)
Theorem process_order_partition (allRepos : list listedRepo) :
  NoDup (map (fun r => repo_name (data r)) allRepos) ->
  allReposInProcessOrder allRepos
  = filter isPrimary allRepos ++ filter (fun r => negb (isPrimary r)) allRepos
  /\ Permutation allRepos (allReposInProcessOrder allRepos)
  /\ forall f : listedRepo -> Z,
      Accounting.sumOf f (allReposInProcessOrder allRepos) = Accounting.sumOf f allRepos.
Proof.
  intros Hnd.
  assert (Heq : allReposInProcessOrder allRepos
                = filter isPrimary allRepos ++ filter (fun r => negb (isPrimary r)) allRepos).
  { unfold allReposInProcessOrder. f_equal. apply filter_ext_in.
    intros repo Hrepo. f_equal.
    destruct (isPrimary repo) eqn:Hp.
    - apply existsb_exists. exists repo. split.
      + apply filter_In. now split.
      + apply String.eqb_refl.
    - destruct (existsb _ _) eqn:Hex; [| reflexivity].
      apply existsb_exists in Hex. destruct Hex as (p & Hin & Hname).
      apply filter_In in Hin. destruct Hin as [Hin Hprim].
      apply String.eqb_eq in Hname.
      rewrite (same_name_same_repo allRepos p repo Hnd Hin Hrepo Hname) in Hprim.
      congruence. }
  split; [exact Heq |].
  assert (Hperm : Permutation allRepos (allReposInProcessOrder allRepos))
    by (rewrite Heq; apply filter_split_Permutation).
  split; [exact Hperm |].
  intros f. symmetry. now apply sumOf_Permutation.
Qed.

Lemma process_order_partition_witness :
  allReposInProcessOrder Scenarios.sampleListing
  = filter isPrimary Scenarios.sampleListing
    ++ filter (fun r => negb (isPrimary r)) Scenarios.sampleListing
  /\ Permutation Scenarios.sampleListing (allReposInProcessOrder Scenarios.sampleListing)
  /\ forall f : listedRepo -> Z,
      Accounting.sumOf f (allReposInProcessOrder Scenarios.sampleListing)
      = Accounting.sumOf f Scenarios.sampleListing.
Proof.
  apply (process_order_partition Scenarios.sampleListing).
  repeat constructor; simpl; intuition discriminate.
Defined.

End OrderFacts.

(* ------------------------------------------------------------------ *)
(** ** What the scan credits *)

Section AccountingFacts.
Import Js Registry Accounting.

Lemma total_app (m m' : registry) : total (m ++ m') = (total m + total m')%Z.
Proof.
  unfold total. induction m as [| [k d] m IH]; simpl; [reflexivity |].
  simpl in IH. rewrite IH. lia.
Qed.

Lemma has_get (k : string) (m : registry) :
  has k m = true -> exists d, get k m = Some d.
Proof. unfold has. destruct (get k m) as [d |]; [eauto | discriminate]. Qed.

Lemma total_upsertLogin (repoName : string) (u : apiUser) (delta : Z) (m : registry) :
  total (upsertLogin repoName u delta m)
  = (total m + if truthy (user_login u) then delta else 0)%Z.
Proof.
  unfold upsertLogin. destruct (truthy (user_login u)); cbn [negb]; [| lia].
  destruct (has (toLowerCase (user_login u)) m) eqn:Hhas; cbn [negb].
  - destruct (has_get _ _ Hhas) as [d Hd].
    rewrite (total_update _ _ _ _ Hd). simpl. lia.
  - rewrite (set_fresh _ _ _ Hhas).
    rewrite (total_update _ _ _ _ (get_app_fresh _ (freshDirect u) _ Hhas)).
    rewrite total_app. unfold total. simpl. lia.
Qed.

Lemma total_processCoAuthor (repoName : string) (m : registry) (c : Extractor.candidate) :
  total (processCoAuthor repoName m c) = (total m + 1)%Z.
Proof.
  unfold processCoAuthor.
  destruct (findByEmail _ m) as [k |] eqn:Hfind.
  - destruct (findByEmail_Some _ _ _ Hfind) as (d & stored & Hin & _).
    assert (Hhas : has k m = true).
    { apply has_keys. change k with (fst (k, d)). now apply in_map. }
    destruct (has_get _ _ Hhas) as [d0 Hd0].
    rewrite (total_update _ _ _ _ Hd0). simpl. lia.
  - rewrite (set_fresh _ _ _ (finalUsername_fresh _ _ m)).
    rewrite total_app. unfold total. simpl. lia.
Qed.

Lemma total_fold {A : Type} (step : registry -> A -> registry) (f : A -> Z) (l : list A) :
  (forall m x, total (step m x) = (total m + f x)%Z) ->
  forall m, total (fold_left step l m) = (total m + sumOf f l)%Z.
Proof.
  intros Hstep. induction l as [| x l IH]; intros m; simpl; [lia |].
  rewrite IH, Hstep. lia.
Qed.

Lemma total_processCommit (repoName : string) (m : registry) (c : apiCommit) :
  total (processCommit repoName m c) = (total m + commitCredit c)%Z.
Proof.
  unfold processCommit, commitCredit.
  destruct (truthy (message c)); cbn [negb]; [| lia].
  rewrite (total_fold (processCoAuthor repoName) (fun _ => 1%Z));
    [| intros; apply total_processCoAuthor].
  unfold processCommitAuthor.
  assert (Hones : forall l : list Extractor.candidate,
             sumOf (fun _ => 1%Z) l = Z.of_nat (List.length l)).
  { induction l as [| x l IH]; [reflexivity |].
    cbn [sumOf fold_right List.length]. unfold sumOf in IH. rewrite IH. lia. }
  rewrite Hones. destruct (author c) as [u |]; [| lia].
  rewrite total_upsertLogin. lia.
Qed.

Lemma total_processRepo (m : registry) (repo : apiRepo) :
  total (processRepo m repo) = (total m + repoCredit repo)%Z.
Proof.
  unfold processRepo, repoCredit.
  rewrite (total_fold _ commitCredit); [| intros; apply total_processCommit].
  rewrite (total_fold _ listingCredit); [lia |].
  intros m0 x. unfold processContributor, listingCredit. apply total_upsertLogin.
Qed.

(** What the scan has counted. *)
Lemma scan_credited (repos : list apiRepo) :
  total (scan repos) = sumOf repoCredit repos.
Proof.
  unfold scan. rewrite (total_fold _ repoCredit); [reflexivity |].
  apply total_processRepo.
Qed.

(** X2: the contributions of the registry after the scan add up to what the
    scan credited: for every repository, the contributions of the listed
    contributors that have a login, one for every commit with a message whose
    author has a login, and one for every co-author extracted from such a
    message.  The e-mail resolution and the deduplication leave that sum as
    it is. *)
Theorem scan_total (repos : list apiRepo) :
  total (scan repos) = sumOf repoCredit repos
  /\ forall emailToGitHubUser : list (string * githubUser),
      exists (m' : registry) (mergedLogins : list string),
        Pipeline.contributorsOf repos emailToGitHubUser = Some (m', mergedLogins)
        /\ total m' = sumOf repoCredit repos.
Proof.
  assert (Hscan : total (scan repos) = sumOf repoCredit repos).
  { unfold scan. rewrite (total_fold _ repoCredit); [reflexivity |].
    apply total_processRepo. }
  split; [exact Hscan |]. intros emailToGitHubUser.
  destruct (contributorsOf_total repos emailToGitHubUser) as (m' & ml & Hrun & Htotal).
  exists m', ml. split; [exact Hrun | congruence].
Qed.

End AccountingFacts.

(* ------------------------------------------------------------------ *)
(** ** The order of the repositories and the registry of a run *)

Section OrderOfRepositories.
Import Js Registry Pipeline Accounting Samples.

(** C8, as the code has it: in whatever order the repositories are
    processed, the run ends with a registry that holds the same sum of
    contributions.  The aggregates of the single contributors are the same in
    any order for the registry the scan builds, before the deduplication,
    and as long as no commit names a co-author: every key then has the same
    contributions and the same set of repositories.  (A co-author gets a key
    that depends on the records that exist when it is met, and the
    deduplication keeps, of two records with the same score, the one met
    first.) *)
Theorem scan_order_insensitive (repos repos' : list apiRepo) :
  Permutation repos repos' ->
  (forall emailToGitHubUser : list (string * githubUser),
      exists (m1 : registry) (l1 : list string) (m2 : registry) (l2 : list string),
        contributorsOf repos emailToGitHubUser = Some (m1, l1)
        /\ contributorsOf repos' emailToGitHubUser = Some (m2, l2)
        /\ total m1 = total m2)
  /\ ((forall repo, In repo repos -> noCoAuthors repo) ->
      forall k : string,
        has k (scan repos') = has k (scan repos)
        /\ contributionsOf k (scan repos') = contributionsOf k (scan repos)
        /\ forall r, In r (repositoriesOf k (scan repos'))
                     <-> In r (repositoriesOf k (scan repos))).
Proof.
  intros Hperm. split.
  - intros emailToGitHubUser.
    destruct (contributorsOf_total repos emailToGitHubUser) as (m1 & l1 & H1 & Ht1).
    destruct (contributorsOf_total repos' emailToGitHubUser) as (m2 & l2 & H2 & Ht2).
    exists m1, l1, m2, l2. split; [exact H1 |]. split; [exact H2 |].
    rewrite Ht1, Ht2, !scan_credited. now apply sumOf_Permutation.
  - intros Hnone. now apply scan_aggregates_Permutation.
Qed.

Lemma scan_order_insensitive_witness :
  (forall emailToGitHubUser : list (string * githubUser),
      exists (m1 : registry) (l1 : list string) (m2 : registry) (l2 : list string),
        contributorsOf [repoA; repoC] emailToGitHubUser = Some (m1, l1)
        /\ contributorsOf [repoC; repoA] emailToGitHubUser = Some (m2, l2)
        /\ total m1 = total m2)
  /\ (forall k : string,
        has k (scan [repoC; repoA]) = has k (scan [repoA; repoC])
        /\ contributionsOf k (scan [repoC; repoA]) = contributionsOf k (scan [repoA; repoC])
        /\ forall r, In r (repositoriesOf k (scan [repoC; repoA]))
                     <-> In r (repositoriesOf k (scan [repoA; repoC]))).
Proof.
  split.
  - apply (proj1 (scan_order_insensitive [repoA; repoC] [repoC; repoA]
                                         (perm_swap repoC repoA []))).
  - apply (proj2 (scan_order_insensitive [repoA; repoC] [repoC; repoA]
                                         (perm_swap repoC repoA []))).
    intros repo [<- | [<- | []]] c Hc; simpl in Hc.
    + contradiction.
    + destruct Hc as [<- | []]. reflexivity.
Defined.

End OrderOfRepositories.

(* ------------------------------------------------------------------ *)
(** ** Successive runs and the history *)

Section RunsFacts.
Import History Runs.

Lemma updateHistory_lastN (file : historyFile) (currentMetrics : metrics)
    (old : list json) :
  storedHistory file = Some old ->
  updateHistory file currentMetrics
  = Written (lastN 100 (old ++ [historicalEntry currentMetrics])).
Proof.
  intros Hold. destruct (updateHistory_written file currentMetrics old Hold) as [H _].
  exact H.
Qed.

Lemma lastN_snoc {A : Type} (n : nat) (l : list A) (x : A) :
  (0 < n)%nat -> lastN n (lastN n l ++ [x]) = lastN n (l ++ [x]).
Proof.
  intros Hn. destruct (Nat.le_gt_cases (List.length l) n) as [Hle | Hgt].
  - unfold lastN at 2. replace (List.length l - n)%nat with 0%nat by lia.
    reflexivity.
  - unfold lastN. rewrite !length_app, length_skipn. cbn [List.length].
    replace (List.length l - (List.length l - n) + 1 - n)%nat with 1%nat by lia.
    replace (List.length l + 1 - n)%nat with (S (List.length l - n)) by lia.
    rewrite !skipn_app, length_skipn.
    replace (1 - (List.length l - (List.length l - n)))%nat with 0%nat by lia.
    replace (S (List.length l - n) - List.length l)%nat with 0%nat by lia.
    rewrite skipn_skipn. reflexivity.
Qed.

Lemma runs_stored (collected : list metrics) :
  forall (file : historyFile) (old : list json),
    storedHistory file = Some old ->
    storedHistory (runs updateHistory file collected)
    = Some (fold_left (fun h m => lastN 100 (h ++ [historicalEntry m])) collected old).
Proof.
  induction collected as [| m ms IH]; intros file old Hold; [exact Hold |].
  simpl. apply IH. now rewrite (updateHistory_lastN _ _ _ Hold).
Qed.

Lemma windows_compose (rest : list metrics) (old : list json) (first : metrics) :
  fold_left (fun h m => lastN 100 (h ++ [historicalEntry m])) (first :: rest) old
  = lastN 100 (old ++ map historicalEntry (first :: rest)).
Proof.
  induction rest as [| m ms IH] using rev_ind; [reflexivity |].
  rewrite app_comm_cons, fold_left_app, IH. cbn [fold_left].
  rewrite map_app, app_assoc. apply lastN_snoc. lia.
Qed.

(** X3: the history updates of [scripts/collect-metrics.js] compose:
    starting from a history file that holds an array (or is missing or
    unreadable), after the updates of one run or more the file holds the last
    hundred entries of the old array followed by the entries of the runs, in
    order. *)
Theorem history_runs (file : historyFile) (old : list json) (first : metrics)
    (rest : list metrics) :
  storedHistory file = Some old ->
  storedHistory (runs updateHistory file (first :: rest))
  = Some (lastN 100 (old ++ map historicalEntry (first :: rest))).
Proof.
  intros Hold. rewrite (runs_stored _ _ _ Hold). f_equal. apply windows_compose.
Qed.

Lemma history_runs_witness :
  storedHistory (runs updateHistory (Parsed (JArr (repeat JNull 100)))
                      [Samples.sampleMetrics; Samples.sampleMetrics])
  = Some (lastN 100 (repeat JNull 100
                     ++ map historicalEntry [Samples.sampleMetrics; Samples.sampleMetrics])).
Proof.
  apply (history_runs (Parsed (JArr (repeat JNull 100))) (repeat JNull 100)
                      Samples.sampleMetrics [Samples.sampleMetrics]).
  reflexivity.
Defined.

End RunsFacts.

(* ------------------------------------------------------------------ *)
(** ** The e-mail resolution *)

Section ResolveFacts.
Import Js Registry.

Lemma resolveOne_idempotent (found : list (string * githubUser)) (d : contributor) :
  resolveOne found (resolveOne found d) = resolveOne found d.
Proof.
  unfold resolveOne at 2 3.
  destruct (email d) as [e |] eqn:He.
  - destruct (truthy e && pending_github_lookup d) eqn:Hc.
    + destruct (lookup (toLowerCase e) found) as [u |] eqn:Hu.
      * unfold resolveOne. cbn [email pending_github_lookup].
        rewrite andb_false_r. reflexivity.
      * unfold resolveOne. now rewrite He, Hc, Hu.
    + unfold resolveOne. now rewrite He, Hc.
  - unfold resolveOne. now rewrite He.
Qed.

Lemma get_resolve (found : list (string * githubUser)) (k : string) (m : registry) :
  get k (resolve found m) = option_map (resolveOne found) (get k m).
Proof.
  induction m as [| [k' d] m IH]; simpl; [reflexivity |].
  destruct (k' =? k); [reflexivity | exact IH].
Qed.

(** X4: the e-mail resolution keeps the keys and the contributions of the
    registry; running it again with the same lookup results changes nothing;
    and after it no record with an e-mail is still pending when the lookup
    found a user for that e-mail, lower-cased. *)
Theorem resolve_settles (found : list (string * githubUser)) (m : registry) :
  keys (resolve found m) = keys m
  /\ total (resolve found m) = total m
  /\ resolve found (resolve found m) = resolve found m
  /\ forall (k : string) (d : contributor) (e : string),
      get k (resolve found m) = Some d ->
      email d = Some e -> e <> "" -> pending_github_lookup d = true ->
      lookup (toLowerCase e) found = None.
Proof.
  split; [apply keys_resolve |]. split; [apply total_resolve |]. split.
  - unfold resolve. rewrite map_map. apply map_ext. intros [k d]. simpl.
    now rewrite resolveOne_idempotent.
  - intros k d e Hget He Hne Hpending.
    rewrite get_resolve in Hget. destruct (get k m) as [d0 |]; [| discriminate].
    simpl in Hget. injection Hget as <-.
    unfold resolveOne in He, Hpending.
    destruct (email d0) as [e0 |] eqn:He0.
    + destruct (truthy e0 && pending_github_lookup d0) eqn:Hc.
      * destruct (lookup (toLowerCase e0) found) as [u |] eqn:Hu.
        -- simpl in Hpending. discriminate.
        -- rewrite He0 in He. injection He as <-. exact Hu.
      * rewrite He0 in He. injection He as <-.
        apply truthy_true in Hne. rewrite Hne, Hpending in Hc. discriminate.
    + rewrite He0 in He. discriminate.
Qed.

End ResolveFacts.

(* ------------------------------------------------------------------ *)
(** ** Inputs an expression can match *)

Section MatcherFacts.
Import Js Regex Matching.

Lemma rep_upward (P : string -> Prop) (greedy : bool) (lo : nat) (p : charset)
    (k : cont) (caps : list string) :
  upward P ->
  (forall prev' s' res, k prev' s' caps = Some res -> P s') ->
  forall (s : string) (prev : option ascii) (n : nat) (res : string * list string),
    rep greedy lo p k caps prev s n = Some res -> P s.
Proof.
  intros Hup Hk. induction s as [| c s IH]; intros prev n res Hrun.
  - destruct greedy; simpl in Hrun.
    + destruct (lo <=? n)%nat; [eauto | discriminate].
    + destruct (lo <=? n)%nat; [| discriminate].
      destruct (k prev "" caps) eqn:Hkk; [eauto | discriminate].
  - destruct greedy; simpl in Hrun.
    + destruct (p c).
      * destruct (rep true lo p k caps (Some c) s (S n)) eqn:Hrec.
        -- apply Hup. eauto.
        -- destruct (lo <=? n)%nat; [eauto | discriminate].
      * destruct (lo <=? n)%nat; [eauto | discriminate].
    + destruct (if (lo <=? n)%nat then k prev (String c s) caps else None) eqn:Hkk.
      * destruct (lo <=? n)%nat; [eauto | discriminate].
      * destruct (p c); [| discriminate]. apply Hup. eauto.
Qed.

Lemma run_upward (P : string -> Prop) :
  upward P ->
  forall (r : re) (prev : option ascii) (s : string) (caps : list string) (k : cont)
         (res : string * list string),
    (forall prev' s' caps' res', k prev' s' caps' = Some res' -> P s') ->
    run r prev s caps k = Some res -> P s.
Proof.
  intros Hup. induction r as [| p | | | | greedy lo p | r1 IH1 r2 IH2 | r1 IH1];
    intros prev s caps k res Hk Hrun; simpl in Hrun.
  - eapply Hk; eassumption.
  - destruct s as [| c s]; [discriminate |].
    destruct (p c); [| discriminate]. apply Hup. eapply Hk; eassumption.
  - destruct prev; [discriminate | eapply Hk; eassumption].
  - destruct s; [eapply Hk; eassumption | discriminate].
  - destruct (xorb _ _); [eapply Hk; eassumption | discriminate].
  - eapply rep_upward; [exact Hup | | exact Hrun].
    intros prev' s' res' Hk'. eapply Hk; eassumption.
  - eapply IH1; [| exact Hrun]. intros prev' s' caps' res' Hrun2.
    cbv beta in Hrun2. eapply IH2; [| exact Hrun2]. exact Hk.
  - eapply IH1; [| exact Hrun]. intros prev' s' caps' res' Hk'.
    cbv beta in Hk'. eapply Hk; exact Hk'.
Qed.

(** An expression [seq (before ++ rest)] matches only an input on which, some
    way in, [seq rest] matches. *)
Lemma run_seq_upward (P : string -> Prop) (rest : list re) :
  upward P ->
  (forall prev s caps k res, run (seq rest) prev s caps k = Some res -> P s) ->
  forall (before : list re) (prev : option ascii) (s : string) (caps : list string)
         (k : cont) (res : string * list string),
    run (seq (before ++ rest)) prev s caps k = Some res -> P s.
Proof.
  intros Hup Hrest. induction before as [| r before IH]; intros prev s caps k res Hrun.
  - eapply Hrest; eassumption.
  - simpl in Hrun. eapply (run_upward P Hup r); [| exact Hrun].
    intros prev' s' caps' res' Hrun'. cbv beta in Hrun'. eapply IH; exact Hrun'.
Qed.

Lemma searchFrom_upward (P : string -> Prop) (r : re) :
  upward P ->
  (forall prev s res, matchHere r prev s = Some res -> P s) ->
  forall (s : string) (prev : option ascii) (i : nat) (m : matchResult),
    searchFrom r prev s i = Some m -> P s.
Proof.
  intros Hup Hr. induction s as [| c s IH]; intros prev i m Hs; simpl in Hs.
  - destruct (matchHere r prev "") eqn:Hm; [eauto | discriminate].
  - destruct (matchHere r prev (String c s)) eqn:Hm; [eauto |].
    apply Hup. eauto.
Qed.

Lemma matchAllFrom_upward (P : string -> Prop) (r : re) :
  upward P ->
  (forall prev s res, matchHere r prev s = Some res -> P s) ->
  forall (s : string) (prev : option ascii) (skip i : nat) (m : matchResult),
    In m (matchAllFrom r prev s skip i) -> P s.
Proof.
  intros Hup Hr. induction s as [| c s IH]; intros prev skip i m Hin.
  - destruct skip; simpl in Hin; [| contradiction].
    destruct (matchHere r prev "") eqn:Hm; [eauto | contradiction].
  - destruct skip; simpl in Hin.
    + destruct (matchHere r prev (String c s)) eqn:Hm; [eauto |].
      apply Hup. eauto.
    + apply Hup. eauto.
Qed.

(** [run] of a literal. *)
Lemma run_lit (w : string) :
  forall (prev : option ascii) (s : string) (caps : list string) (k : cont),
    run (lit w) prev s caps k
    = if startsWith s w then k (lastOpt prev w) (drop (String.length w) s) caps
      else None.
Proof.
  induction w as [| c w IH]; intros prev s caps k.
  - simpl. now destruct s.
  - destruct s as [| c' s]; [reflexivity |].
    cbn [lit run startsWith]. destruct (Ascii.eqb_spec c c') as [-> | Hne]; cbn [andb].
    + rewrite IH. reflexivity.
    + reflexivity.
Qed.

End MatcherFacts.

(* ------------------------------------------------------------------ *)
(** ** Messages without addresses *)

Section ExtractorNeeds.
Import Js Regex Extractor Matching.

Lemma allChars_occurs (q : ascii -> bool) (s a x b : string) :
  s = (a ++ x ++ b)%string -> allChars q s = true -> allChars q x = true.
Proof.
  intros -> H. rewrite !allChars_append in H.
  apply andb_true_iff in H. destruct H as [_ H].
  apply andb_true_iff in H. tauto.
Qed.

Lemma allChars_replaceAllFrom (q : ascii -> bool) (pat by_ : string) :
  allChars q by_ = true ->
  forall (s : string) (skip : nat),
    allChars q s = true -> allChars q (replaceAllFrom pat by_ s skip) = true.
Proof.
  intros Hby. induction s as [| c s IH]; intros skip Hs; [reflexivity |].
  simpl in Hs. apply andb_true_iff in Hs. destruct Hs as [Hc Hs].
  cbn [replaceAllFrom]. destruct skip as [| n]; [| now apply IH].
  destruct (startsWith (String c s) pat).
  - rewrite allChars_append, Hby. now apply IH.
  - simpl. rewrite Hc. now apply IH.
Qed.

Lemma allChars_take (q : ascii -> bool) (n : nat) (s : string) :
  allChars q s = true -> allChars q (take n s) = true.
Proof.
  revert s. induction n as [| n IH]; intros [| c s] H; try reflexivity.
  simpl in *. apply andb_true_iff in H. destruct H as [Hc Hs].
  now rewrite Hc, IH.
Qed.

Lemma allChars_drop (q : ascii -> bool) (n : nat) (s : string) :
  allChars q s = true -> allChars q (drop n s) = true.
Proof.
  revert s. induction n as [| n IH]; intros [| c s] H; try assumption.
  simpl in *. apply andb_true_iff in H. destruct H as [Hc Hs]. now apply IH.
Qed.

Lemma allChars_sections (q : ascii -> bool) (rawMessage : string) (ps : list nat) :
  allChars q rawMessage = true ->
  forall x, In x (sections rawMessage ps) -> allChars q x = true.
Proof.
  intros Hraw. induction ps as [| p ps IH]; intros x Hx; [contradiction |].
  destruct Hx as [<- | Hx]; [| now apply IH].
  unfold substring. now apply allChars_take, allChars_drop.
Qed.

Lemma allChars_consHead (q : ascii -> bool) (c : ascii) (l : list string) :
  q c = true -> (forall x, In x l -> allChars q x = true) ->
  forall x, In x (consHead c l) -> allChars q x = true.
Proof.
  intros Hc Hl x Hx. destruct l as [| h t]; simpl in Hx.
  - destruct Hx as [<- | []]. simpl. now rewrite Hc.
  - destruct Hx as [<- | Hx].
    + simpl. rewrite Hc. apply Hl. now left.
    + apply Hl. now right.
Qed.

Lemma allChars_splitFrom (q : ascii -> bool) (r : re) :
  forall (s : string) (prev : option ascii) (skip : nat),
    allChars q s = true ->
    forall x, In x (splitFrom r prev s skip) -> allChars q x = true.
Proof.
  induction s as [| c s IH]; intros prev skip Hs x Hx.
  - destruct Hx as [<- | []]. reflexivity.
  - simpl in Hs. apply andb_true_iff in Hs. destruct Hs as [Hc Hs].
    cbn [splitFrom] in Hx. destruct skip as [| n]; [| now apply (IH (Some c) n)].
    destruct (matchHere r prev (String c s)) as [res |].
    + destruct (String.length (String c s) - String.length (fst res))%nat.
      * apply (allChars_consHead q c _ Hc (IH (Some c) 0%nat Hs) x Hx).
      * destruct Hx as [<- | Hx]; [reflexivity | now apply (IH (Some c) n)].
    + apply (allChars_consHead q c _ Hc (IH (Some c) 0%nat Hs) x Hx).
Qed.

Lemma flat_map_nil {A B : Type} (f : A -> list B) (l : list A) :
  (forall x, In x l -> f x = []) -> flat_map f l = [].
Proof.
  induction l as [| a l IH]; intros H; [reflexivity |].
  simpl. rewrite (H a) by now left. apply IH. intros x Hx. apply H. now right.
Qed.

Lemma no_member_nil {A : Type} (l : list A) : (forall x, ~ In x l) -> l = [].
Proof. destruct l as [| a l]; [reflexivity |]. intros H. destruct (H a). now left. Qed.

Lemma uniqueBy_incl (l : list candidate) (seen : list string) (c : candidate) :
  In c (uniqueBy seen l) -> In c l.
Proof.
  revert seen. induction l as [| a l IH]; intros seen Hc; [contradiction |].
  simpl in Hc. destruct (negb (truthy (email a)) || _).
  - right. eauto.
  - destruct Hc as [<- | Hc]; [now left | right; eauto].
Qed.

Lemma has_upward (c : ascii) : upward (fun s => lacks c s = false).
Proof.
  intros x s H. unfold lacks in *. simpl. rewrite H. apply andb_false_r.
Qed.

(** An expression that goes on with the character [c] matches no text that
    lacks it. *)
Lemma run_needs (c : ascii) (before rest : list re) (prev : option ascii) (s : string)
    (caps : list string) (k : cont) (res : string * list string) :
  run (seq (before ++ lit (String c EmptyString) :: rest)) prev s caps k = Some res ->
  lacks c s = false.
Proof.
  apply (run_seq_upward (fun s => lacks c s = false)); [apply has_upward |].
  clear. intros prev s caps k res Hrun. cbn [seq run] in Hrun.
  rewrite run_lit in Hrun.
  destruct s as [| x s]; [discriminate |]. cbn [startsWith] in Hrun.
  destruct (Ascii.eqb_spec c x) as [<- | Hne]; [| discriminate].
  unfold lacks. simpl. now rewrite Ascii.eqb_refl.
Qed.

Lemma exec_needs (c : ascii) (before rest : list re) (s : string) :
  lacks c s = true ->
  exec (seq (before ++ lit (String c EmptyString) :: rest)) s = None.
Proof.
  intros Hs. unfold exec.
  destruct (searchFrom _ None s 0) as [m |] eqn:Hm; [| reflexivity].
  apply (searchFrom_upward (fun s => lacks c s = false)) in Hm.
  - congruence.
  - apply has_upward.
  - intros prev s' res. apply run_needs.
Qed.

Lemma matchAll_needs (c : ascii) (before rest : list re) (s : string) :
  lacks c s = true ->
  matchAll (seq (before ++ lit (String c EmptyString) :: rest)) s = [].
Proof.
  intros Hs. apply no_member_nil. intros m Hm. unfold matchAll in Hm.
  apply (matchAllFrom_upward (fun s => lacks c s = false)) in Hm.
  - congruence.
  - apply has_upward.
  - intros prev s' res. apply run_needs.
Qed.

Lemma bracketed_needs (nameRegex : re) (src text : string) :
  lacks "<" text = true -> bracketed nameRegex src text = [].
Proof.
  intros H. unfold bracketed.
  change angleEmailRegex
    with (seq ([] ++ lit "<" :: [Group (Rep true 1 (noneOf ">")); lit ">"])).
  now rewrite (exec_needs "<" [] _ text H).
Qed.

Lemma lacks_normalized (c : ascii) (by_ pat : string) (s : string) :
  lacks c by_ = true -> lacks c s = true -> lacks c (replaceAll pat by_ s) = true.
Proof. intros Hby Hs. now apply allChars_replaceAllFrom. Qed.

Lemma step1_needs (message : string) : lacks "<" message = true -> step1 message = [].
Proof.
  intros H. unfold step1. destruct (hasMarker message); [| reflexivity].
  apply flat_map_nil. intros l Hl.
  destruct (test markerLineRegex (trim l)); [| reflexivity].
  apply bracketed_needs.
  destruct (trim_occurs l) as (a & b & Htrim).
  apply (allChars_occurs _ l a (trim l) b Htrim).
  destruct (split_occurs _ _ _ Hl) as (a' & b' & Hsplit).
  apply (allChars_occurs _ _ a' l b' Hsplit).
  now apply lacks_normalized.
Qed.

Lemma raw_lacks (c : ascii) (message : string) :
  lacks c message = true -> Ascii.eqb c " " = false ->
  lacks c (replaceAll lf " " (replaceAll crlf " " message)) = true.
Proof.
  intros H Hc.
  assert (Hsp : lacks c " " = true) by (unfold lacks; simpl; now rewrite Hc).
  now apply lacks_normalized; [| apply lacks_normalized].
Qed.

Lemma step2_needs (message : string) : lacks "<" message = true -> step2 message = [].
Proof.
  intros H. unfold step2. destruct (includes message "Co-Authored-By:"); [| reflexivity].
  apply flat_map_nil. intros x Hx. apply bracketed_needs.
  apply (allChars_sections _ _ _ (raw_lacks "<" message H eq_refl) x Hx).
Qed.

Lemma desperate_needs (message : string) :
  lacks "<" message = true -> desperate message = [].
Proof.
  intros H. unfold desperate. cbv zeta.
  destruct (includes _ "Co-Authored-By:"); [| reflexivity].
  apply flat_map_nil. intros x Hx. apply bracketed_needs.
  unfold splitRe in Hx.
  pose proof (allChars_splitFrom _ markerSplitRegex _ None 0%nat
                (raw_lacks "<" message H eq_refl)) as Hall.
  destruct (splitFrom markerSplitRegex None _ 0) as [| h t]; [contradiction |].
  apply Hall. now right.
Qed.

Lemma step3_needs (message : string) : lacks "<" message = true -> step3 message = [].
Proof.
  intros H. unfold step3, patterns. cbn [flat_map].
  change standardPattern
    with (seq ([lit_i "co"; Chr (union (oneOf "-") space); lit_i "authored";
                Chr (union (oneOf "-") space); lit_i "by:";
                Rep true 1 (union space (oneOf lf));
                Group (Rep false 1 (noneOf (String "<" lf)));
                Rep true 0 (union space (oneOf lf))]
               ++ lit "<" :: [Group (Rep true 1 (noneOf (String ">" lf))); lit ">"])).
  change alternatePattern
    with (seq ([lit_i "co-author:";
                Rep true 1 (union space (oneOf lf));
                Group (Rep false 1 (noneOf (String "<" lf)));
                Rep true 0 (union space (oneOf lf))]
               ++ lit "<" :: [Group (Rep true 1 (noneOf (String ">" lf))); lit ">"])).
  now rewrite !(matchAll_needs "<" _ _ message H).
Qed.

Lemma run_Seq_Group (r1 r2 : re) (prev : option ascii) (s : string)
    (caps : list string) (k : cont) :
  run (Seq (Group r1) r2) prev s caps k
  = run r1 prev s caps
      (fun prev' s' caps' =>
         run r2 prev' s' (caps' ++ [take (String.length s - String.length s') s]) k).
Proof. reflexivity. Qed.

Lemma emailPattern_needs (prev : option ascii) (s : string) (res : string * list string) :
  matchHere emailPattern prev s = Some res -> lacks "@" s = false.
Proof.
  unfold matchHere, emailPattern.
  apply (run_seq_upward (fun s => lacks "@" s = false) _ (has_upward "@")) with
    (before := [WordBoundary]).
  clear. intros prev s caps k res Hrun.
  change (seq [Group ?g; WordBoundary]) with (Seq (Group g) (seq [WordBoundary])) in Hrun.
  rewrite run_Seq_Group in Hrun.
  exact (run_needs "@" [Rep true 1 (union alnum (oneOf "._%+-"))] _ _ _ _ _ _ Hrun).
Qed.

Lemma step4_needs (message : string) : lacks "@" message = true -> step4 message = [].
Proof.
  intros H. unfold step4.
  replace (matchAll emailPattern message) with (@nil matchResult); [reflexivity |].
  symmetry. apply no_member_nil. intros m Hm. unfold matchAll in Hm.
  apply (matchAllFrom_upward (fun s => lacks "@" s = false)) in Hm.
  - congruence.
  - apply has_upward.
  - apply emailPattern_needs.
Qed.

(** X5: a commit message without an opening angle bracket yields only
    candidates of the e-mail sweep, which have no name; a message that has
    no [@] either yields no candidate at all. *)
Theorem extractCoAuthors_needs_address (message : string) :
  lacks "<" message = true ->
  (forall c, In c (extractCoAuthors message) ->
             source c = "step4" /\ name c = "")
  /\ (lacks "@" message = true -> extractCoAuthors message = []).
Proof.
  intros Hlt.
  assert (Hco : coauthors message = step4 message).
  { unfold coauthors.
    now rewrite step1_needs, step2_needs, step3_needs, desperate_needs, app_nil_r. }
  split.
  - intros c Hc. unfold extractCoAuthors in Hc.
    destruct (negb (truthy message)); [contradiction |].
    apply uniqueBy_incl in Hc. rewrite Hco in Hc. unfold step4 in Hc.
    apply in_flat_map in Hc. destruct Hc as (m & _ & Hc).
    destruct (truthy (group 1 m)); [| contradiction].
    destruct Hc as [<- | []]. now split.
  - intros Hat. unfold extractCoAuthors.
    destruct (negb (truthy message)); [reflexivity |].
    now rewrite Hco, step4_needs.
Qed.

Lemma extractCoAuthors_needs_address_witness :
  (forall c, In c (extractCoAuthors "Bump version to 1.2.3") ->
             source c = "step4" /\ name c = "")
  /\ (lacks "@" "Bump version to 1.2.3" = true ->
      extractCoAuthors "Bump version to 1.2.3" = []).
Proof.
  apply (extractCoAuthors_needs_address "Bump version to 1.2.3"). reflexivity.
Defined.

End ExtractorNeeds.

(* ------------------------------------------------------------------ *)
(** ** The candidate kept for an e-mail *)

Section FirstFound.
Import Js Regex Extractor Matching.

Lemma uniqueBy_first (l : list candidate) :
  forall (seen : list string) (c : candidate),
    In c (uniqueBy seen l) ->
    exists before after,
      l = before ++ c :: after
      /\ forall c', In c' before -> email c' = "" \/ emailKey c' <> emailKey c.
Proof.
  induction l as [| a l IH]; intros seen c Hc; [contradiction |].
  cbn [uniqueBy] in Hc.
  destruct (negb (truthy (email a))) eqn:Hempty; cbn [orb] in Hc.
  - destruct (IH seen c Hc) as (before & after & -> & Hbefore).
    exists (a :: before), after. split; [reflexivity |].
    intros c' [<- | Hc']; [| now apply Hbefore].
    left. apply negb_true_iff in Hempty. now apply truthy_false.
  - destruct (existsb (String.eqb (toLowerCase (email a))) seen) eqn:Hseen.
    + destruct (IH seen c Hc) as (before & after & -> & Hbefore).
      exists (a :: before), after. split; [reflexivity |].
      intros c' [<- | Hc']; [| now apply Hbefore].
      right. intros Heq.
      destruct (uniqueBy_distinct (before ++ c :: after) seen) as [_ Hnot].
      destruct (Hnot c Hc) as [Hnotin _]. apply Hnotin.
      apply existsb_exists in Hseen. destruct Hseen as (x & Hx & Hxe).
      apply String.eqb_eq in Hxe. unfold emailKey in *. congruence.
    + destruct Hc as [<- | Hc].
      * exists [], l. split; [reflexivity |]. intros c' [].
      * destruct (IH _ c Hc) as (before & after & -> & Hbefore).
        exists (a :: before), after. split; [reflexivity |].
        intros c' [<- | Hc']; [| now apply Hbefore].
        right. intros Heq.
        destruct (uniqueBy_distinct (before ++ c :: after)
                    (toLowerCase (email a) :: seen)) as [_ Hnot].
        destruct (Hnot c Hc) as [Hnotin _]. apply Hnotin. left. exact Heq.
Qed.

(** X6: the empty message yields no candidate; a candidate returned has an
    e-mail, and it is the first candidate the scans found with that e-mail,
    up to case: every candidate found before it has no e-mail or another
    one. *)
Theorem extractCoAuthors_first_found (message : string) :
  extractCoAuthors "" = []
  /\ forall c,
      In c (extractCoAuthors message) ->
      email c <> ""
      /\ exists before after,
          coauthors message = before ++ c :: after
          /\ forall c', In c' before -> email c' = "" \/ emailKey c' <> emailKey c.
Proof.
  split; [reflexivity |]. intros c Hc. unfold extractCoAuthors in Hc.
  destruct (negb (truthy message)); [contradiction |]. split.
  - destruct (uniqueBy_distinct (coauthors message) []) as [_ Hnot].
    now destruct (Hnot c Hc).
  - now apply (uniqueBy_first _ []).
Qed.

End FirstFound.

(* ------------------------------------------------------------------ *)
(** ** First-party addresses *)

Section NormalizerFirstParty.
Import Js Regex Normalizer Matching.

Lemma run_lit_i_inv (w : string) :
  forall (prev : option ascii) (s : string) (caps : list string) (k : cont)
         (res : string * list string),
    run (lit_i w) prev s caps k = Some res ->
    exists a b, s = (a ++ b)%string /\ sameCi w a = true
                /\ k (lastOpt prev a) b caps = Some res.
Proof.
  induction w as [| c w IH]; intros prev s caps k res Hrun.
  - exists "", s. now repeat split.
  - cbn [lit_i run] in Hrun. destruct s as [| x s]; [discriminate |].
    destruct (ci (Ascii.eqb c) x) eqn:Hx; [| discriminate].
    destruct (IH _ _ _ _ _ Hrun) as (a & b & -> & Hsame & Hk).
    exists (String x a), b. repeat split; [| exact Hk].
    simpl. now rewrite Hx.
Qed.

Lemma sameCi_length (w a : string) :
  sameCi w a = true -> String.length a = String.length w.
Proof.
  revert a. induction w as [| c w IH]; intros [| x a] H; try discriminate; [reflexivity |].
  simpl in H. apply andb_true_iff in H. simpl. f_equal. now apply IH.
Qed.

Lemma sameCi_drop (n : nat) (w a : string) :
  sameCi w a = true -> sameCi (drop n w) (drop n a) = true.
Proof.
  revert w a. induction n as [| n IH]; intros w a H.
  - now destruct w, a.
  - destruct w as [| c w], a as [| x a]; try discriminate; [reflexivity |].
    simpl in H. apply andb_true_iff in H. simpl. now apply IH.
Qed.

Lemma drop_append (a b : string) (n : nat) :
  drop (String.length a + n) (a ++ b) = drop n b.
Proof. induction a as [| c a IH]; [reflexivity | exact IH]. Qed.

Lemma endsWithCi_upward (w : string) : upward (endsWithCi w).
Proof. intros c s (a & b & -> & H). now exists (String c a), b. Qed.

Lemma noReply_ending (email : string) (m : matchResult) :
  exec githubNoReplyRegex email = Some m ->
  endsWithCi "@users.noreply.github.com" email.
Proof.
  unfold exec. apply searchFrom_upward; [apply endsWithCi_upward |].
  intros prev s res. unfold matchHere, githubNoReplyRegex.
  apply (run_seq_upward _ _ (endsWithCi_upward _)) with
    (before := [Bol; Group (Rep true 1 digit); lit "+"; Group (Rep true 1 dot)]).
  clear. intros prev s caps k res Hrun.
  change (seq [lit_i ?w; Eol]) with (Seq (lit_i w) (Seq Eol Eps)) in Hrun.
  cbn [run] in Hrun. apply run_lit_i_inv in Hrun.
  destruct Hrun as (a & b & -> & Hsame & Hk).
  destruct b; [| discriminate]. exists "", a. split; [| exact Hsame].
  clear. induction a as [| c a IH]; [reflexivity |]. simpl in *. now rewrite IH.
Qed.

Lemma ending_mismatch (suffix email : string) (n : nat) :
  (String.length suffix + n = 25)%nat ->
  sameCi (drop n "@users.noreply.github.com") suffix = false ->
  endsWith email suffix = true ->
  endsWithCi "@users.noreply.github.com" email -> False.
Proof.
  intros Hlen Hdiff Hends (a & b & -> & Hsame).
  unfold endsWith in Hends. apply andb_true_iff in Hends. destruct Hends as [_ Hends].
  apply String.eqb_eq in Hends.
  pose proof (sameCi_length _ _ Hsame) as Hb. simpl in Hb.
  rewrite length_append, Hb in Hends.
  replace (String.length a + 25 - String.length suffix)%nat
    with (String.length a + n)%nat in Hends by lia.
  rewrite drop_append in Hends.
  apply (sameCi_drop n) in Hsame. rewrite Hends in Hsame. congruence.
Qed.

Lemma includes_char (c : ascii) (s : string) :
  includes s (String c EmptyString) = negb (lacks c s).
Proof.
  unfold lacks. induction s as [| x s IH]; [reflexivity |].
  cbn [includes startsWith allChars]. rewrite IH.
  destruct s; destruct (Ascii.eqb c x); reflexivity.
Qed.

Lemma first_party_local_part (email name : string) :
  endsWith email "@github.com" = true
  \/ endsWith email "@users.github.com" = true
  \/ (endsWith email "@users.noreply.github.com" = true /\ includes email "+" = false) ->
  extractUsername email name = Some (firstPiece "@" email).
Proof.
  intros H. unfold extractUsername.
  assert (Hno : noReplyHandle email = None).
  { unfold noReplyHandle.
    destruct (exec githubNoReplyRegex email) as [m |] eqn:Hm; [| reflexivity].
    exfalso. destruct H as [H | [H | [_ H]]].
    - apply (ending_mismatch "@github.com" email 14 eq_refl eq_refl H).
      apply (noReply_ending _ _ Hm).
    - apply (ending_mismatch "@users.github.com" email 8 eq_refl eq_refl H).
      apply (noReply_ending _ _ Hm).
    - rewrite includes_char in H. apply negb_false_iff in H.
      unfold githubNoReplyRegex in Hm.
      change (seq [Bol; ?g; lit "+"; ?h; ?i; Eol])
        with (seq ([Bol; g] ++ lit "+" :: [h; i; Eol])) in Hm.
      rewrite (exec_needs "+" _ _ email H) in Hm. discriminate. }
  rewrite Hno.
  assert (Hdom : githubDomain email = true).
  { unfold githubDomain. destruct H as [-> | [-> | [-> ->]]]; simpl;
      rewrite ?orb_true_r; reflexivity. }
  now rewrite Hdom.
Qed.

(** X7: for an address that ends with [@github.com] or [@users.github.com],
    or with [@users.noreply.github.com] and has no [+], [extractUsername]
    returns the part of the address before the first [@], whatever the name
    is. *)
Theorem extractUsername_first_party (email name : string) :
  endsWith email "@github.com" = true
  \/ endsWith email "@users.github.com" = true
  \/ (endsWith email "@users.noreply.github.com" = true /\ includes email "+" = false) ->
  extractUsername email name = Some (firstPiece "@" email)
  /\ forall other, extractUsername email other = extractUsername email name.
Proof.
  intros H. split; [now apply first_party_local_part |].
  intros other. now rewrite !first_party_local_part.
Qed.

Lemma extractUsername_first_party_witness :
  extractUsername "mona@github.com" "Mona (@mona-l)" = Some (firstPiece "@" "mona@github.com")
  /\ forall other,
      extractUsername "mona@github.com" other
      = extractUsername "mona@github.com" "Mona (@mona-l)".
Proof.
  apply extractUsername_first_party. left. reflexivity.
Defined.

End NormalizerFirstParty.

(* ------------------------------------------------------------------ *)
(** ** Sorting by contributions *)

Section SortFacts.
Import Dedup.

Lemma insertSorted_Permutation {A : Type} (cmp : A -> A -> comparison) (a : A) (l : list A) :
  Permutation (insertSorted cmp a l) (a :: l).
Proof.
  induction l as [| b l IH]; simpl; [reflexivity |].
  destruct (cmp a b); try reflexivity.
  rewrite IH. apply perm_swap.
Qed.

Lemma sort_Permutation {A : Type} (cmp : A -> A -> comparison) (l : list A) :
  Permutation (sort cmp l) l.
Proof.
  induction l as [| a l IH]; simpl; [reflexivity |].
  rewrite insertSorted_Permutation. now constructor.
Qed.

Section Descending.
Context {A : Type} (count : A -> Z).

Lemma insertSorted_descending (a : A) (l : list A) :
  StronglySorted (fun x y => (count y <= count x)%Z) l ->
  StronglySorted (fun x y => (count y <= count x)%Z)
                 (insertSorted (fun x y => (count y ?= count x)%Z) a l).
Proof.
  induction l as [| b l IH]; intros Hs; simpl.
  - repeat constructor.
  - inversion Hs as [| ? ? Hl Hall]; subst.
    rewrite Forall_forall in Hall.
    destruct (Z.compare_spec (count b) (count a)) as [Heq | Hlt | Hgt].
    + constructor; [exact Hs |]. apply Forall_forall.
      intros x [<- | Hx]; [lia |]. specialize (Hall x Hx). simpl in Hall. lia.
    + constructor; [exact Hs |]. apply Forall_forall.
      intros x [<- | Hx]; [lia |]. specialize (Hall x Hx). simpl in Hall. lia.
    + constructor; [now apply IH |].
      apply Forall_forall. intros x Hx.
      apply (Permutation_in _ (insertSorted_Permutation _ a l)) in Hx.
      destruct Hx as [<- | Hx]; [lia |]. now apply Hall.
Qed.

Lemma sort_descending (l : list A) :
  StronglySorted (fun x y => (count y <= count x)%Z)
                 (sort (fun x y => (count y ?= count x)%Z) l).
Proof.
  induction l as [| a l IH]; simpl; [constructor |].
  now apply insertSorted_descending.
Qed.

Lemma sorted_cut (l : list A) (n : nat) (x y : A) :
  StronglySorted (fun x y => (count y <= count x)%Z) l ->
  In x (firstn n l) -> In y (skipn n l) -> (count y <= count x)%Z.
Proof.
  revert n. induction l as [| a l IH]; intros n Hs Hx Hy.
  - now rewrite firstn_nil in Hx.
  - destruct n as [| n]; [contradiction |].
    inversion Hs as [| ? ? Hl Hall]; subst. simpl in Hx, Hy.
    destruct Hx as [<- | Hx].
    + rewrite Forall_forall in Hall. apply (Hall y).
      rewrite <- (firstn_skipn n l). apply in_or_app. now right.
    + now apply (IH n).
Qed.

End Descending.
End SortFacts.

(* ------------------------------------------------------------------ *)
(** ** Maps with string keys *)

Section MapFacts.
Import JsMap.
Context {V : Type}.

Lemma map_get_update (k k' : string) (f : V -> V) (m : list (string * V)) :
  get k' (update k f m) = if k =? k' then option_map f (get k' m) else get k' m.
Proof.
  induction m as [| [k0 v] m IH]; simpl.
  - now destruct (k =? k').
  - destruct (String.eqb_spec k0 k) as [-> | Hne]; simpl.
    + destruct (String.eqb_spec k k') as [-> | Hne']; [reflexivity |].
      reflexivity.
    + destruct (String.eqb_spec k0 k') as [-> | Hne'].
      * destruct (String.eqb_spec k k') as [-> | _]; [congruence | reflexivity].
      * exact IH.
Qed.

Lemma map_get_app (k k' : string) (v : V) (m : list (string * V)) :
  get k' (m ++ [(k, v)])
  = match get k' m with
    | Some x => Some x
    | None => if k =? k' then Some v else None
    end.
Proof.
  induction m as [| [k0 v0] m IH]; simpl; [reflexivity |].
  destruct (k0 =? k'); [reflexivity | exact IH].
Qed.

Lemma map_get_set (k k' : string) (v : V) (m : list (string * V)) :
  get k' (set k v m) = if k =? k' then Some v else get k' m.
Proof.
  unfold set, has. destruct (get k m) as [x |] eqn:Hk.
  - rewrite map_get_update. destruct (String.eqb_spec k k') as [<- | _]; [| reflexivity].
    now rewrite Hk.
  - rewrite map_get_app. destruct (String.eqb_spec k k') as [<- | _].
    + now rewrite Hk.
    + now destruct (get k' m).
Qed.

End MapFacts.

(* ------------------------------------------------------------------ *)
(** ** The contributor metrics of scripts/collect-metrics.js *)

Section LegacyFacts.
Import Js JsMap Legacy Accounting.

Lemma In_pushNew (repo r : string) (l : list string) :
  In r (pushNew repo l) <-> In r l \/ r = repo.
Proof.
  unfold pushNew. destruct (existsb (String.eqb repo) l) eqn:Hex.
  - split; [tauto |]. intros [H | ->]; [exact H |].
    apply existsb_exists in Hex. destruct Hex as (x & Hx & Heq).
    apply String.eqb_eq in Heq. now subst.
  - rewrite in_app_iff. simpl. split; intros [H | H]; try tauto.
    + destruct H as [<- | []]. now right.
    + right. now left.
Qed.

Lemma get_applyUpsert (k : string) (m : contributorsMap) (u : upsert) :
  get k (applyUpsert m u)
  = if up_key u =? k
    then Some (match get k m with
               | Some d => credit (up_delta u) (up_repo u) d
               | None => up_fresh u
               end)
    else get k m.
Proof.
  unfold applyUpsert, has. destruct (get (up_key u) m) as [d |] eqn:Hd.
  - rewrite map_get_update. destruct (String.eqb_spec (up_key u) k) as [<- | _]; [| reflexivity].
    now rewrite Hd.
  - rewrite map_get_set. destruct (String.eqb_spec (up_key u) k) as [<- | _]; [| reflexivity].
    now rewrite Hd.
Qed.

Lemma applyUpsert_effect (k : string) (m : contributorsMap) (u : upsert) :
  wellFormed u ->
  contributionsOf k (applyUpsert m u) = (contributionsOf k m + deltaFor k u)%Z
  /\ has k (applyUpsert m u) = has k m || (up_key u =? k)
  /\ forall r, In r (repositoriesOf k (applyUpsert m u))
               <-> In r (repositoriesOf k m) \/ (up_key u = k /\ up_repo u = r).
Proof.
  intros [Hc Hr]. unfold contributionsOf, repositoriesOf, has, deltaFor.
  rewrite get_applyUpsert.
  destruct (String.eqb_spec (up_key u) k) as [Hk | Hk].
  - destruct (get k m) as [d |]; simpl.
    + repeat split; try reflexivity.
      * intros H. apply In_pushNew in H. destruct H as [H | ->]; [now left | now right].
      * intros [H | [_ <-]]; apply In_pushNew; [now left | now right].
    + rewrite Hc, Hr. simpl. repeat split; try reflexivity.
      * intros [<- | []]. now right.
      * intros [[] | [_ <-]]. now left.
  - rewrite orb_false_r. repeat split; try lia; tauto.
Qed.

Lemma upserts_aggregate (k : string) (us : list upsert) :
  Forall wellFormed us ->
  forall m : contributorsMap,
    contributionsOf k (fold_left applyUpsert us m)
    = (contributionsOf k m + sumOf (deltaFor k) us)%Z
    /\ has k (fold_left applyUpsert us m)
       = has k m || existsb (fun u => up_key u =? k) us
    /\ forall r, In r (repositoriesOf k (fold_left applyUpsert us m))
                 <-> In r (repositoriesOf k m)
                     \/ exists u, In u us /\ up_key u = k /\ up_repo u = r.
Proof.
  induction 1 as [| u us Hu Hus IH]; intros m; simpl.
  - split; [lia |]. split; [now rewrite orb_false_r |].
    intros r. split; [tauto |]. intros [H | (u & [] & _)]. exact H.
  - destruct (IH (applyUpsert m u)) as (Hc & Hh & Hr).
    destruct (applyUpsert_effect k m u Hu) as (Hc1 & Hh1 & Hr1).
    rewrite Hc, Hh, Hc1, Hh1. split; [unfold sumOf; simpl; lia |].
    split; [now rewrite orb_assoc |].
    intros r. rewrite Hr, Hr1. split.
    + intros [[H | [Hk Hrepo]] | (u' & Hin & Hk & Hrepo)].
      * now left.
      * right. exists u. auto.
      * right. exists u'. auto.
    + intros [H | (u' & [<- | Hin] & Hk & Hrepo)].
      * left. now left.
      * left. right. auto.
      * right. exists u'. auto.
Qed.

Lemma fold_flat_map {A B S : Type} (step : S -> A -> S) (apply : S -> B -> S)
    (events : A -> list B) (l : list A) :
  (forall s x, step s x = fold_left apply (events x) s) ->
  forall s, fold_left step l s = fold_left apply (flat_map events l) s.
Proof.
  intros Hstep. induction l as [| x l IH]; intros s; simpl; [reflexivity |].
  now rewrite fold_left_app, IH, Hstep.
Qed.

Lemma processContributor_upserts (repoName : string) (m : contributorsMap)
    (c : Registry.apiContributor) :
  processContributor repoName m c
  = fold_left applyUpsert (contributorUpserts repoName c) m.
Proof.
  unfold processContributor, contributorUpserts.
  destruct (truthy (Registry.user_login (Registry.contributor_user c))); reflexivity.
Qed.

Lemma processMatch_upserts (a : api) (repoName : string) (m : contributorsMap)
    (mt : Regex.matchResult) :
  processMatch a repoName m mt = fold_left applyUpsert (matchUpserts a repoName mt) m.
Proof.
  unfold processMatch, matchUpserts.
  destruct (Normalizer.extractUsername _ _) as [extracted |]; [| reflexivity].
  destruct (truthy extracted); reflexivity.
Qed.

Lemma processCommit_upserts (a : api) (repoName : string) (m : contributorsMap)
    (commit : Registry.apiCommit) :
  processCommit a repoName m commit
  = fold_left applyUpsert (commitUpserts a repoName commit) m.
Proof.
  unfold processCommit, commitUpserts.
  destruct (truthy (Registry.message commit)); [| reflexivity].
  apply fold_flat_map. intros. apply processMatch_upserts.
Qed.

Lemma processRepo_upserts (a : api) (m : contributorsMap) (r : repo) :
  processRepo a m r = fold_left applyUpsert (repoUpserts a r) m.
Proof.
  unfold processRepo, repoUpserts, findCoAuthors.
  destruct (fork r); [reflexivity |].
  destruct (listContributors a (name r)) as [cs |]; [| reflexivity].
  rewrite fold_left_app.
  rewrite <- (fold_flat_map (processContributor (name r)) applyUpsert
                            (contributorUpserts (name r)) cs
                            (fun s x => processContributor_upserts (name r) s x)).
  destruct (listCommits a (name r)) as [commits |]; [| reflexivity].
  apply fold_flat_map. intros. apply processCommit_upserts.
Qed.

Lemma upserts_wellFormed (a : api) (repositories : list repo) :
  Forall wellFormed (upserts a repositories).
Proof.
  apply Forall_forall. intros u Hu. unfold upserts in Hu.
  apply in_flat_map in Hu. destruct Hu as (r & _ & Hu). unfold repoUpserts in Hu.
  destruct (fork r); [contradiction |].
  destruct (listContributors a (name r)) as [cs |]; [| contradiction].
  apply in_app_or in Hu. destruct Hu as [Hu | Hu].
  - apply in_flat_map in Hu. destruct Hu as (c & _ & Hu).
    unfold contributorUpserts in Hu.
    destruct (truthy _); [| contradiction]. destruct Hu as [<- | []]. now split.
  - destruct (listCommits a (name r)) as [commits |]; [| contradiction].
    apply in_flat_map in Hu. destruct Hu as (c & _ & Hu). unfold commitUpserts in Hu.
    destruct (truthy _); [| contradiction].
    apply in_flat_map in Hu. destruct Hu as (mt & _ & Hu). unfold matchUpserts in Hu.
    destruct (Normalizer.extractUsername _ _) as [extracted |]; [| contradiction].
    destruct (truthy extracted); [| contradiction].
    destruct Hu as [<- | []]. now split.
Qed.

(** X8: the map [getContributorMetrics] builds is the result of the upserts
    of the repositories (forks and repositories whose request fails have
    none); and in whatever order the upserts are applied, a key holds the sum
    of what the upserts of that key credit, exists exactly when there is such
    an upsert, and lists exactly their repositories. *)
Theorem legacy_any_order (a : api) (repositories : list repo) (order : list upsert) :
  Permutation order (upserts a repositories) ->
  contributorsMapOf a repositories = fold_left applyUpsert (upserts a repositories) []
  /\ forall k : string,
      contributionsOf k (fold_left applyUpsert order [])
      = sumOf (deltaFor k) (upserts a repositories)
      /\ has k (fold_left applyUpsert order [])
         = existsb (fun u => up_key u =? k) (upserts a repositories)
      /\ forall r, In r (repositoriesOf k (fold_left applyUpsert order []))
                   <-> exists u, In u (upserts a repositories)
                                 /\ up_key u = k /\ up_repo u = r.
Proof.
  intros Hperm. split.
  - unfold contributorsMapOf, upserts. apply fold_flat_map.
    intros. apply processRepo_upserts.
  - intros k.
    assert (Hwf : Forall wellFormed order).
    { apply Forall_forall. intros u Hu.
      pose proof (upserts_wellFormed a repositories) as H.
      rewrite Forall_forall in H. apply H. now apply (Permutation_in _ Hperm). }
    destruct (upserts_aggregate k order Hwf []) as (Hc & Hh & Hr).
    rewrite Hc, Hh. split; [| split].
    + unfold contributionsOf. simpl. now rewrite (sumOf_Permutation _ _ _ Hperm).
    + unfold has. simpl. now apply existsb_Permutation.
    + intros r. rewrite Hr. unfold repositoriesOf. simpl. split.
      * intros [[] | (u & Hin & H)]. exists u. split; [| exact H].
        now apply (Permutation_in _ Hperm).
      * intros (u & Hin & H). right. exists u. split; [| exact H].
        now apply (Permutation_in _ (Permutation_sym Hperm)).
Qed.

Lemma legacy_any_order_witness :
  contributorsMapOf Scenarios.legacyApi Scenarios.legacyRepositories
  = fold_left applyUpsert (upserts Scenarios.legacyApi Scenarios.legacyRepositories) []
  /\ forall k : string,
      contributionsOf k (fold_left applyUpsert Scenarios.legacyOrder [])
      = sumOf (deltaFor k) (upserts Scenarios.legacyApi Scenarios.legacyRepositories)
      /\ has k (fold_left applyUpsert Scenarios.legacyOrder [])
         = existsb (fun u => up_key u =? k)
                   (upserts Scenarios.legacyApi Scenarios.legacyRepositories)
      /\ forall r, In r (repositoriesOf k (fold_left applyUpsert Scenarios.legacyOrder []))
                   <-> exists u, In u (upserts Scenarios.legacyApi
                                               Scenarios.legacyRepositories)
                                 /\ up_key u = k /\ up_repo u = r.
Proof.
  apply (legacy_any_order Scenarios.legacyApi Scenarios.legacyRepositories
                          Scenarios.legacyOrder).
  apply Permutation_sym, Permutation_rev.
Defined.

Lemma firstn_sorted {A : Type} (R : A -> A -> Prop) (n : nat) (l : list A) :
  StronglySorted R l -> StronglySorted R (firstn n l).
Proof.
  revert n. induction l as [| a l IH]; intros n Hs.
  - rewrite firstn_nil. constructor.
  - destruct n as [| n]; [constructor |]. simpl.
    inversion Hs as [| ? ? Hl Hall]; subst. constructor; [now apply IH |].
    rewrite Forall_forall in *. intros x Hx. apply Hall.
    rewrite <- (firstn_skipn n l). apply in_or_app. now left.
Qed.

(** X9: [totalContributors] is the number of keys of the map; the top
    contributors are at most ten, in descending order of contributions, and
    no contributor left out has more contributions than one of them. *)
Theorem legacy_top_contributors (m : contributorsMap) :
  totalContributors (metricsOf m) = List.length m
  /\ List.length (topContributors (metricsOf m)) = Nat.min 10 (List.length m)
  /\ StronglySorted (fun x y => (contributions y <= contributions x)%Z)
                    (topContributors (metricsOf m))
  /\ exists rest,
      Permutation (topContributors (metricsOf m) ++ rest) (map snd m)
      /\ forall x y, In x (topContributors (metricsOf m)) -> In y rest ->
                     (contributions y <= contributions x)%Z.
Proof.
  unfold metricsOf. cbn [totalContributors topContributors].
  pose proof (sort_Permutation byContributions (map snd m)) as Hperm.
  pose proof (sort_descending contributions (map snd m)) as Hsorted.
  assert (Hlen : List.length (Dedup.sort byContributions (map snd m)) = List.length m).
  { rewrite (Permutation_length Hperm). apply length_map. }
  split; [exact Hlen |]. split; [now rewrite length_firstn, Hlen |].
  split; [now apply firstn_sorted |].
  exists (skipn 10 (Dedup.sort byContributions (map snd m))). split.
  - now rewrite firstn_skipn.
  - intros x y Hx Hy. exact (sorted_cut contributions _ 10 x y Hsorted Hx Hy).
Qed.

End LegacyFacts.

(* ------------------------------------------------------------------ *)
(** ** Paging *)

Section PagingFacts.
Import Js Api.

Lemma firstn_plus {A : Type} (a b : nat) (l : list A) :
  firstn (a + b) l = firstn a l ++ firstn b (skipn a l).
Proof.
  revert l. induction a as [| a IH]; intros l; [reflexivity |].
  destruct l as [| x l]; simpl.
  - now rewrite firstn_nil.
  - now rewrite IH.
Qed.

(** A page that is not full is the last one. *)
Lemma served_short {A : Type} (all : list A) (p n m : nat) :
  (1 <= p)%nat ->
  (List.length (served all p n) =? n)%nat = false ->
  (p * n <= m)%nat ->
  firstn ((p - 1) * n) all ++ served all p n = firstn m all.
Proof.
  intros Hp Hshort Hm. apply Nat.eqb_neq in Hshort. unfold served in *.
  rewrite length_firstn, length_skipn in Hshort.
  rewrite <- firstn_plus.
  rewrite !firstn_all2; [reflexivity | nia | nia].
Qed.

Lemma served_next {A : Type} (all : list A) (p n : nat) :
  (1 <= p)%nat ->
  firstn ((p - 1) * n) all ++ served all p n = firstn (p * n) all.
Proof.
  intros Hp. unfold served. rewrite <- firstn_plus. f_equal. nia.
Qed.

Lemma apiRequest_total {P A : Type} (method : P -> result A) (params : P) (st : apiState) :
  totalRequests (fst (apiRequest method params st)) = S (totalRequests st).
Proof.
  unfold apiRequest. destruct (method params) as [r | e]; [| reflexivity].
  destruct (response_headers r) as [h |]; [| reflexivity].
  destruct (ratelimit_remaining h) as [v |]; [| reflexivity].
  now destruct (truthy v).
Qed.

Lemma apiRequest_enough {P A : Type} (method : P -> result A) (params : P) (st : apiState)
    (d : A) (h : option headers) :
  method params = inl {| data := d; response_headers := h |} ->
  enough h = true ->
  above 5 (remainingRequests st) = true ->
  exists st', apiRequest method params st = (st', inl {| data := d; response_headers := h |})
              /\ above 5 (remainingRequests st') = true.
Proof.
  intros Hm Hh Hst. unfold apiRequest. rewrite Hm. cbn [response_headers].
  eexists. split; [reflexivity |]. unfold enough in Hh.
  destruct h as [hs |]; [| exact Hst].
  destruct (ratelimit_remaining hs) as [v |]; [| exact Hst].
  destruct (truthy v); [exact Hh | exact Hst].
Qed.

Lemma pagesLoop_served {A : Type} (all : list A) (method : pageParams -> result (list A))
    (n : nat) :
  (forall p, exists h,
      method {| page := p; per_page := n |}
      = inl {| data := served all p n; response_headers := h |}
      /\ enough h = true) ->
  forall (left p : nat) (st : apiState),
    (1 <= p)%nat ->
    above 5 (remainingRequests st) = true ->
    snd (pagesLoop method n left p st (firstn ((p - 1) * n) all))
    = firstn ((p + left) * n) all.
Proof.
  intros Hserver. induction left as [| left IH]; intros p st Hp Hst.
  - cbn [pagesLoop]. rewrite Hst.
    destruct (Hserver p) as (h & Hm & Hh).
    destruct (apiRequest_enough method _ st _ h Hm Hh Hst) as (st' & -> & Hst').
    cbn [data snd]. rewrite Nat.add_0_r. now apply served_next.
  - cbn [pagesLoop]. rewrite Hst.
    destruct (Hserver p) as (h & Hm & Hh).
    destruct (apiRequest_enough method _ st _ h Hm Hh Hst) as (st' & -> & Hst').
    cbn [data]. destruct (List.length (served all p n) =? n)%nat eqn:Hfull.
    + rewrite (served_next all p n Hp).
      replace (p * n)%nat with ((S p - 1) * n)%nat by (f_equal; lia).
      rewrite (IH (S p) st') by (assumption || lia). f_equal. lia.
    + cbn [snd]. apply served_short; [exact Hp | exact Hfull | nia].
Qed.

Lemma pagesLoop_requests {A : Type} (method : pageParams -> result (list A)) (n : nat) :
  forall (left p : nat) (st : apiState) (items : list A),
    (totalRequests st <= totalRequests (fst (pagesLoop method n left p st items))
     <= totalRequests st + S left)%nat.
Proof.
  induction left as [| left IH]; intros p st items; cbn [pagesLoop].
  - destruct (above 5 (remainingRequests st)); [| simpl; lia].
    pose proof (apiRequest_total method {| page := p; per_page := n |} st) as Ht.
    destruct (apiRequest method _ st) as [st' [r | e]]; simpl in *; lia.
  - destruct (above 5 (remainingRequests st)); [| simpl; lia].
    pose proof (apiRequest_total method {| page := p; per_page := n |} st) as Ht.
    destruct (apiRequest method _ st) as [st' [r | e]]; simpl in *; [| lia].
    destruct (List.length (data r) =? n)%nat; [| simpl; lia].
    specialize (IH (S p) st' (items ++ data r)). lia.
Qed.

Lemma orDefault_positive (x : option nat) (d : nat) :
  (1 <= d)%nat -> (1 <= orDefault x d)%nat.
Proof. intros Hd. unfold orDefault. destruct x as [[| n] |]; lia. Qed.

(** X10: when the rate limit leaves more than five requests and the server
    pages a list, [getAllItems] returns the first [maxPages * per_page] items
    of the list, the whole list when it is shorter ([maxPages] is ten and
    [per_page] a hundred when the caller leaves them out). *)
Theorem getAllItems_paged {A : Type} (all : list A)
    (method : pageParams -> result (list A)) (perPage maxPages : option nat)
    (st : apiState) :
  above 5 (remainingRequests st) = true ->
  (forall p, exists h,
      method {| page := p; per_page := orDefault perPage 100 |}
      = inl {| data := served all p (orDefault perPage 100); response_headers := h |}
      /\ enough h = true) ->
  snd (getAllItems method perPage maxPages st)
  = firstn (orDefault maxPages 10 * orDefault perPage 100) all.
Proof.
  intros Hst Hserver. unfold getAllItems.
  change (@nil A) with (firstn ((1 - 1) * orDefault perPage 100) all).
  rewrite (pagesLoop_served all method _ Hserver _ 1 st (le_n 1) Hst).
  f_equal. pose proof (orDefault_positive maxPages 10). f_equal. lia.
Qed.

Lemma getAllItems_paged_witness :
  snd (getAllItems (Scenarios.pagedServer [1; 2; 3; 4; 5]%nat) (Some 2%nat) None
                   Scenarios.freshState)
  = firstn (orDefault None 10 * orDefault (Some 2%nat) 100) [1; 2; 3; 4; 5]%nat.
Proof.
  apply (getAllItems_paged [1; 2; 3; 4; 5]%nat
                           (Scenarios.pagedServer [1; 2; 3; 4; 5]%nat)).
  - reflexivity.
  - intros p. exists None. split; reflexivity.
Defined.

(** X11: a call of [getAllItems] makes at most [maxPages] requests, whatever
    the server answers, and none at all, returning no item, when five
    requests or fewer are left. *)
Theorem getAllItems_requests {A : Type} (method : pageParams -> result (list A))
    (perPage maxPages : option nat) (st : apiState) :
  (totalRequests st <= totalRequests (fst (getAllItems method perPage maxPages st))
   <= totalRequests st + orDefault maxPages 10)%nat
  /\ (above 5 (remainingRequests st) = false ->
      getAllItems method perPage maxPages st = (st, [])).
Proof.
  unfold getAllItems. split.
  - pose proof (pagesLoop_requests method (orDefault perPage 100)
                  (orDefault maxPages 10 - 1) 1 st []) as H.
    pose proof (orDefault_positive maxPages 10). lia.
  - intros Hlow. destruct (orDefault maxPages 10 - 1)%nat; cbn [pagesLoop];
      now rewrite Hlow.
Qed.

Lemma repositoryPages_served {A : Type} (all : list A)
    (listForOrg : nat -> option (list A)) :
  (forall p, listForOrg p = Some (served all p 100)) ->
  forall (left p : nat),
    (1 <= p)%nat ->
    repositoryPages listForOrg left p (firstn ((p - 1) * 100) all)
    = firstn ((p + left) * 100) all.
Proof.
  intros Hserver. induction left as [| left IH]; intros p Hp; cbn [repositoryPages];
    rewrite Hserver.
  - rewrite Nat.add_0_r. now apply served_next.
  - destruct (List.length (served all p 100) =? 100)%nat eqn:Hfull.
    + rewrite (served_next all p 100 Hp).
      replace (p * 100)%nat with ((S p - 1) * 100)%nat by lia.
      rewrite (IH (S p)) by lia. f_equal. lia.
    + apply served_short; [exact Hp | exact Hfull | nia].
Qed.

(** X12: when the server pages the repositories of the organisation a
    hundred a page, [getAllRepositories] returns the first thousand of them,
    all of them when there are fewer. *)
Theorem getAllRepositories_paged {A : Type} (all : list A)
    (listForOrg : nat -> option (list A)) :
  (forall p, listForOrg p = Some (served all p 100)) ->
  getAllRepositories listForOrg = firstn 1000 all.
Proof.
  intros Hserver. unfold getAllRepositories.
  change (@nil A) with (firstn ((1 - 1) * 100) all).
  now rewrite (repositoryPages_served all listForOrg Hserver 9 1 (le_n 1)).
Qed.

Lemma getAllRepositories_paged_witness :
  getAllRepositories (fun p => Some (served [1; 2; 3]%nat p 100))
  = firstn 1000 [1; 2; 3]%nat.
Proof.
  apply (getAllRepositories_paged [1; 2; 3]%nat). intros p. reflexivity.
Defined.

End PagingFacts.

(* ------------------------------------------------------------------ *)
(** ** Numbers and matches *)

Section CountFacts.
Import Js Regex Api Matching.

Lemma rep_inv (greedy : bool) (lo : nat) (p : charset) (k : cont) (caps : list string) :
  forall (s : string) (prev : option ascii) (n : nat) (res : string * list string),
    rep greedy lo p k caps prev s n = Some res ->
    exists a b, s = (a ++ b)%string /\ allChars p a = true
                /\ (lo <= n + String.length a)%nat
                /\ k (lastOpt prev a) b caps = Some res.
Proof.
  assert (Hstop : forall s prev n res,
             (if (lo <=? n)%nat then k prev s caps else None) = Some res ->
             exists a b, s = (a ++ b)%string /\ allChars p a = true
                         /\ (lo <= n + String.length a)%nat
                         /\ k (lastOpt prev a) b caps = Some res).
  { intros s prev n res H. destruct (Nat.leb_spec lo n); [| discriminate].
    exists "", s. simpl. repeat split; [lia | exact H]. }
  assert (Hmore : forall c s prev n res,
             (forall prev n res,
                 rep greedy lo p k caps prev s n = Some res ->
                 exists a b, s = (a ++ b)%string /\ allChars p a = true
                             /\ (lo <= n + String.length a)%nat
                             /\ k (lastOpt prev a) b caps = Some res) ->
             (if p c then rep greedy lo p k caps (Some c) s (S n) else None) = Some res ->
             exists a b, String c s = (a ++ b)%string /\ allChars p a = true
                         /\ (lo <= n + String.length a)%nat
                         /\ k (lastOpt prev a) b caps = Some res).
  { intros c s prev n res IH H. destruct (p c) eqn:Hc; [| discriminate].
    destruct (IH _ _ _ H) as (a & b & -> & Ha & Hlen & Hk).
    exists (String c a), b. simpl. rewrite Hc. repeat split; [exact Ha | lia | exact Hk]. }
  induction s as [| c s IH]; intros prev n res Hrun.
  - apply Hstop. destruct greedy; simpl in Hrun.
    + exact Hrun.
    + destruct (if (lo <=? n)%nat then k prev "" caps else None); [exact Hrun | discriminate].
  - destruct greedy; simpl in Hrun.
    + destruct (if p c then rep true lo p k caps (Some c) s (S n) else None) eqn:Hm.
      * injection Hrun as <-. now apply (Hmore c s prev n p0 IH).
      * now apply Hstop.
    + destruct (if (lo <=? n)%nat then k prev (String c s) caps else None) eqn:Hm.
      * injection Hrun as <-. now apply Hstop.
      * now apply (Hmore c s prev n res IH).
Qed.

Lemma searchFrom_inv (r : re) :
  forall (s : string) (prev : option ascii) (i : nat) (m : matchResult),
    searchFrom r prev s i = Some m ->
    exists a b res, s = (a ++ b)%string
                    /\ matchHere r (lastOpt prev a) b = Some res
                    /\ groups m = snd res.
Proof.
  induction s as [| c s IH]; intros prev i m Hs; simpl in Hs.
  - destruct (matchHere r prev "") as [res |] eqn:Hm; [| discriminate].
    injection Hs as <-. exists "", "", res. now repeat split.
  - destruct (matchHere r prev (String c s)) as [res |] eqn:Hm.
    + injection Hs as <-. exists "", (String c s), res. now repeat split.
    + destruct (IH _ _ _ Hs) as (a & b & res & -> & Hm' & Hg).
      exists (String c a), b, res. now repeat split.
Qed.

(** The search passes a prefix at no position of which the expression
    matches. *)
Lemma searchFrom_first (r : re) (rest : string) :
  forall (pre : string) (prev : option ascii) (i : nat),
    (forall a x, pre = (a ++ x)%string -> x <> "" ->
                 matchHere r (lastOpt prev a) (x ++ rest) = None) ->
    searchFrom r prev (pre ++ rest) i
    = searchFrom r (lastOpt prev pre) rest (i + String.length pre).
Proof.
  induction pre as [| c pre IH]; intros prev i Hnone.
  - simpl. now rewrite Nat.add_0_r.
  - cbn [append searchFrom].
    assert (H0 : matchHere r prev (String c (pre ++ rest)) = None)
      by (apply (Hnone "" (String c pre) eq_refl); discriminate).
    rewrite H0, IH.
    + simpl. f_equal. lia.
    + intros a x -> Hx. apply (Hnone (String c a) x eq_refl Hx).
Qed.

Lemma digitsValue_nonneg (s : string) (acc : Z) : (0 <= acc -> 0 <= digitsValue acc s)%Z.
Proof.
  revert acc. induction s as [| c s IH]; intros acc Hacc; cbn [digitsValue];
    [exact Hacc |].
  destruct (isDigit c); [| exact Hacc]. apply IH.
  pose proof (N2Z.is_nonneg (code c - 48)). lia.
Qed.

Lemma parseInt_digits (ds : string) :
  ds <> "" -> allChars isDigit ds = true -> parseInt ds = Some (digitsValue 0 ds).
Proof.
  intros Hne Hds. destruct ds as [| c ds]; [congruence |].
  simpl in Hds. apply andb_true_iff in Hds. destruct Hds as [Hc _].
  unfold parseInt.
  assert (Hws : isWhiteSpace c = false).
  { revert Hc. unfold isDigit, isWhiteSpace, between, isCode.
    destruct (N.leb_spec 48 (code c)), (N.leb_spec (code c) 57); try discriminate.
    intros _.
    destruct (N.leb_spec 9 (code c)), (N.leb_spec (code c) 13),
      (N.eqb_spec (code c) 32), (N.eqb_spec (code c) 160); simpl; try reflexivity; lia. }
  cbn [trimStart]. rewrite Hws.
  assert (Hsign : c <> "-"%char /\ c <> "+"%char).
  { split; intros ->; discriminate. }
  destruct Hsign as [Hminus Hplus].
  assert (Hshape : (match String c ds with
                    | String "-" r => ((-1)%Z, r)
                    | String "+" r => (1%Z, r)
                    | _ => (1%Z, String c ds)
                    end) = (1%Z, String c ds)).
  { destruct c as [[] [] [] [] [] [] [] []]; try reflexivity; congruence. }
  rewrite Hshape. cbn [startsWithDigit]. rewrite Hc. f_equal.
  destruct (digitsValue 0 (String c ds)); reflexivity.
Qed.

Lemma digitsValue_uint (d : Decimal.uint) (acc : nat) :
  digitsValue (Z.of_nat acc) (NilEmpty.string_of_uint d)
  = Z.of_nat (Nat.of_uint_acc d acc).
Proof.
  revert acc. induction d; intros acc; cbn [NilEmpty.string_of_uint Nat.of_uint_acc];
    [reflexivity | ..];
    (match goal with
     | |- digitsValue _ (String ?c _) = _ =>
         change (digitsValue (Z.of_nat acc) (String c ?s))
           with (digitsValue (10 * Z.of_nat acc + Z.of_N (code c - 48)) s)
     end);
    rewrite <- IHd, Nat.tail_mul_spec; f_equal;
    (lazymatch goal with
     | |- context [Z.of_N ?x] =>
         let v := eval vm_compute in (Z.of_N x) in change (Z.of_N x) with v
     end); lia.
Qed.

Lemma digitsValue_number (n : nat) : digitsValue 0 (numberToString n) = Z.of_nat n.
Proof.
  unfold numberToString.
  change 0%Z with (Z.of_nat 0). rewrite (digitsValue_uint (Nat.to_uint n) 0).
  change (Nat.of_uint_acc (Nat.to_uint n) 0) with (Nat.of_uint (Nat.to_uint n)).
  now rewrite Unsigned.of_to.
Qed.

Lemma digits_uint (d : Decimal.uint) : allChars isDigit (NilEmpty.string_of_uint d) = true.
Proof. induction d; simpl; try reflexivity; exact IHd. Qed.

Lemma numberToString_digits (n : nat) :
  numberToString n <> "" /\ allChars isDigit (numberToString n) = true.
Proof.
  split; [| apply digits_uint]. unfold numberToString.
  assert (Hnil : Nat.to_uint n <> Decimal.Nil).
  { rewrite <- (Unsigned.of_to n) at 1. rewrite Unsigned.to_of. apply DecimalFacts.unorm_nonnil. }
  destruct (Nat.to_uint n); [congruence | ..]; discriminate.
Qed.

End CountFacts.

(* ------------------------------------------------------------------ *)
(** ** Counts read off the Link header *)

Section LinkHeader.
Import Js Regex Api Matching.

Lemma run_Seq (r1 r2 : re) (prev : option ascii) (s : string) (caps : list string)
    (k : cont) :
  run (Seq r1 r2) prev s caps k
  = run r1 prev s caps (fun prev' s' caps' => run r2 prev' s' caps' k).
Proof. reflexivity. Qed.

Lemma lastPageRegex_form :
  lastPageRegex
  = Seq (lit "page=") (Seq (Group (Rep true 1 digit)) (Seq (lit lastTail) Eps)).
Proof. reflexivity. Qed.

Lemma drop_prefix (w s : string) : drop (String.length w) (w ++ s) = s.
Proof. induction w as [| c w IH]; [reflexivity | exact IH]. Qed.

Lemma matchHere_lastPage_inv (prev : option ascii) (s : string)
    (res : string * list string) :
  matchHere lastPageRegex prev s = Some res ->
  exists ds rest,
    s = ("page=" ++ ds ++ lastTail ++ rest)%string
    /\ ds <> "" /\ allChars isDigit ds = true /\ snd res = [ds].
Proof.
  unfold matchHere. rewrite lastPageRegex_form, run_Seq, run_lit.
  destruct (startsWith s "page=") eqn:Hstart; [| discriminate].
  apply startsWith_inv in Hstart. destruct Hstart as [s1 ->].
  rewrite drop_prefix, run_Seq_Group. cbn [run]. intros Hrun.
  apply rep_inv in Hrun. destruct Hrun as (ds & b & -> & Hds & Hlen & Hk).
  rewrite run_lit in Hk.
  destruct (startsWith b lastTail) eqn:Htail; [| discriminate].
  apply startsWith_inv in Htail. destruct Htail as [rest ->].
  injection Hk as <-.
  exists ds, rest. repeat split.
  - intros ->. simpl in Hlen. lia.
  - exact Hds.
  - cbn [snd app]. now rewrite take_append.
Qed.

Lemma lastTail_blocked (post : string) : blocked digit (lastTail ++ post) = true.
Proof. reflexivity. Qed.

Lemma matchHere_lastPage (prev : option ascii) (ds post : string) :
  ds <> "" -> allChars isDigit ds = true ->
  matchHere lastPageRegex prev ("page=" ++ ds ++ lastTail ++ post)
  = Some (post, [ds]).
Proof.
  intros Hne Hds. unfold matchHere.
  rewrite lastPageRegex_form, run_Seq, run_lit, startsWith_append, drop_prefix.
  rewrite run_Seq_Group. cbn [run].
  apply rep_greedy_stop.
  - exact Hds.
  - apply lastTail_blocked.
  - destruct ds; [congruence | simpl; lia].
  - rewrite run_lit, startsWith_append, drop_prefix. cbn [app].
    now rewrite take_append.
Qed.

Lemma append_empty (a : string) : (a ++ "")%string = a.
Proof. induction a as [| c a IH]; [reflexivity |]. simpl. now rewrite IH. Qed.

(** Two ways to cut one text. *)
Lemma append_cut (x s m r : string) :
  (x ++ s)%string = (m ++ r)%string ->
  (exists y, m = (x ++ y)%string /\ s = (y ++ r)%string)
  \/ (exists z, x = (m ++ z)%string).
Proof.
  revert m. induction x as [| c x IH]; intros m H.
  - left. exists m. now split.
  - destruct m as [| c' m].
    + right. now exists (String c x).
    + simpl in H. injection H as <- H.
      destruct (IH m H) as [(y & -> & ->) | (z & ->)].
      * left. now exists y.
      * right. now exists z.
Qed.

Lemma lacks_digits (ds : string) : allChars isDigit ds = true -> lacks "p" ds = true.
Proof.
  unfold lacks. apply allChars_impl. intros c Hc.
  destruct (Ascii.eqb_spec "p" c) as [<- |]; [discriminate | reflexivity].
Qed.

(** The expression matches at no position of a prefix that lacks
    [>; rel="last"]. *)
Lemma no_match_before (prev : option ascii) (x ds post : string) :
  x <> "" -> includes x lastTail = false ->
  matchHere lastPageRegex prev (x ++ "page=" ++ ds ++ lastTail ++ post) = None.
Proof.
  intros Hx Hlacks.
  destruct (matchHere lastPageRegex prev _) as [res |] eqn:Hm; [| reflexivity].
  exfalso. apply matchHere_lastPage_inv in Hm.
  destruct Hm as (ds' & rest & Heq & _ & Hds' & _).
  replace ("page=" ++ ds' ++ lastTail ++ rest)%string
    with (("page=" ++ ds' ++ lastTail) ++ rest)%string in Heq
    by (now rewrite !append_assoc).
  apply append_cut in Heq. destruct Heq as [(y & Hm & Hs) | (z & Hz)].
  - destruct y as [| c' y].
    + assert (Hinc : includes x lastTail = true).
      { apply includes_occurs. exists ("page=" ++ ds')%string, "".
        rewrite append_empty in Hm. rewrite <- Hm.
        now rewrite append_empty, append_assoc. }
      congruence.
    + cbn [append] in Hs. injection Hs as <- _.
      destruct x as [| c x]; [congruence |].
      cbn [append] in Hm. injection Hm as <- Hm.
      assert (Hp : lacks "p" (x ++ String "p" y) = true).
      { rewrite <- Hm.
        change (lacks "p" ("age=" ++ ds' ++ lastTail) = true).
        unfold lacks. rewrite !allChars_append.
        fold (lacks "p" ds'). now rewrite (lacks_digits ds' Hds'). }
      unfold lacks in Hp. rewrite allChars_append in Hp.
      apply andb_true_iff in Hp. destruct Hp as [_ Hy]. discriminate.
  - assert (Hinc : includes x lastTail = true).
    { apply includes_occurs. exists ("page=" ++ ds')%string, z.
      rewrite Hz. now rewrite !append_assoc. }
    congruence.
Qed.

Lemma includes_prefix (a x w : string) :
  includes (a ++ x) w = false -> includes x w = false.
Proof.
  intros H. destruct (includes x w) eqn:Hx; [| reflexivity].
  apply includes_occurs in Hx. destruct Hx as (u & v & ->).
  assert (Hin : includes (a ++ u ++ w ++ v) w = true).
  { apply includes_occurs. exists (a ++ u)%string, v. now rewrite !append_assoc. }
  congruence.
Qed.

Lemma exec_lastPage (pre ds post : string) :
  ds <> "" -> allChars isDigit ds = true ->
  includes pre lastTail = false ->
  exists m, exec lastPageRegex (pre ++ "page=" ++ ds ++ lastTail ++ post)%string = Some m
            /\ group 1 m = ds.
Proof.
  intros Hne Hds Hpre. unfold exec.
  rewrite searchFrom_first.
  - destruct ds as [| d ds]; [congruence |].
    cbn [append searchFrom].
    change (String "p" (String "a" (String "g" (String "e" (String "="
              (String d (ds ++ lastTail ++ post)))))))
      with ("page=" ++ String d ds ++ lastTail ++ post)%string.
    rewrite (matchHere_lastPage _ (String d ds) post Hne Hds).
    eexists. split; reflexivity.
  - intros a x -> Hx. apply no_match_before; [exact Hx |].
    now apply (includes_prefix a).
Qed.

Lemma lastPage_sound (header : string) (n : number) :
  lastPage (Some header) = Some n ->
  exists a ds b,
    header = (a ++ "page=" ++ ds ++ lastTail ++ b)%string
    /\ ds <> "" /\ allChars isDigit ds = true
    /\ n = Some (digitsValue 0 ds).
Proof.
  unfold lastPage. destruct (truthy header && includes header relLast); [| discriminate].
  destruct (exec lastPageRegex header) as [m |] eqn:Hm; [| discriminate].
  intros H. injection H as <-.
  unfold exec in Hm. apply searchFrom_inv in Hm.
  destruct Hm as (a & b & res & -> & Hhere & Hg).
  apply matchHere_lastPage_inv in Hhere.
  destruct Hhere as (ds & rest & -> & Hne & Hds & Hres).
  exists a, ds, rest. repeat split; try assumption.
  unfold group. rewrite Hg, Hres. simpl. now apply parseInt_digits.
Qed.

Lemma lastPage_complete (pre post : string) (n : nat) :
  includes pre lastTail = false ->
  lastPage (Some (pre ++ "page=" ++ numberToString n ++ lastTail ++ post)%string)
  = Some (Some (Z.of_nat n)).
Proof.
  intros Hpre. destruct (numberToString_digits n) as [Hne Hds].
  unfold lastPage.
  assert (Hinc : includes (pre ++ "page=" ++ numberToString n ++ lastTail ++ post)%string
                           relLast = true).
  { apply includes_occurs. exists (pre ++ "page=" ++ numberToString n ++ ">; ")%string, post.
    unfold lastTail. now rewrite !append_assoc. }
  assert (Htruthy : truthy (pre ++ "page=" ++ numberToString n ++ lastTail ++ post)%string
                    = true).
  { apply truthy_true. destruct pre; discriminate. }
  rewrite Htruthy, Hinc. cbn [andb].
  destruct (exec_lastPage pre _ post Hne Hds Hpre) as (m & -> & ->).
  now rewrite (parseInt_digits _ Hne Hds), digitsValue_number.
Qed.

(** X13: when the first response carries a Link header that ends a link
    with [page=n>; rel="last"], for [n] at most [2^53], and nothing before it
    in the header reads [>; rel="last"], [getCommitCount] and
    [getContributorCount] return [n]. *)
Theorem count_from_link_header (listCommits : nat -> result (list Registry.apiCommit))
    (listContributors : nat -> result (list Registry.apiContributor))
    (pre post : string) (n : nat) (h : headers) :
  (Z.of_nat n <= 2 ^ 53)%Z ->
  link h = Some (pre ++ "page=" ++ numberToString n ++ lastTail ++ post)%string ->
  includes pre lastTail = false ->
  (forall commits,
      listCommits 1 = inl {| data := commits; response_headers := Some h |} ->
      getCommitCount listCommits = inl (Some (Z.of_nat n)))
  /\ (forall contributors,
         listContributors 1 = inl {| data := contributors; response_headers := Some h |} ->
         getContributorCount listContributors = inl (Some (Z.of_nat n))).
Proof.
  intros _ Hlink Hpre.
  split; intros first Hfirst; unfold getCommitCount, getContributorCount, countOf;
    rewrite Hfirst; cbn [response_headers]; rewrite Hlink;
    now rewrite (lastPage_complete pre post n Hpre).
Qed.

Lemma count_from_link_header_witness :
  (forall commits,
      Scenarios.firstCommitPage 1
      = inl {| data := commits; response_headers := Some (Scenarios.linkHeaders 37) |} ->
      getCommitCount Scenarios.firstCommitPage = inl (Some (Z.of_nat 37)))
  /\ (forall contributors,
         Scenarios.firstContributorPage 1
         = inl {| data := contributors;
                  response_headers := Some (Scenarios.linkHeaders 37) |} ->
         getContributorCount Scenarios.firstContributorPage = inl (Some (Z.of_nat 37))).
Proof.
  apply (count_from_link_header Scenarios.firstCommitPage Scenarios.firstContributorPage
                                Scenarios.linkPrefix "" 37 (Scenarios.linkHeaders 37)).
  - vm_compute. discriminate.
  - reflexivity.
  - vm_compute. reflexivity.
Defined.

Lemma countOf_natural {A : Type} (list_ : nat -> result (list A)) (empty : list nat)
    (count : number) :
  countOf list_ empty = inl count ->
  exists v, count = Some v /\ (0 <= v)%Z.
Proof.
  unfold countOf.
  assert (Herr : forall e : error,
             (if hasStatus empty e then inl (Some 0%Z) else @inr number error e)
             = inl count ->
             exists v, count = Some v /\ (0 <= v)%Z).
  { intros e H. destruct (hasStatus empty e); [| discriminate].
    injection H as <-. exists 0%Z. split; [reflexivity | lia]. }
  destruct (list_ 1) as [first | e]; [| apply Herr].
  destruct (response_headers first) as [h |]; [| apply Herr].
  destruct (lastPage (link h)) as [n |] eqn:Hlast.
  - intros H. injection H as <-.
    destruct (link h) as [header |]; [| discriminate].
    apply lastPage_sound in Hlast.
    destruct Hlast as (a & ds & b & _ & _ & _ & ->).
    eexists. split; [reflexivity |]. apply digitsValue_nonneg. lia.
  - destruct (list_ 100) as [all | e]; [| apply Herr].
    intros H. injection H as <-. eexists. split; [reflexivity | lia].
Qed.

(** X14: a count [getCommitCount] or [getContributorCount] returns is a
    number, not [NaN], and it is not negative. *)
Theorem count_is_natural (listCommits : nat -> result (list Registry.apiCommit))
    (listContributors : nat -> result (list Registry.apiContributor)) (count : number) :
  getCommitCount listCommits = inl count
  \/ getContributorCount listContributors = inl count ->
  exists v, count = Some v /\ (0 <= v)%Z.
Proof.
  intros [H | H]; exact (countOf_natural _ _ _ H).
Qed.

Lemma count_is_natural_witness :
  getCommitCount Scenarios.emptyRepository = inl (Some 0%Z)
  /\ exists v, Some 0%Z = Some v /\ (0 <= v)%Z.
Proof.
  split; [reflexivity |].
  apply (count_is_natural Scenarios.emptyRepository Scenarios.firstContributorPage
                          (Some 0%Z)).
  left. reflexivity.
Defined.

End LinkHeader.

(* ------------------------------------------------------------------ *)
(** ** The lookup of users by e-mail *)

Section LookupFacts.
Import Js JsMap Api Lookup Matching.

Lemma split_piece (sep : ascii) (x t : string) :
  lacks sep x = true -> split sep (x ++ String sep t) = x :: split sep t.
Proof.
  unfold lacks. induction x as [| c x IH]; simpl.
  - intros _. now rewrite Ascii.eqb_refl.
  - intros H. apply andb_true_iff in H. destruct H as [Hc Hx].
    apply negb_true_iff in Hc. rewrite Ascii.eqb_sym in Hc. rewrite Hc.
    now rewrite (IH Hx).
Qed.

Lemma split_whole (sep : ascii) (x : string) : lacks sep x = true -> split sep x = [x].
Proof.
  unfold lacks. induction x as [| c x IH]; simpl; [reflexivity |].
  intros H. apply andb_true_iff in H. destruct H as [Hc Hx].
  apply negb_true_iff in Hc. rewrite Ascii.eqb_sym in Hc. rewrite Hc.
  now rewrite (IH Hx).
Qed.

Lemma endsWith_append (a w : string) : endsWith (a ++ w) w = true.
Proof.
  unfold endsWith. rewrite length_append.
  replace (String.length a + String.length w - String.length w)%nat
    with (String.length a + 0)%nat by lia.
  rewrite drop_append. simpl. rewrite String.eqb_refl.
  apply andb_true_iff. split; [apply Nat.leb_le; lia | reflexivity].
Qed.

Lemma lacks_append (c : ascii) (a b : string) :
  lacks c (a ++ b) = lacks c a && lacks c b.
Proof. apply allChars_append. Qed.

Lemma handle_chars (handle : string) :
  allChars Normalizer.handleChar handle = true ->
  lacks "+" handle = true /\ lacks "@" handle = true /\ allChars Regex.dot handle = true.
Proof.
  intros H. repeat split; revert H; apply allChars_impl; intros c;
    destruct c as [[] [] [] [] [] [] [] []]; vm_compute; congruence.
Qed.

Lemma noReplyUsername_numbered (digits handle : string) :
  allChars isDigit digits = true ->
  lacks "+" handle = true -> lacks "@" handle = true ->
  noReplyUsername (digits ++ "+" ++ handle ++ "@users.noreply.github.com") = handle.
Proof.
  intros Hd Hplus Hat.
  unfold noReplyUsername.
  assert (Hinc : includes (digits ++ "+" ++ handle ++ "@users.noreply.github.com") "+"
                 = true).
  { apply includes_occurs. now exists digits, (handle ++ "@users.noreply.github.com")%string. }
  rewrite Hinc.
  assert (Hdp : lacks "+" digits = true).
  { revert Hd. unfold lacks. apply allChars_impl. intros c Hc.
    destruct (Ascii.eqb_spec "+" c) as [<- |]; [discriminate | reflexivity]. }
  change (digits ++ "+" ++ handle ++ "@users.noreply.github.com")%string
    with (digits ++ String "+" (handle ++ "@users.noreply.github.com"))%string.
  rewrite (split_piece "+" digits _ Hdp).
  rewrite (split_whole "+" (handle ++ "@users.noreply.github.com")).
  - cbn [nth]. unfold firstPiece.
    change (handle ++ "@users.noreply.github.com")%string
      with (handle ++ String "@" "users.noreply.github.com")%string.
    now rewrite (split_piece "@" handle _ Hat).
  - now rewrite lacks_append, Hplus.
Qed.

Lemma noReplyUsername_plain (handle : string) :
  lacks "+" handle = true -> lacks "@" handle = true ->
  includes (handle ++ "@users.noreply.github.com") "+" = false
  /\ noReplyUsername (handle ++ "@users.noreply.github.com") = handle.
Proof.
  intros Hplus Hat.
  assert (Hinc : includes (handle ++ "@users.noreply.github.com") "+" = false).
  { rewrite includes_char, lacks_append, Hplus. reflexivity. }
  split; [exact Hinc |]. unfold noReplyUsername. rewrite Hinc. unfold firstPiece.
  change (handle ++ "@users.noreply.github.com")%string
    with (handle ++ String "@" "users.noreply.github.com")%string.
  now rewrite (split_piece "@" handle _ Hat).
Qed.

Lemma lookup_noreply (a : lookupApi) (email handle : string) (st : apiState)
    (details : response userDetails) :
  handle <> "" ->
  endsWith email "@users.noreply.github.com" = true ->
  noReplyUsername email = handle ->
  getByUsername a handle = inl details ->
  exists st' user,
    lookupUserByEmail a email st = (st', Some user)
    /\ found_login user = handle
    /\ found_by_noreply user = Some true
    /\ totalRequests st' = S (totalRequests st).
Proof.
  intros Hne Hends Hname Hget. unfold lookupUserByEmail, lookupNoReply.
  assert (Htruthy : truthy email = true).
  { apply truthy_true. intros ->. discriminate. }
  rewrite Htruthy, Hends, Hname. cbn [negb].
  pose proof (apiRequest_total (getByUsername a) handle st) as Htotal.
  unfold apiRequest in *. rewrite Hget in *.
  eexists. eexists. split; [reflexivity |]. repeat split. exact Htotal.
Qed.

(** X15: for a no-reply address of a handle, with or without the numeric
    id, the handle any text without [+] and [@], when the user request for
    the handle succeeds, [lookupUserByEmail] returns the user with that
    handle as login after one request, marked as found by the no-reply
    address; and [extractUsername] of the older script returns the same
    handle for the address when the handle holds no line end. *)
Theorem lookup_noreply_handle (a : lookupApi) (digits handle name : string)
    (st : apiState) (details : response userDetails) (email : string) :
  digits <> "" -> allChars isDigit digits = true ->
  handle <> "" -> lacks "+" handle = true -> lacks "@" handle = true ->
  getByUsername a handle = inl details ->
  email = (digits ++ "+" ++ handle ++ "@users.noreply.github.com")%string
  \/ email = (handle ++ "@users.noreply.github.com")%string ->
  (exists st' user,
      lookupUserByEmail a email st = (st', Some user)
      /\ found_login user = handle
      /\ found_by_noreply user = Some true
      /\ totalRequests st' = S (totalRequests st))
  /\ (allChars Regex.dot handle = true ->
      Normalizer.extractUsername email name = Some handle).
Proof.
  intros Hdne Hd Hne Hplus Hat Hget [-> | ->].
  - split.
    + apply (lookup_noreply a _ handle st details Hne); [| | exact Hget].
      * replace (digits ++ "+" ++ handle ++ "@users.noreply.github.com")%string
          with ((digits ++ "+" ++ handle) ++ "@users.noreply.github.com")%string
          by (now rewrite !append_assoc).
        apply endsWith_append.
      * now apply noReplyUsername_numbered.
    + intros Hdot. unfold Normalizer.extractUsername.
      now rewrite (noReplyHandle_form digits handle Hdne Hd Hne Hdot).
  - destruct (noReplyUsername_plain handle Hplus Hat) as [Hinc Hname]. split.
    + apply (lookup_noreply a _ handle st details Hne);
        [apply endsWith_append | exact Hname | exact Hget].
    + intros _. rewrite (first_party_local_part _ name).
      * f_equal. unfold noReplyUsername in Hname. now rewrite Hinc in Hname.
      * right. right. split; [apply endsWith_append | exact Hinc].
Qed.

Lemma lookup_noreply_handle_witness :
  (exists st' user,
      lookupUserByEmail Scenarios.octocatApi
                        ("12345" ++ "+" ++ "octo_cat" ++ "@users.noreply.github.com")
                        Scenarios.freshState
      = (st', Some user)
      /\ found_login user = "octo_cat"
      /\ found_by_noreply user = Some true
      /\ totalRequests st' = S (totalRequests Scenarios.freshState))
  /\ Normalizer.extractUsername
       ("12345" ++ "+" ++ "octo_cat" ++ "@users.noreply.github.com") "Mona"
     = Some "octo_cat".
Proof.
  destruct (lookup_noreply_handle Scenarios.octocatApi "12345" "octo_cat" "Mona"
              Scenarios.freshState Scenarios.octocatDetails
              ("12345" ++ "+" ++ "octo_cat" ++ "@users.noreply.github.com")%string)
    as [Hlookup Hsame].
  - discriminate.
  - reflexivity.
  - discriminate.
  - reflexivity.
  - reflexivity.
  - reflexivity.
  - left. reflexivity.
  - split; [exact Hlookup | apply Hsame; reflexivity].
Defined.

Lemma apiRequest_result {P A : Type} (method : P -> result A) (params : P) (st : apiState) :
  snd (apiRequest method params st) = method params.
Proof.
  unfold apiRequest. destruct (method params) as [r | e]; reflexivity.
Qed.

Lemma apiRequest_pair {P A : Type} (method : P -> result A) (params : P) (st : apiState) :
  apiRequest method params st = (fst (apiRequest method params st), method params).
Proof.
  rewrite <- (apiRequest_result method params st).
  now destruct (apiRequest method params st).
Qed.

(** The user a lookup returns does not depend on the counters. *)
Lemma lookup_value (a : lookupApi) (email : string) (st st' : apiState) :
  snd (lookupUserByEmail a email st) = snd (lookupUserByEmail a email st').
Proof.
  unfold lookupUserByEmail. destruct (negb (truthy email)); [reflexivity |].
  assert (Hsearch : forall s s', snd (lookupBySearch a email s)
                                 = snd (lookupBySearch a email s')).
  { intros s s'. unfold lookupBySearch.
    rewrite (apiRequest_pair (searchUsers a) _ s), (apiRequest_pair (searchUsers a) _ s').
    destruct (searchUsers a _) as [r | e]; [| reflexivity].
    destruct (data r) as [[| user items] |]; try reflexivity.
    rewrite (apiRequest_pair (getByUsername a) _ (fst (apiRequest _ _ s))),
      (apiRequest_pair (getByUsername a) _ (fst (apiRequest _ _ s'))).
    destruct (getByUsername a _) as [d | e]; reflexivity. }
  unfold lookupNoReply. destruct (endsWith email _); [| apply Hsearch].
  rewrite (apiRequest_pair (getByUsername a) _ st),
    (apiRequest_pair (getByUsername a) _ st').
  destruct (getByUsername a _) as [d | e]; [reflexivity | apply Hsearch].
Qed.

Lemma lookup_requests (a : lookupApi) (email : string) (st : apiState) :
  (totalRequests st <= totalRequests (fst (lookupUserByEmail a email st))
   <= totalRequests st + 3)%nat.
Proof.
  unfold lookupUserByEmail. destruct (negb (truthy email)); [simpl; lia |].
  assert (Hsearch : forall s,
             (totalRequests s <= totalRequests (fst (lookupBySearch a email s))
              <= totalRequests s + 2)%nat).
  { intros s. unfold lookupBySearch.
    pose proof (apiRequest_total (searchUsers a) (email ++ " in:email")%string s) as H1.
    destruct (apiRequest (searchUsers a) _ s) as [s1 [r | e]]; simpl in *; [| lia].
    destruct (data r) as [[| user items] |]; simpl; try lia.
    pose proof (apiRequest_total (getByUsername a) (item_login user) s1) as H2.
    destruct (apiRequest (getByUsername a) _ s1) as [s2 [d | e]]; simpl in *; lia. }
  unfold lookupNoReply. destruct (endsWith email _).
  - pose proof (apiRequest_total (getByUsername a) (noReplyUsername email) st) as H1.
    destruct (apiRequest (getByUsername a) _ st) as [s1 [d | e]]; simpl in *; [lia |].
    specialize (Hsearch s1). lia.
  - specialize (Hsearch st). lia.
Qed.

Lemma batches_concat {A : Type} (n : nat) :
  forall (fuel : nat) (l : list A),
    (List.length l <= fuel)%nat -> List.concat (batches fuel (S n) l) = l.
Proof.
  induction fuel as [| fuel IH]; intros l Hlen.
  - destruct l; [reflexivity | simpl in Hlen; lia].
  - destruct l as [| x l]; [reflexivity |].
    cbn [batches List.concat]. rewrite IH.
    + apply firstn_skipn.
    + rewrite length_skipn. simpl in *. lia.
Qed.

Lemma fold_concat {A S : Type} (f : S -> A -> S) (ls : list (list A)) (s : S) :
  fold_left (fun acc l => fold_left f l acc) ls s = fold_left f (List.concat ls) s.
Proof.
  revert s. induction ls as [| l ls IH]; intros s; simpl; [reflexivity |].
  now rewrite fold_left_app, IH.
Qed.

Lemma uniqueStrings_In (names seen : list string) (n : string) :
  In n (Dedup.uniqueStrings seen names) <-> In n names /\ ~ In n seen.
Proof.
  revert seen. induction names as [| x names IH]; intros seen; simpl; [tauto |].
  destruct (Registry.setHas x seen) eqn:Hx.
  - rewrite IH. unfold Registry.setHas in Hx. apply existsb_exists in Hx.
    destruct Hx as (y & Hy & Heq). apply String.eqb_eq in Heq. subst y.
    split; [tauto |]. intros [[-> | H] Hn]; [contradiction | tauto].
  - simpl. rewrite IH. simpl.
    assert (Hnot : ~ In x seen).
    { intros Hin. assert (Registry.setHas x seen = true); [| congruence].
      apply existsb_exists. exists x. split; [exact Hin | apply String.eqb_refl]. }
    split.
    + intros [<- | [H1 H2]]; [tauto | tauto].
    + intros [[<- | H] Hn]; [now left |].
      destruct (string_dec x n) as [-> | Hne]; [now left | right; tauto].
Qed.

Lemma uniqueStrings_length (names seen : list string) :
  (List.length (Dedup.uniqueStrings seen names) <= List.length names)%nat.
Proof.
  revert seen. induction names as [| x names IH]; intros seen; simpl; [lia |].
  destruct (Registry.setHas x seen); simpl.
  - specialize (IH seen). lia.
  - specialize (IH (x :: seen)). lia.
Qed.

Lemma lookupOne_loop (a : lookupApi) (st0 : apiState) (us : list string) :
  forall (st : apiState) (results : list (string * foundUser)) (seen : list string),
    (forall e, get e results
               = if existsb (String.eqb e) seen
                 then snd (lookupUserByEmail a e st0) else None) ->
    (forall e, get e (snd (fold_left (lookupOne a) us (st, results)))
               = if existsb (String.eqb e) (seen ++ us)
                 then snd (lookupUserByEmail a e st0) else None)
    /\ (totalRequests st
        <= totalRequests (fst (fold_left (lookupOne a) us (st, results)))
        <= totalRequests st + 3 * List.length us)%nat.
Proof.
  induction us as [| u us IH]; intros st results seen Hinv.
  - simpl. rewrite app_nil_r. split; [exact Hinv | lia].
  - cbn [fold_left].
    assert (Hstep : exists st1 results1,
               lookupOne a (st, results) u = (st1, results1)
               /\ (forall e, get e results1
                             = if existsb (String.eqb e) (seen ++ [u])
                               then snd (lookupUserByEmail a e st0) else None)
               /\ (totalRequests st <= totalRequests st1 <= totalRequests st + 3)%nat).
    { unfold lookupOne. unfold has at 1. destruct (get u results) as [user |] eqn:Hu.
      - exists st, results. split; [reflexivity |]. split; [| lia].
        intros e. rewrite Hinv, existsb_app. simpl. rewrite orb_false_r.
        destruct (String.eqb_spec e u) as [-> | _]; [| now rewrite orb_false_r].
        rewrite orb_true_r. rewrite Hinv in Hu.
        destruct (existsb (String.eqb u) seen); [reflexivity | discriminate].
      - pose proof (lookup_requests a u st) as Hreq.
        pose proof (lookup_value a u st st0) as Hval.
        destruct (lookupUserByEmail a u st) as [st1 [user |]]; simpl in Hreq, Hval.
        + exists st1, (set u user results). split; [reflexivity |]. split; [| exact Hreq].
          intros e. rewrite map_get_set, existsb_app. simpl. rewrite orb_false_r.
          rewrite String.eqb_sym.
          destruct (String.eqb_spec e u) as [-> | _].
          * now rewrite orb_true_r, <- Hval.
          * now rewrite orb_false_r, Hinv.
        + exists st1, results. split; [reflexivity |]. split; [| exact Hreq].
          intros e. rewrite existsb_app. simpl. rewrite orb_false_r.
          destruct (String.eqb_spec e u) as [-> | _].
          * rewrite orb_true_r, <- Hval. exact Hu.
          * now rewrite orb_false_r, Hinv. }
    destruct Hstep as (st1 & results1 & -> & Hinv1 & Hreq1).
    destruct (IH st1 results1 (seen ++ [u]) Hinv1) as [Hget Hreq].
    split.
    + intros e. rewrite Hget, <- app_assoc. reflexivity.
    + simpl List.length. lia.
Qed.

(** X16: the map [batchLookupUsersByEmail] returns holds, for every e-mail
    of the list, the user [lookupUserByEmail] finds for it, and nothing for
    an e-mail the lookup finds no user for or that is not in the list; the
    batch makes at most three requests an e-mail. *)
Theorem batch_lookup_results (a : lookupApi) (emails : list string) (st : apiState) :
  (forall e : string,
      get e (snd (batchLookupUsersByEmail a emails st))
      = if existsb (String.eqb e) emails
        then snd (lookupUserByEmail a e st) else None)
  /\ (totalRequests st
      <= totalRequests (fst (batchLookupUsersByEmail a emails st))
      <= totalRequests st + 3 * List.length emails)%nat.
Proof.
  unfold batchLookupUsersByEmail. cbv zeta.
  rewrite fold_concat, (batches_concat 4) by lia.
  destruct (lookupOne_loop a st (Dedup.uniqueStrings [] emails) st [] [])
    as [Hget Hreq]; [reflexivity |].
  split.
  - intros e. rewrite Hget. simpl.
    assert (Hsame : existsb (String.eqb e) (Dedup.uniqueStrings [] emails)
                    = existsb (String.eqb e) emails).
    { apply eq_true_iff_eq. rewrite !existsb_exists. split.
      - intros (x & Hx & Heq). exists x. split; [| exact Heq].
        now apply uniqueStrings_In in Hx.
      - intros (x & Hx & Heq). exists x. split; [| exact Heq].
        apply uniqueStrings_In. split; [exact Hx | tauto]. }
    now rewrite Hsame.
  - pose proof (uniqueStrings_length emails []). lia.
Qed.

End LookupFacts.

(* ------------------------------------------------------------------ *)
(** ** The contributors of the metrics file *)

Section OutputFacts.
Import Js Registry Output.

Lemma map_sorted {A B : Type} (f : A -> B) (R : B -> B -> Prop) (l : list A) :
  StronglySorted (fun x y => R (f x) (f y)) l -> StronglySorted R (map f l).
Proof.
  induction 1 as [| a l Hl IH Hall]; simpl; constructor; [exact IH |].
  rewrite Forall_forall in *. intros y Hy. apply in_map_iff in Hy.
  destruct Hy as (x & <- & Hx). now apply Hall.
Qed.

(** X17: in the metrics file the number of contributors is the size of the
    registry; the top contributors are at most twenty, in descending order
    of contributions, and no contributor left out has more contributions
    than one of them. *)
Theorem top_contributors (m : registry) :
  contributors_total (contributorStatsOf m) = size m
  /\ List.length (contributors_top (contributorStatsOf m)) = Nat.min 20 (size m)
  /\ StronglySorted (fun x y => (top_contributions y <= top_contributions x)%Z)
                    (contributors_top (contributorStatsOf m))
  /\ exists listed others,
      contributors_top (contributorStatsOf m) = map rest listed
      /\ Permutation (listed ++ others) (map (fun kd => exported (snd kd)) m)
      /\ forall x y, In x listed -> In y others ->
                     (contributions y <= contributions x)%Z.
Proof.
  unfold contributorStatsOf. cbn [contributors_total contributors_top].
  unfold allContributors.
  pose proof (sort_Permutation byContributions (map (fun kd => exported (snd kd)) m))
    as Hperm.
  pose proof (sort_descending contributions (map (fun kd => exported (snd kd)) m))
    as Hsorted.
  assert (Hlen : List.length (Dedup.sort byContributions
                                (map (fun kd => exported (snd kd)) m)) = size m).
  { rewrite (Permutation_length Hperm). apply length_map. }
  split; [exact Hlen |]. split; [now rewrite length_map, length_firstn, Hlen |].
  split.
  - apply map_sorted. now apply firstn_sorted.
  - exists (firstn 20 (Dedup.sort byContributions (map (fun kd => exported (snd kd)) m))),
      (skipn 20 (Dedup.sort byContributions (map (fun kd => exported (snd kd)) m))).
    split; [reflexivity |]. split; [now rewrite firstn_skipn |].
    intros x y Hx Hy. exact (sorted_cut contributions _ 20 x y Hsorted Hx Hy).
Qed.

End OutputFacts.

(* ------------------------------------------------------------------ *)
(** ** The key of a new co-author *)

Section UniqueUsername.
Import Js Registry.

(** X18: the key of a new co-author is the generated username, or the
    username with the least suffix [-j], [j >= 1], that is not a key of the
    registry: it is never an existing key, every candidate tried before it
    is one, and the loop makes at most as many rounds as the registry has
    records. *)
Theorem finalUsername_least (name email : string) (m : registry) :
  exists j : nat,
    finalUsername name email m = candidateAt (coAuthorUsername name email m) j
    /\ (j <= size m)%nat
    /\ has (finalUsername name email m) m = false
    /\ forall i, (i < j)%nat -> has (candidateAt (coAuthorUsername name email m) i) m = true.
Proof.
  unfold finalUsername.
  destruct (uniqueUsername_spec m (coAuthorUsername name email m) (size m) 0)
    as (j & Hj & Heq & Htaken & Hfree).
  exists j. change (candidateAt (coAuthorUsername name email m) 0)
    with (coAuthorUsername name email m) in Heq.
  split; [exact Heq |]. split; [lia |]. split.
  - apply finalUsername_fresh.
  - intros i Hi. apply Htaken. lia.
Qed.

End UniqueUsername.

(* ------------------------------------------------------------------ *)
(** ** The duplicate sets found *)

Section GroupingFacts.
Import Js Registry Dedup Grouping.

Lemma groupOf_pushTo (k k' login : string) (g : groups) :
  groupOf k (pushTo k' login g)
  = if k' =? k then groupOf k g ++ [login] else groupOf k g.
Proof.
  induction g as [| [k0 ls] g IH]; simpl.
  - now destruct (k' =? k).
  - destruct (String.eqb_spec k0 k') as [-> | Hne]; simpl.
    + now destruct (k' =? k).
    + destruct (String.eqb_spec k0 k) as [-> | Hne'].
      * destruct (String.eqb_spec k' k) as [-> | _]; [congruence | reflexivity].
      * exact IH.
Qed.

Lemma keys_pushTo (k login : string) (g : groups) (k' : string) :
  In k' (map fst (pushTo k login g)) <-> k' = k \/ In k' (map fst g).
Proof.
  induction g as [| [k0 ls] g IH]; simpl.
  - split; [intros [<- | []]; now left | intros [-> | []]; now left].
  - destruct (String.eqb_spec k0 k) as [-> | Hne]; simpl.
    + split; [tauto |]. intros [-> | H]; [now left | exact H].
    + rewrite IH. tauto.
Qed.

Lemma pushTo_wf (k login : string) (g : groups) : groupsWf g -> groupsWf (pushTo k login g).
Proof.
  intros [Hnd Hne]. split.
  - clear Hne. induction g as [| [k0 ls] g IH]; simpl.
    + repeat constructor. intros [].
    + inversion Hnd as [| ? ? Hnotin Hnd']; subst.
      destruct (String.eqb_spec k0 k) as [-> | Hk]; simpl.
      * now constructor.
      * constructor; [| now apply IH].
        rewrite keys_pushTo. intros [-> | H]; [congruence | contradiction].
  - intros k' ls' Hin. apply In_pushTo in Hin.
    destruct Hin as [Hin | (-> & [-> | (ls & Hls & ->)])].
    + now apply (Hne k' ls').
    + discriminate.
    + now destruct ls.
Qed.

Lemma groupOf_In (g : groups) (k : string) (ls : list string) :
  NoDup (map fst g) -> In (k, ls) g -> groupOf k g = ls.
Proof.
  induction g as [| [k0 ls0] g IH]; simpl; [tauto |].
  intros Hnd Hin. inversion Hnd as [| ? ? Hnotin Hnd']; subst.
  destruct Hin as [Heq | Hin].
  - injection Heq as -> ->. now rewrite String.eqb_refl.
  - destruct (String.eqb_spec k0 k) as [-> | _]; [| now apply IH].
    exfalso. apply Hnotin. change k with (fst (k, ls)). now apply in_map.
Qed.

Lemma In_groupOf (g : groups) (k : string) :
  groupOf k g <> [] -> In (k, groupOf k g) g.
Proof.
  induction g as [| [k0 ls0] g IH]; simpl; [congruence |].
  destruct (String.eqb_spec k0 k) as [-> | _]; [now left |].
  intros H. right. now apply IH.
Qed.

(** The fold that builds a map of the discovery, the key of a record being
    [keyOf] of it. *)
Lemma grouping (keyOf : string * contributor -> option string) (m : registry) :
  forall g : groups,
    groupsWf g ->
    let g' := fold_left (fun acc kd =>
                           match keyOf kd with
                           | Some k => pushTo k (fst kd) acc
                           | None => acc
                           end) m g in
    groupsWf g'
    /\ forall k, groupOf k g'
                 = groupOf k g
                   ++ map fst (filter (fun kd => match keyOf kd with
                                                 | Some k' => k' =? k
                                                 | None => false
                                                 end) m).
Proof.
  induction m as [| kd m IH]; intros g Hwf; cbn [fold_left].
  - split; [exact Hwf |]. intros k. simpl. now rewrite app_nil_r.
  - destruct (keyOf kd) as [k0 |] eqn:Hk0.
    + destruct (IH (pushTo k0 (fst kd) g) (pushTo_wf _ _ _ Hwf)) as [Hwf' Hgroup].
      split; [exact Hwf' |]. intros k. cbv zeta in Hgroup. rewrite Hgroup.
      rewrite groupOf_pushTo. cbn [filter]. rewrite Hk0.
      destruct (k0 =? k); [| reflexivity].
      simpl. now rewrite <- app_assoc.
    + destruct (IH g Hwf) as [Hwf' Hgroup].
      split; [exact Hwf' |]. intros k. cbv zeta in Hgroup. rewrite Hgroup.
      cbn [filter]. now rewrite Hk0.
Qed.

Lemma groupsWf_nil : groupsWf [].
Proof. split; [constructor | intros k ls []]. Qed.

Lemma loginMap_groups (m : registry) :
  groupsWf (loginMap m)
  /\ forall e, groupOf e (loginMap m) = keysWhere (emailIs e) m.
Proof.
  pose proof (grouping (fun kd => match email (snd kd) with
                                  | Some x => if truthy x then Some (toLowerCase x) else None
                                  | None => None
                                  end) m [] groupsWf_nil) as H.
  cbv beta zeta in H.
  assert (Heq : loginMap m
                = fold_left (fun acc kd =>
                               match (match email (snd kd) with
                                      | Some x => if truthy x then Some (toLowerCase x) else None
                                      | None => None
                                      end) with
                               | Some k => pushTo k (fst kd) acc
                               | None => acc
                               end) m []).
  { unfold loginMap. apply fold_left_ext. intros acc kd.
    destruct (email (snd kd)) as [x |]; [| reflexivity]. now destruct (truthy x). }
  rewrite <- Heq in H. destruct H as [Hwf Hgroup]. split; [exact Hwf |].
  intros e. rewrite Hgroup. simpl. unfold keysWhere. f_equal.
  apply filter_ext. intros kd. unfold emailIs.
  destruct (email (snd kd)) as [x |]; [| reflexivity]. now destruct (truthy x).
Qed.

Lemma githubUserMap_groups (m : registry) :
  groupsWf (githubUserMap m)
  /\ forall g, groupOf g (githubUserMap m) = keysWhere (githubLoginIs g) m.
Proof.
  pose proof (grouping (fun kd => match github_login (snd kd) with
                                  | Some x => if truthy x then Some (toLowerCase x) else None
                                  | None => None
                                  end) m [] groupsWf_nil) as H.
  cbv beta zeta in H.
  assert (Heq : githubUserMap m
                = fold_left (fun acc kd =>
                               match (match github_login (snd kd) with
                                      | Some x => if truthy x then Some (toLowerCase x) else None
                                      | None => None
                                      end) with
                               | Some k => pushTo k (fst kd) acc
                               | None => acc
                               end) m []).
  { unfold githubUserMap. apply fold_left_ext. intros acc kd.
    destruct (github_login (snd kd)) as [x |]; [| reflexivity]. now destruct (truthy x). }
  rewrite <- Heq in H. destruct H as [Hwf Hgroup]. split; [exact Hwf |].
  intros e. rewrite Hgroup. simpl. unfold keysWhere. f_equal.
  apply filter_ext. intros kd. unfold githubLoginIs.
  destruct (github_login (snd kd)) as [x |]; [| reflexivity]. now destruct (truthy x).
Qed.

Lemma In_duplicatesOf (t : dupType) (g : groups) (dup : duplicateSet) :
  In dup (duplicatesOf t g)
  <-> type dup = t /\ In (key dup, logins dup) g /\ (2 <= List.length (logins dup))%nat.
Proof.
  unfold duplicatesOf. rewrite in_flat_map. split.
  - intros ([k ls] & Hin & Hdup). simpl in Hdup.
    destruct (Nat.ltb_spec 1 (List.length ls)); [| contradiction].
    destruct Hdup as [<- | []]. simpl. auto.
  - intros (Ht & Hin & Hlen). exists (key dup, logins dup). split; [exact Hin |].
    simpl. destruct (Nat.ltb_spec 1 (List.length (logins dup))); [| lia].
    left. destruct dup. simpl in *. now subst.
Qed.

Lemma addSimilar_keeps (g : groups) :
  forall (duplicates : list duplicateSet) (dup : duplicateSet),
    (In dup duplicates -> In dup (fold_left addSimilar g duplicates))
    /\ (In dup (fold_left addSimilar g duplicates) ->
        In dup duplicates
        \/ (type dup = similar_name_type /\ (2 <= List.length (logins dup))%nat)).
Proof.
  induction g as [| [k ls] g IH]; intros duplicates dup; simpl; [tauto |].
  destruct (IH (addSimilar duplicates (k, ls)) dup) as [Hkeep Hfrom].
  unfold addSimilar in *. simpl in *.
  destruct (Nat.ltb_spec 1 (List.length ls)); [| tauto].
  destruct (existsb (sameLogins ls) duplicates); [tauto |].
  split.
  - intros Hin. apply Hkeep. apply in_or_app. now left.
  - intros Hin. destruct (Hfrom Hin) as [Hold | Hnew]; [| now right].
    apply in_app_or in Hold. destruct Hold as [Hold | [<- | []]]; [now left |].
    right. simpl. split; [reflexivity | lia].
Qed.

(** X19: every duplicate set found has two logins or more; a set found by
    e-mail lists exactly the keys of the records that hold its e-mail, up to
    case, in the order of the registry, and every e-mail two records or more
    hold gives such a set; the same for the sets found by GitHub login. *)
Theorem duplicate_sets_found (m : registry) :
  (forall dup,
      In dup (findDuplicates m) ->
      (2 <= List.length (logins dup))%nat
      /\ (type dup = email_type -> logins dup = keysWhere (emailIs (key dup)) m)
      /\ (type dup = github_login_type ->
          logins dup = keysWhere (githubLoginIs (key dup)) m))
  /\ (forall e,
         (2 <= List.length (keysWhere (emailIs e) m))%nat ->
         In {| type := email_type; key := e; logins := keysWhere (emailIs e) m |}
            (findDuplicates m))
  /\ (forall g,
         (2 <= List.length (keysWhere (githubLoginIs g) m))%nat ->
         In {| type := github_login_type; key := g;
               logins := keysWhere (githubLoginIs g) m |}
            (findDuplicates m)).
Proof.
  destruct (loginMap_groups m) as [[HndE _] HgroupE].
  destruct (githubUserMap_groups m) as [[HndG _] HgroupG].
  unfold findDuplicates. split; [| split].
  - intros dup Hin. apply addSimilar_keeps in Hin.
    destruct Hin as [Hin | [Ht Hlen]].
    + apply in_app_or in Hin. destruct Hin as [Hin | Hin];
        apply In_duplicatesOf in Hin; destruct Hin as (Ht & Hin & Hlen).
      * split; [exact Hlen |]. split; [| congruence].
        intros _. now rewrite <- HgroupE, (groupOf_In _ _ _ HndE Hin).
      * split; [exact Hlen |]. split; [congruence |].
        intros _. now rewrite <- HgroupG, (groupOf_In _ _ _ HndG Hin).
    + split; [exact Hlen |]. split; congruence.
  - intros e Hlen. apply addSimilar_keeps. apply in_or_app. left.
    apply In_duplicatesOf. simpl. split; [reflexivity |]. split; [| exact Hlen].
    rewrite <- HgroupE. apply In_groupOf. rewrite HgroupE.
    intros Hnil. rewrite Hnil in Hlen. simpl in Hlen. lia.
  - intros g Hlen. apply addSimilar_keeps. apply in_or_app. right.
    apply In_duplicatesOf. simpl. split; [reflexivity |]. split; [| exact Hlen].
    rewrite <- HgroupG. apply In_groupOf. rewrite HgroupG.
    intros Hnil. rewrite Hnil in Hlen. simpl in Hlen. lia.
Qed.

End GroupingFacts.

(* ------------------------------------------------------------------ *)
(** ** What the merge loop keeps *)

Section MergeInvariants.
Import Js Registry Dedup Grouping.

Lemma keys_delete (l : string) (m : registry) :
  NoDup (keys m) -> keys (delete l m) = filter (fun k => negb (k =? l)) (keys m).
Proof.
  induction m as [| [k d] m IH]; intros Hnd; simpl; [reflexivity |].
  inversion Hnd as [| ? ? Hnotin Hnd']; subst.
  destruct (String.eqb_spec k l) as [-> | Hne]; simpl.
  - symmetry. apply forallb_filter_id. apply forallb_forall. intros x Hx.
    apply negb_true_iff, String.eqb_neq. intros ->. contradiction.
  - now rewrite IH.
Qed.

Lemma comesFrom_refl (m : registry) : comesFrom m m.
Proof. intros k d Hd. exists d. repeat split; auto. apply incl_refl. Qed.

Lemma comesFrom_trans (m1 m2 m3 : registry) :
  comesFrom m1 m2 -> comesFrom m2 m3 -> comesFrom m1 m3.
Proof.
  intros H12 H23 k d3 Hd3.
  destruct (H23 k d3 Hd3) as (d2 & Hd2 & Hl2 & He2 & Hr2).
  destruct (H12 k d2 Hd2) as (d1 & Hd1 & Hl1 & He1 & Hr1).
  exists d1. repeat split; try congruence. eapply incl_tran; eassumption.
Qed.

Lemma comesFrom_update (k : string) (f : contributor -> contributor) (m : registry) :
  (forall d, login (f d) = login d /\ email (f d) = email d
             /\ incl (repositories d) (repositories (f d))) ->
  comesFrom m (update k f m).
Proof.
  intros Hf k' d' Hd'.
  destruct (String.eqb_spec k' k) as [-> | Hne].
  - destruct (get k m) as [d |] eqn:Hd.
    + rewrite (get_update_same _ _ _ _ Hd) in Hd'. injection Hd' as <-.
      exists d. destruct (Hf d) as (H1 & H2 & H3). auto.
    + assert (Hnone : get k (update k f m) = None).
      { clear Hd'. induction m as [| [k0 d0] m IH]; simpl in *; [reflexivity |].
        destruct (k0 =? k) eqn:E; [discriminate |]. simpl. rewrite E. now apply IH. }
      congruence.
  - rewrite get_update_other in Hd' by exact Hne.
    exists d'. repeat split; auto. apply incl_refl.
Qed.

Lemma comesFrom_delete (l : string) (m : registry) :
  NoDup (keys m) -> comesFrom m (delete l m).
Proof.
  intros Hnd k d Hd. destruct (String.eqb_spec k l) as [-> | Hne].
  - rewrite get_delete_same in Hd by exact Hnd. discriminate.
  - rewrite get_delete_other in Hd by exact Hne.
    exists d. repeat split; auto. apply incl_refl.
Qed.

Lemma setAdd_all_incl (rs s : list string) :
  incl s (fold_left (fun acc r => setAdd r acc) rs s).
Proof.
  revert s. induction rs as [| r rs IH]; intros s; simpl; [apply incl_refl |].
  eapply incl_tran; [| apply IH]. intros x Hx. apply In_setAdd. now right.
Qed.

Lemma setHas_In (x : string) (s : list string) : setHas x s = true <-> In x s.
Proof.
  unfold setHas. rewrite existsb_exists. split.
  - intros (y & Hy & Heq). apply String.eqb_eq in Heq. now subst.
  - intros H. exists x. split; [exact H | apply String.eqb_refl].
Qed.

Lemma setHas_setAdd (k l : string) (s : list string) :
  setHas k (setAdd l s) = setHas k s || (k =? l).
Proof.
  apply eq_true_iff_eq. rewrite orb_true_iff, !setHas_In, In_setAdd, String.eqb_eq.
  tauto.
Qed.

Lemma live_not_merged (m0 m : registry) (ml : list string) (l : string) :
  mergeInvariant m0 (m, ml) -> has l m = true -> setHas l ml = false.
Proof.
  intros (_ & _ & Hkeys & _) Hl. simpl in Hkeys. apply has_keys in Hl.
  rewrite Hkeys in Hl. apply filter_In in Hl. now apply negb_true_iff.
Qed.

Lemma absorbLogin_invariant (m0 : registry) (t : dupType) (p l : string)
    (m m' : registry) (ml ml' : list string) :
  mergeInvariant m0 (m, ml) ->
  absorbLogin t p (Some (m, ml)) l = Some (m', ml') ->
  mergeInvariant m0 (m', ml') /\ comesFrom m m'.
Proof.
  intros Hinv Hstep. unfold absorbLogin in Hstep.
  destruct (l =? p).
  { injection Hstep as <- <-. split; [exact Hinv | apply comesFrom_refl]. }
  destruct (get l m) as [data |] eqn:Hdata; [| discriminate].
  injection Hstep as <- <-.
  assert (Hlive : has l m = true) by (unfold has; now rewrite Hdata).
  pose proof (live_not_merged _ _ _ _ Hinv Hlive) as Hfresh.
  destruct Hinv as (Hnd & Hfrom & Hkeys & Hml & Hincl). simpl in *.
  assert (Hstep : comesFrom m (delete l (update p (absorb t l data) m))).
  { eapply comesFrom_trans.
    - apply (comesFrom_update p (absorb t l data)). intros d. simpl.
      repeat split. apply setAdd_all_incl.
    - apply comesFrom_delete. now rewrite keys_update. }
  split; [| exact Hstep].
  unfold mergeInvariant. simpl. repeat split.
  - apply NoDup_keys_delete. now rewrite keys_update.
  - eapply comesFrom_trans; eassumption.
  - rewrite keys_delete by now rewrite keys_update.
    rewrite keys_update, Hkeys. clear.
    induction (keys m0) as [| k ks IH]; simpl; [reflexivity |].
    rewrite setHas_setAdd. destruct (setHas k ml); simpl; [exact IH |].
    destruct (k =? l); simpl; [exact IH | now rewrite IH].
  - unfold setAdd. rewrite Hfresh. apply NoDup_snoc; [exact Hml |].
    intros Hin. apply setHas_In in Hin. congruence.
  - intros x Hx. apply In_setAdd in Hx. destruct Hx as [-> | Hx]; [| now apply Hincl].
    apply has_keys in Hlive. rewrite Hkeys in Hlive. apply filter_In in Hlive. tauto.
Qed.

Lemma absorb_thrown (t : dupType) (p : string) (ls : list string) :
  fold_left (absorbLogin t p) ls None = None.
Proof. induction ls as [| l ls IH]; [reflexivity | exact IH]. Qed.

Lemma merge_thrown (sets : list duplicateSet) : fold_left mergeSet sets None = None.
Proof. induction sets as [| dup sets IH]; [reflexivity | exact IH]. Qed.

Lemma absorb_fold_invariant (m0 : registry) (t : dupType) (p : string) (ls : list string) :
  forall (m m' : registry) (ml ml' : list string),
    mergeInvariant m0 (m, ml) ->
    fold_left (absorbLogin t p) ls (Some (m, ml)) = Some (m', ml') ->
    mergeInvariant m0 (m', ml') /\ comesFrom m m'.
Proof.
  induction ls as [| l ls IH]; intros m m' ml ml' Hinv Hfold; cbn [fold_left] in Hfold.
  - injection Hfold as <- <-. split; [exact Hinv | apply comesFrom_refl].
  - destruct (absorbLogin t p (Some (m, ml)) l) as [[m1 ml1] |] eqn:Hstep.
    + destruct (absorbLogin_invariant _ _ _ _ _ _ _ _ Hinv Hstep) as [Hinv1 Hfrom1].
      destruct (IH _ _ _ _ Hinv1 Hfold) as [Hinv' Hfrom'].
      split; [exact Hinv' |]. eapply comesFrom_trans; eassumption.
    + rewrite absorb_thrown in Hfold. discriminate.
Qed.

Lemma initAliases_invariant (m0 : registry) (p : string) (m : registry) (ml : list string) :
  mergeInvariant m0 (m, ml) ->
  mergeInvariant m0 (update p initAliases m, ml) /\ comesFrom m (update p initAliases m).
Proof.
  intros (Hnd & Hfrom & Hkeys & Hml & Hincl). simpl in *.
  assert (Hstep : comesFrom m (update p initAliases m)).
  { apply comesFrom_update. intros d. simpl. repeat split. apply incl_refl. }
  split; [| exact Hstep]. unfold mergeInvariant. simpl. rewrite keys_update.
  repeat split; auto. eapply comesFrom_trans; eassumption.
Qed.

Lemma mergeSet_invariant (m0 : registry) (dup : duplicateSet)
    (m m' : registry) (ml ml' : list string) :
  mergeInvariant m0 (m, ml) ->
  mergeSet (Some (m, ml)) dup = Some (m', ml') ->
  mergeInvariant m0 (m', ml') /\ comesFrom m m'.
Proof.
  intros Hinv Hstep. unfold mergeSet in Hstep.
  destruct (forallb _ (logins dup)).
  { injection Hstep as <- <-. split; [exact Hinv | apply comesFrom_refl]. }
  destruct (List.length _ <=? 1)%nat.
  { injection Hstep as <- <-. split; [exact Hinv | apply comesFrom_refl]. }
  destruct (primaryOf _) as [p |].
  - destruct (initAliases_invariant m0 p m ml Hinv) as [Hinv1 Hfrom1].
    destruct (absorb_fold_invariant _ _ _ _ _ _ _ _ Hinv1 Hstep) as [Hinv' Hfrom'].
    split; [exact Hinv' |]. eapply comesFrom_trans; eassumption.
  - injection Hstep as <- <-. split; [exact Hinv | apply comesFrom_refl].
Qed.

Lemma mergeSets_invariant (m0 : registry) (sets : list duplicateSet) :
  forall (m m' : registry) (ml ml' : list string),
    mergeInvariant m0 (m, ml) ->
    fold_left mergeSet sets (Some (m, ml)) = Some (m', ml') ->
    mergeInvariant m0 (m', ml') /\ comesFrom m m'.
Proof.
  induction sets as [| dup sets IH]; intros m m' ml ml' Hinv Hfold; cbn [fold_left] in Hfold.
  - injection Hfold as <- <-. split; [exact Hinv | apply comesFrom_refl].
  - destruct (mergeSet (Some (m, ml)) dup) as [[m1 ml1] |] eqn:Hstep.
    + destruct (mergeSet_invariant _ _ _ _ _ _ Hinv Hstep) as [Hinv1 Hfrom1].
      destruct (IH _ _ _ _ Hinv1 Hfold) as [Hinv' Hfrom'].
      split; [exact Hinv' |]. eapply comesFrom_trans; eassumption.
    + rewrite merge_thrown in Hfold. discriminate.
Qed.

Lemma invariant_start (m : registry) : NoDup (keys m) -> mergeInvariant m (m, []).
Proof.
  intros Hnd. unfold mergeInvariant. simpl. repeat split.
  - exact Hnd.
  - apply comesFrom_refl.
  - symmetry. apply forallb_filter_id. now apply forallb_forall.
  - constructor.
  - intros x [].
Qed.

Lemma removed_count (ks ml : list string) :
  NoDup ks -> NoDup ml -> incl ml ks ->
  (List.length (filter (fun k => negb (setHas k ml)) ks) + List.length ml
   = List.length ks)%nat.
Proof.
  intros Hks Hml Hincl.
  rewrite (Permutation_length (filter_split_Permutation (fun k => setHas k ml) ks)).
  rewrite length_app.
  assert (Hperm : Permutation (filter (fun k => setHas k ml) ks) ml).
  { apply NoDup_Permutation; [now apply NoDup_filter | exact Hml |].
    intros x. rewrite filter_In, setHas_In. split; [tauto |].
    intros Hx. split; [now apply Hincl | exact Hx]. }
  rewrite (Permutation_length Hperm). lia.
Qed.

(** X20: the deduplication never throws on a registry with distinct keys,
    and it only removes records: the keys left are the keys of the registry
    that are not in [mergedLogins], in the same order; [mergedLogins] holds
    each removed key once; and a record left keeps its login and its e-mail
    and loses no repository. *)
Theorem deduplicate_only_removes (m : registry) :
  NoDup (keys m) ->
  exists (m' : registry) (mergedLogins : list string),
    deduplicate m = Some (m', mergedLogins)
    /\ keys m' = filter (fun k => negb (setHas k mergedLogins)) (keys m)
    /\ NoDup mergedLogins
    /\ incl mergedLogins (keys m)
    /\ (size m' + List.length mergedLogins = size m)%nat
    /\ comesFrom m m'.
Proof.
  intros Hnd.
  destruct (mergeDuplicates_total (findDuplicates m) (findDuplicates_NoDup m Hnd) m [] Hnd)
    as (m' & ml' & Hfold & _ & _).
  exists m', ml'. split; [exact Hfold |].
  destruct (mergeSets_invariant m _ _ _ _ _ (invariant_start m Hnd) Hfold)
    as [(Hnd' & Hfrom & Hkeys & Hml & Hincl) _].
  simpl in *. split; [exact Hkeys |]. split; [exact Hml |]. split; [exact Hincl |].
  split; [| exact Hfrom].
  unfold size. rewrite <- (length_map fst m'), <- (length_map fst m).
  fold (keys m') (keys m). rewrite Hkeys. now apply removed_count.
Qed.

Lemma deduplicate_only_removes_witness :
  exists (m' : registry) (mergedLogins : list string),
    deduplicate Samples.sampleDuplicates = Some (m', mergedLogins)
    /\ keys m' = filter (fun k => negb (setHas k mergedLogins))
                        (keys Samples.sampleDuplicates)
    /\ NoDup mergedLogins
    /\ incl mergedLogins (keys Samples.sampleDuplicates)
    /\ (size m' + List.length mergedLogins = size Samples.sampleDuplicates)%nat
    /\ comesFrom Samples.sampleDuplicates m'.
Proof.
  apply (deduplicate_only_removes Samples.sampleDuplicates).
  repeat constructor; simpl; intuition discriminate.
Defined.

End MergeInvariants.

(* ------------------------------------------------------------------ *)
(** ** E-mails after the deduplication *)

Section EmailPhase.
Import Js Registry Dedup Grouping.

Lemma validEntries_all (m : registry) (ml ls : list string) :
  (forall l, In l ls -> has l m = true /\ setHas l ml = false) ->
  map fst (validEntries m ml ls) = ls.
Proof.
  induction ls as [| l ls IH]; intros Hall; simpl; [reflexivity |].
  destruct (Hall l (or_introl eq_refl)) as [Hhas Hfresh].
  unfold has in Hhas. destruct (get l m) as [d |]; [| discriminate].
  rewrite Hfresh. simpl. f_equal. apply IH. intros l' Hl'. apply Hall. now right.
Qed.

(** A set all of whose logins are live: one of them is kept, the others are
    deleted, and no other record is touched. *)
Lemma mergeSet_all_live (m : registry) (ml : list string) (dup : duplicateSet) :
  NoDup (keys m) -> NoDup (logins dup) ->
  (2 <= List.length (logins dup))%nat ->
  (forall l, In l (logins dup) -> has l m = true /\ setHas l ml = false) ->
  exists (m' : registry) (ml' : list string) (p : string),
    mergeSet (Some (m, ml)) dup = Some (m', ml')
    /\ (forall l, In l (logins dup) -> l <> p -> get l m' = None)
    /\ (forall k, ~ In k (logins dup) -> get k m' = get k m).
Proof.
  intros Hkeys Hnd Hlen Hlive. unfold mergeSet.
  pose proof (validEntries_all m ml (logins dup) Hlive) as Hmap.
  assert (Hnotall : forallb (fun l => setHas l ml || negb (has l m)) (logins dup) = false).
  { destruct (logins dup) as [| l0 ls]; [simpl in Hlen; lia |].
    destruct (Hlive l0 (or_introl eq_refl)) as [Hhas Hfresh].
    simpl. now rewrite Hhas, Hfresh. }
  rewrite Hnotall.
  set (entries := validEntries m ml (logins dup)) in *.
  assert (Hcount : List.length entries = List.length (logins dup)).
  { rewrite <- Hmap. symmetry. apply length_map. }
  destruct (Nat.leb_spec (List.length entries) 1) as [Hfew | _]; [lia |].
  destruct (primaryOf_In entries) as (p & pd & Hprimary & Hin).
  { intros E. rewrite E in Hcount. simpl in Hcount. lia. }
  rewrite Hprimary, Hmap.
  assert (Hget : get p m = Some pd).
  { apply validEntries_In in Hin. tauto. }
  assert (Hp : In p (logins dup)).
  { apply validEntries_In in Hin. tauto. }
  destruct (absorb_loop (type dup) p (logins dup) Hnd
              (update p initAliases m) ml (initAliases pd))
    as (m' & ml' & merged & Hfold & _ & _ & _ & _ & _ & Hgone & Hsame).
  { now rewrite keys_update. }
  { now apply get_update_same. }
  { intros l Hl. rewrite has_update. now apply Hlive. }
  exists m', ml', p. split; [exact Hfold |]. split; [exact Hgone |].
  intros k Hk.
  assert (Hkp : k <> p) by (intros ->; contradiction).
  rewrite (Hsame k Hk Hkp). now apply get_update_other.
Qed.

Lemma comesFrom_gone (m m' : registry) (k : string) :
  comesFrom m m' -> get k m = None -> get k m' = None.
Proof.
  intros Hfrom Hnone. destruct (get k m') as [d' |] eqn:Hd'; [| reflexivity].
  destruct (Hfrom k d' Hd') as (d & Hd & _). congruence.
Qed.

(** Sets that share no login, all of whose logins are live: after they are
    merged, one login of each is left at most. *)
Lemma disjoint_sets_merged (m0 : registry) (sets : list duplicateSet) :
  NoDup sets ->
  (forall a b l, In a sets -> In b sets -> In l (logins a) -> In l (logins b) -> a = b) ->
  forall (m : registry) (ml : list string),
    mergeInvariant m0 (m, ml) ->
    (forall dup, In dup sets ->
                 NoDup (logins dup) /\ (2 <= List.length (logins dup))%nat
                 /\ forall l, In l (logins dup) -> has l m = true) ->
    exists (m' : registry) (ml' : list string),
      fold_left mergeSet sets (Some (m, ml)) = Some (m', ml')
      /\ mergeInvariant m0 (m', ml')
      /\ comesFrom m m'
      /\ forall dup, In dup sets ->
                     exists p, forall l, In l (logins dup) -> l <> p -> get l m' = None.
Proof.
  induction sets as [| dup sets IH]; intros Hnd Hdisj m ml Hinv Hsets.
  - exists m, ml. split; [reflexivity |]. split; [exact Hinv |].
    split; [apply comesFrom_refl |]. intros dup [].
  - inversion Hnd as [| ? ? Hnotin Hnd']; subst.
    destruct (Hsets dup (or_introl eq_refl)) as (Hlogins & Hlen & Hlive).
    destruct (mergeSet_all_live m ml dup) as (m1 & ml1 & p & Hstep & Hgone & Hsame);
      [apply Hinv | exact Hlogins | exact Hlen | |].
    { intros l Hl. split; [now apply Hlive |].
      apply (live_not_merged m0 m ml l Hinv). now apply Hlive. }
    destruct (mergeSet_invariant m0 dup m m1 ml ml1 Hinv Hstep) as [Hinv1 Hfrom1].
    destruct (IH Hnd') with (m := m1) (ml := ml1)
      as (m' & ml' & Hfold & Hinv' & Hfrom' & Hrest).
    + intros a b l Ha Hb. apply Hdisj; now right.
    + exact Hinv1.
    + intros dup' Hdup'.
      destruct (Hsets dup' (or_intror Hdup')) as (Hlogins' & Hlen' & Hlive').
      split; [exact Hlogins' |]. split; [exact Hlen' |].
      intros l Hl. unfold has. rewrite Hsame.
      * apply Hlive'. exact Hl.
      * intros Hin.
        assert (dup = dup')
          by (apply (Hdisj dup dup' l); [now left | now right | exact Hin | exact Hl]).
        subst dup'. contradiction.
    + exists m', ml'. cbn [fold_left]. rewrite Hstep.
      split; [exact Hfold |]. split; [exact Hinv' |].
      split; [eapply comesFrom_trans; eassumption |].
      intros dup' [<- | Hdup']; [| now apply Hrest].
      exists p. intros l Hl Hne. apply (comesFrom_gone m1 m' l Hfrom').
      now apply Hgone.
Qed.

Lemma addSimilar_appends (g : groups) (duplicates : list duplicateSet) :
  exists similar, fold_left addSimilar g duplicates = duplicates ++ similar.
Proof.
  revert duplicates. induction g as [| kl g IH]; intros duplicates; simpl.
  - exists []. now rewrite app_nil_r.
  - destruct (IH (addSimilar duplicates kl)) as [similar ->].
    unfold addSimilar. destruct (1 <? _)%nat; [| now exists similar].
    destruct (existsb _ duplicates); [now exists similar |].
    eexists. now rewrite <- app_assoc.
Qed.

Lemma In_keysWhere (p : contributor -> bool) (m : registry) (k : string) :
  In k (keysWhere p m) <-> exists d, In (k, d) m /\ p d = true.
Proof.
  unfold keysWhere. rewrite in_map_iff. split.
  - intros ([k' d] & <- & Hin). apply filter_In in Hin. exists d. exact Hin.
  - intros (d & Hin & Hp). exists (k, d). split; [reflexivity |].
    apply filter_In. now split.
Qed.

Lemma emailIs_unique (e e' : string) (d : contributor) :
  emailIs e d = true -> emailIs e' d = true -> e = e'.
Proof.
  unfold emailIs. destruct (email d) as [x |]; [| discriminate].
  intros H H'. apply andb_true_iff in H, H'.
  destruct H as [_ H], H' as [_ H']. apply String.eqb_eq in H, H'. congruence.
Qed.

Lemma keysWhere_NoDup (p : contributor -> bool) (m : registry) :
  NoDup (keys m) -> NoDup (keysWhere p m).
Proof. intros Hnd. unfold keysWhere. now apply keep_distinct_logins. Qed.

Lemma duplicatesOf_distinct (t : dupType) (g : groups) :
  NoDup (map fst g) -> NoDup (duplicatesOf t g).
Proof.
  induction g as [| [k ls] g IH]; intros Hnd; simpl; [constructor |].
  inversion Hnd as [| ? ? Hnotin Hnd']; subst.
  destruct (1 <? List.length ls)%nat; simpl; [| now apply IH].
  constructor; [| now apply IH].
  intros Hin. apply In_duplicatesOf in Hin. simpl in Hin.
  destruct Hin as (_ & Hin & _). apply Hnotin.
  change k with (fst (k, ls)). now apply in_map.
Qed.

(** X21: after the deduplication of a registry with distinct keys, no two
    records hold the same e-mail, up to case. *)
Theorem deduplicate_distinct_emails (m : registry) :
  NoDup (keys m) ->
  exists (m' : registry) (mergedLogins : list string),
    deduplicate m = Some (m', mergedLogins)
    /\ forall (e k1 k2 : string) (d1 d2 : contributor),
        get k1 m' = Some d1 -> get k2 m' = Some d2 ->
        emailIs e d1 = true -> emailIs e d2 = true -> k1 = k2.
Proof.
  intros Hnd.
  destruct (mergeDuplicates_total (findDuplicates m) (findDuplicates_NoDup m Hnd) m [] Hnd)
    as (m' & ml' & Hfold & _ & _).
  exists m', ml'. split; [exact Hfold |].
  destruct (loginMap_groups m) as [[HndE _] HgroupE].
  set (byEmail := duplicatesOf email_type (loginMap m)).
  assert (Hsplit : exists others, findDuplicates m = byEmail ++ others).
  { unfold findDuplicates.
    destruct (addSimilar_appends (nameMap m)
                (byEmail ++ duplicatesOf github_login_type (githubUserMap m)))
      as [similar Heq].
    fold byEmail. rewrite Heq, <- app_assoc. eauto. }
  destruct Hsplit as [others Hsplit].
  assert (Hshape : forall dup, In dup byEmail ->
                               type dup = email_type
                               /\ logins dup = keysWhere (emailIs (key dup)) m
                               /\ (2 <= List.length (logins dup))%nat).
  { intros dup Hdup. apply In_duplicatesOf in Hdup. destruct Hdup as (Ht & Hin & Hlen).
    split; [exact Ht |]. split; [| exact Hlen].
    now rewrite <- HgroupE, (groupOf_In _ _ _ HndE Hin). }
  destruct (disjoint_sets_merged m byEmail) with (m := m) (ml := @nil string)
    as (m1 & ml1 & Hfold1 & Hinv1 & Hfrom1 & Hone).
  - now apply duplicatesOf_distinct.
  - intros a b l Ha Hb Hla Hlb.
    destruct (Hshape a Ha) as (Hta & Hlsa & _), (Hshape b Hb) as (Htb & Hlsb & _).
    rewrite Hlsa in Hla. rewrite Hlsb in Hlb.
    apply In_keysWhere in Hla, Hlb.
    destruct Hla as (da & Hina & Hea), Hlb as (db & Hinb & Heb).
    pose proof (In_get _ _ _ Hnd Hina) as Hga. pose proof (In_get _ _ _ Hnd Hinb) as Hgb.
    assert (da = db) by congruence. subst db.
    pose proof (emailIs_unique _ _ _ Hea Heb) as Hkey.
    destruct a as [ta ka la], b as [tb kb lb]. simpl in *. congruence.
  - now apply invariant_start.
  - intros dup Hdup. destruct (Hshape dup Hdup) as (_ & Hls & Hlen).
    split; [rewrite Hls; now apply keysWhere_NoDup |]. split; [exact Hlen |].
    intros l Hl. rewrite Hls in Hl. apply In_keysWhere in Hl.
    destruct Hl as (d & Hin & _). apply has_keys.
    change l with (fst (l, d)). now apply in_map.
  - unfold deduplicate, mergeDuplicates in Hfold.
    rewrite Hsplit, fold_left_app, Hfold1 in Hfold.
    destruct (mergeSets_invariant m others m1 m' ml1 ml' Hinv1 Hfold) as [_ Hfrom'].
    intros e k1 k2 d1 d2 Hd1 Hd2 He1 He2.
    destruct (Hfrom' k1 d1 Hd1) as (c1 & Hc1 & _ & Hem1 & _).
    destruct (Hfrom' k2 d2 Hd2) as (c2 & Hc2 & _ & Hem2 & _).
    destruct (Hfrom1 k1 c1 Hc1) as (b1 & Hb1 & _ & Hemb1 & _).
    destruct (Hfrom1 k2 c2 Hc2) as (b2 & Hb2 & _ & Hemb2 & _).
    assert (Hin1 : In k1 (keysWhere (emailIs e) m)).
    { apply In_keysWhere. exists b1. split; [now apply get_In |].
      unfold emailIs in *. now rewrite <- Hemb1, <- Hem1. }
    assert (Hin2 : In k2 (keysWhere (emailIs e) m)).
    { apply In_keysWhere. exists b2. split; [now apply get_In |].
      unfold emailIs in *. now rewrite <- Hemb2, <- Hem2. }
    destruct (Nat.le_gt_cases 2 (List.length (keysWhere (emailIs e) m))) as [Hmany | Hfew].
    + assert (Hdup : In {| type := email_type; key := e;
                           logins := keysWhere (emailIs e) m |} byEmail).
      { apply In_duplicatesOf. simpl. split; [reflexivity |]. split; [| exact Hmany].
        rewrite <- HgroupE. apply In_groupOf. rewrite HgroupE.
        intros Hnil. rewrite Hnil in Hmany. simpl in Hmany. lia. }
      destruct (Hone _ Hdup) as [p Hp]. simpl in Hp.
      destruct (string_dec k1 p) as [-> | Hne1].
      * destruct (string_dec k2 p) as [-> | Hne2]; [reflexivity |].
        rewrite (Hp k2 Hin2 Hne2) in Hc2. discriminate.
      * rewrite (Hp k1 Hin1 Hne1) in Hc1. discriminate.
    + clear Hone Hshape. revert Hin1 Hin2 Hfew.
      generalize (keysWhere (emailIs e) m). intros [| x [| y rest]] Hin1 Hin2 Hfew.
      * contradiction.
      * destruct Hin1 as [<- | []], Hin2 as [<- | []]. reflexivity.
      * simpl in Hfew. lia.
Qed.

Lemma deduplicate_distinct_emails_witness :
  exists (m' : registry) (mergedLogins : list string),
    deduplicate Samples.sampleDuplicates = Some (m', mergedLogins)
    /\ forall (e k1 k2 : string) (d1 d2 : contributor),
        get k1 m' = Some d1 -> get k2 m' = Some d2 ->
        emailIs e d1 = true -> emailIs e d2 = true -> k1 = k2.
Proof.
  apply (deduplicate_distinct_emails Samples.sampleDuplicates).
  repeat constructor; simpl; intuition discriminate.
Defined.

End EmailPhase.

(* ------------------------------------------------------------------ *)
(** ** Username from e-mail or name *)

Section WorkflowNormalizer.
Import Js Regex Matching Normalizer Workflow.



















(** The name [Foo @bar] with the e-mail of [octocat]: the handle of the name
    is returned, and the handle of the e-mail when the name is empty. *)
Example getUsernameFromEmail_octocat :
  getUsernameFromEmail "12345+octocat@users.noreply.github.com" "Foo @bar" = Some "bar"
  /\ getUsernameFromEmail "12345+octocat@users.noreply.github.com" "" = Some "octocat".
Proof. split; reflexivity. Qed.



(** The e-mail [12@x.com] with an empty name gives [contributor-1426538452];
    a name of punctuation only, and the e-mail [@github.com] with any name
    that mentions no handle, give the empty string, which is not [null]. *)
Example getUsernameFromEmail_placeholder :
  getUsernameFromEmail "12@x.com" "" = Some "contributor-1426538452"
  /\ emailHash "12@x.com" = (-1426538452)%Z
  /\ getUsernameFromEmail "" "!!!" = Some ""
  /\ getUsernameFromEmail "@github.com" "bob" = Some "".
Proof. repeat split; vm_compute; reflexivity. Qed.

End WorkflowNormalizer.

(* ------------------------------------------------------------------ *)
(** ** What a match looks like *)

Section MatchShape.
Import Js Regex Matching Trailers.





Lemma capless_lit_i (w : string) : capless (lit_i w) = true.
Proof. induction w as [| c w IH]; simpl; auto. Qed.

Lemma capless_lit (w : string) : capless (lit w) = true.
Proof. induction w as [| c w IH]; simpl; auto. Qed.







End MatchShape.

(* ------------------------------------------------------------------ *)
(** ** Addresses between angle brackets *)

Section Brackets.
Import Js Regex Extractor Matching Trailers.


Lemma lacks_noneOf (c : ascii) (g : string) :
  lacks c g = true -> allChars (noneOf (String c "")) g = true.
Proof.
  unfold lacks. apply allChars_impl. intros x Hx. unfold noneOf, oneOf. simpl.
  rewrite orb_false_r, Ascii.eqb_sym. exact Hx.
Qed.














End Brackets.

(* ------------------------------------------------------------------ *)
(** ** The e-mail sweep over a message made of pieces *)

Section Sweep.
Import Js Regex Extractor Matching Trailers.













End Sweep.

(* ------------------------------------------------------------------ *)
(** ** The candidates of a message made of trailers *)

Section TrailerCount.
Import Js Regex Extractor Matching Trailers.

























(** The message of the sample lines gives two candidates, [Bob] and
    [Carol Lee]. *)
Example extractCoAuthors_two_trailers :
  map (fun c => (name c, email c)) (extractCoAuthors (messageOf Samples.sampleLines))
  = [("Bob Jones", "Bob@Example.com"); ("Carol Lee", "carol@example.org")].
Proof. vm_compute. reflexivity. Qed.

End TrailerCount.
